(** * Peer discovery of the decentralized-network demo

    A shallow embedding of the discovery core of the [DecentralizedNetwork]
    React component: peer identifiers ([generatePeerId]), the XOR metric
    ([calculateDistance]), closest-peer selection ([findClosestPeers]), one
    discovery round ([discover], the closure that [discoverPeers] hands to
    [simulateLatency]), the coordinator's handlers (peer add and removal,
    the periodic tick, the latency slider) and the log-trimming effect.

    Conventions.
    - A JS string is a [string]; an id is whatever string the [id] field
      holds, and [is_peer_id] singles out the ids [generatePeerId] produces.
    - A BigInt that is never negative is an [N].
    - A JS [Map] is an association list in insertion order ([JsMap]).
    - Code that can throw returns [option]; [None] is the thrown
      [SyntaxError] of [BigInt] on a string that is no hexadecimal literal.
    - A timestamp (a JS number) is a [Q]; [Date.now()] is an oracle. *)

From Stdlib Require Import List String Ascii Strings.Byte NArith ZArith QArith Bool Lia.
From Stdlib Require Import Permutation DecimalString.
Import ListNotations.

Local Open Scope string_scope.
Local Open Scope list_scope.

(* ================================================================== *)
(** ** JS strings *)

Module JsString.

(** [s.slice(start, stop)] for [0 <= start <= stop]. *)
Definition slice (start stop : nat) (s : string) : string :=
  substring start (stop - start) s.

Fixpoint repeat_char (c : ascii) (n : nat) : string :=
  match n with
  | O => EmptyString
  | S n' => String c (repeat_char c n')
  end.

(** [s.padStart(target, c)] for a one-character pad string. *)
Definition padStart (target : nat) (c : ascii) (s : string) : string :=
  (repeat_char c (target - String.length s) ++ s)%string.

(** [parts.join("")]. *)
Definition join (parts : list string) : string :=
  fold_right String.append EmptyString parts.

Fixpoint forallb_string (f : ascii -> bool) (s : string) : bool :=
  match s with
  | EmptyString => true
  | String c s' => f c && forallb_string f s'
  end.

(** Decimal rendering of a length, as a template literal does it. *)
Definition of_nat (n : nat) : string :=
  NilZero.string_of_uint (Nat.to_uint n).

End JsString.

(* ================================================================== *)
(** ** Hexadecimal: [Number.prototype.toString(16)] and [BigInt("0x...")] *)

Module Hex.

(** The lowercase digit of a value below 16. *)
Definition digit_char (d : N) : ascii :=
  if (d <? 10)%N then ascii_of_N (48 + d) else ascii_of_N (87 + d).

Fixpoint toString16_fuel (fuel : nat) (n : N) : string :=
  match fuel with
  | O => EmptyString
  | S fuel' =>
      if (n <? 16)%N then String (digit_char n) EmptyString
      else (toString16_fuel fuel' (n / 16) ++
            String (digit_char (n mod 16)) EmptyString)%string
  end.

(** [n.toString(16)] of a non-negative integer. *)
Definition toString16 (n : N) : string :=
  toString16_fuel (S (N.to_nat (N.log2 n))) n.

(** Value of a [HexDigit] (both cases are digits of a literal). *)
Definition digit_value (c : ascii) : option N :=
  let n := N_of_ascii c in
  if ((48 <=? n) && (n <=? 57))%N then Some (n - 48)%N
  else if ((97 <=? n) && (n <=? 102))%N then Some (n - 87)%N
  else if ((65 <=? n) && (n <=? 70))%N then Some (n - 55)%N
  else None.

Definition is_lower_hex (c : ascii) : bool :=
  let n := N_of_ascii c in
  ((48 <=? n) && (n <=? 57) || (97 <=? n) && (n <=? 102))%N.

(** [StrWhiteSpaceChar] among the code units below 256. *)
Definition is_whitespace (c : ascii) : bool :=
  let n := N_of_ascii c in
  existsb (N.eqb n) [9; 10; 11; 12; 13; 32; 160]%N.

(** Digits after the first one, then optional trailing white space. *)
Fixpoint digits_from (acc : N) (s : string) : option N :=
  match s with
  | EmptyString => Some acc
  | String c s' =>
      match digit_value c with
      | Some d => digits_from (acc * 16 + d) s'
      | None =>
          if JsString.forallb_string is_whitespace s then Some acc else None
      end
  end.

(** [BigInt(`0x${s}`)]: the text must be [0x], one or more hex digits and
    optional trailing white space; anything else throws. *)
Definition parseBigInt (s : string) : option N :=
  match s with
  | EmptyString => None
  | String c s' =>
      match digit_value c with
      | Some d => digits_from d s'
      | None => None
      end
  end.

End Hex.

(* ================================================================== *)
(** ** Peer identity *)

Module Identity.

(** An id as [generatePeerId] makes them: 12 lowercase hex characters. *)
Definition is_peer_id (s : string) : bool :=
  (String.length s =? 12)%nat && JsString.forallb_string Hex.is_lower_hex s.

(** [b.toString(16).padStart(2, "0")] for an element of a [Uint8Array]. *)
Definition byte_hex (b : byte) : string :=
  JsString.padStart 2 "0"%char (Hex.toString16 (Byte.to_N b)).

Section GeneratePeerId.

(** [window.crypto.subtle.digest("SHA-256", _)] belongs to the platform;
    the code uses nothing of it but the bytes it returns. *)
Variable sha256 : list byte -> list byte.

(** [generatePeerId], from the exported raw public key on. *)
Definition generatePeerId (publicKeyBuffer : list byte) : string :=
  let hash := sha256 publicKeyBuffer in
  JsString.slice 0 12 (JsString.join (map byte_hex hash)).

End GeneratePeerId.

(** The rendering the specification describes, nibble by nibble. *)
Definition nibbles (b : byte) : string :=
  String (Hex.digit_char (Byte.to_N b / 16))
    (String (Hex.digit_char (Byte.to_N b mod 16)) EmptyString).

Definition lowercase_hex (bs : list byte) : string :=
  JsString.join (map nibbles bs).

End Identity.

(* ================================================================== *)
(** ** Distance metric *)

Module Distance.

(** [calculateDistance]: both ids are parsed, first [id1] then [id2]. *)
Definition calculateDistance (id1 id2 : string) : option N :=
  match Hex.parseBigInt id1 with
  | None => None
  | Some n1 =>
      match Hex.parseBigInt id2 with
      | None => None
      | Some n2 => Some (N.lxor n1 n2)
      end
  end.

End Distance.

(* ================================================================== *)
(** ** JS [Map] with string keys *)

Module JsMap.

Section Ops.

Context {V : Type}.

(** The entries in insertion order; a [Map] never holds a key twice. *)
Definition t : Type := list (string * V).

Definition keys (m : t) : list string := map fst m.

Definition size (m : t) : nat := List.length m.

Definition wf (m : t) : Prop := NoDup (keys m).

(** [m.get(k)], with [None] for [undefined]. *)
Definition get (k : string) (m : t) : option V :=
  match find (fun e => (fst e =? k)%string) m with
  | Some e => Some (snd e)
  | None => None
  end.

(** [m.delete(k)]. *)
Definition delete (k : string) (m : t) : t :=
  filter (fun e => negb (fst e =? k)%string) m.

(** [m.set(k, v)]: an existing key keeps its place, a new one goes last. *)
Fixpoint set (k : string) (v : V) (m : t) : t :=
  match m with
  | [] => [(k, v)]
  | e :: m' => if (fst e =? k)%string then (k, v) :: m' else e :: set k v m'
  end.

(** [m.clear()]. *)
Definition clear (m : t) : t := [].

End Ops.

Arguments t V : clear implicits.

End JsMap.

(* ================================================================== *)
(** ** Peers and the component's state *)

Module Net.

(** The [status] field: ["discovering"] or ["connected"]. *)
Inductive Status : Type := Discovering | Connected.

(** A value of a routing table: [{ distance, lastSeen }]. *)
Record RouteEntry : Type := {
  distance : N;
  entry_lastSeen : Q
}.

Definition RoutingTable : Type := JsMap.t RouteEntry.

(** The fields of a peer that discovery reads or writes; [signingKeys],
    [x] and [y] serve key export and drawing only. *)
Record Peer : Type := {
  id : string;
  routingTable : RoutingTable;
  lastSeen : Q;
  status : Status
}.

(** [peers.current] and the React state of the component. *)
Record Network : Type := {
  peers : list Peer;
  discoveryLogs : list string;
  networkLatency : Z;
  started : bool
}.

Definition ids (s : Network) : list string := map id (peers s).

(** Peers whose ids are ids of [generatePeerId]. *)
Definition valid_peers (ps : list Peer) : Prop :=
  Forall (fun p => Identity.is_peer_id (id p) = true) ps.

(** The tables of a network, by owner. *)
Definition tables (s : Network) : list (string * RoutingTable) :=
  map (fun p => (id p, routingTable p)) (peers s).

(** *** Log lines *)

Definition short (i : string) : string := JsString.slice 0 6 i.

Definition msg_discovering (peerId : string) : string :=
  ("Peer " ++ short peerId ++ " discovering closest peers...")%string.

Definition msg_cleared (peerId : string) : string :=
  ("Peer " ++ short peerId ++ " cleared routing table - no peers found")%string.

Definition msg_removed (peerId removed : string) : string :=
  ("Peer " ++ short peerId ++ " removed " ++ short removed
     ++ " from routing table")%string.

Definition msg_found (peerId : string) (n : nat) : string :=
  ("Peer " ++ short peerId ++ " found " ++ JsString.of_nat n
     ++ " close peers")%string.

Definition msg_joined (peerId : string) : string :=
  ("Peer " ++ short peerId ++ " joined the network")%string.

End Net.

(* ================================================================== *)
(** ** One discovery round *)

Module Discovery.

Import Net.

(** *** Closest peers *)

Section Sort.

Context {A : Type}.

(** The comparator: a number, or the exception it throws. *)
Variable comparefn : A -> A -> option Z.

(** [x] goes in front of the first element it compares below. *)
Fixpoint insert (x : A) (sorted : list A) : option (list A) :=
  match sorted with
  | [] => Some [x]
  | y :: rest =>
      match comparefn x y with
      | None => None
      | Some c =>
          if (c <? 0)%Z then Some (x :: sorted)
          else option_map (cons y) (insert x rest)
      end
  end.

(** One element more, unless an exception ended the sort. *)
Definition sort_step (acc : option (list A)) (x : A) : option (list A) :=
  match acc with Some s => insert x s | None => None end.

(** [array.sort(comparefn)] as a stable insertion sort: the comparator is
    not called on arrays shorter than two, and an exception of the
    comparator ends the sort.  A comparator that answers 1 on a tie keeps
    the earlier element first, as the stable sort of the language does. *)
Definition sort (l : list A) : option (list A) :=
  fold_left sort_step l (Some []).

End Sort.

(** The comparator of [findClosestPeers]; it never answers 0. *)
Definition by_distance (targetId : string) (a b : Peer) : option Z :=
  match Distance.calculateDistance (id a) targetId with
  | None => None
  | Some distA =>
      match Distance.calculateDistance (id b) targetId with
      | None => None
      | Some distB => Some (if (distA <? distB)%N then (-1)%Z else 1%Z)
      end
  end.

Definition is_candidate (targetId : string) (p : Peer) : bool :=
  negb (id p =? targetId)%string.

(** [findClosestPeers(targetId, allPeers, count)]. *)
Definition findClosestPeers
    (targetId : string) (allPeers : list Peer) (count : nat)
    : option (list Peer) :=
  option_map (firstn count)
    (sort (by_distance targetId) (filter (is_candidate targetId) allPeers)).

(** The default of [count]. *)
Definition default_count : nat := 3.

(** *** Effects of a round

    A round appends to the log through [setDiscoveryLogs], reads the
    clock, and stops at the first exception. *)

Record Round : Type := {
  logs : list string;
  clock_reads : nat
}.

Definition M (A : Type) : Type := Round -> option (A * Round).

Definition ret {A : Type} (a : A) : M A := fun r => Some (a, r).

Definition bind {A B : Type} (m : M A) (k : A -> M B) : M B :=
  fun r => match m r with
           | Some (a, r') => k a r'
           | None => None
           end.

Notation "x <- m ;; k" := (bind m (fun x => k))
  (at level 61, m at next level, right associativity).
Notation "m ;;; k" := (bind m (fun _ => k))
  (at level 61, right associativity).

Definition or_throw {A : Type} (o : option A) : M A :=
  fun r => match o with Some a => Some (a, r) | None => None end.

(** [setDiscoveryLogs((prev) => [...prev, line])]. *)
Definition setDiscoveryLogs (line : string) : M unit :=
  fun r => Some (tt, {| logs := logs r ++ [line]; clock_reads := clock_reads r |}).

(** [Date.now()]: the [n]-th read of the round answers [now n]. *)
Definition date_now (now : nat -> Q) : M Q :=
  fun r => Some (now (clock_reads r),
                 {| logs := logs r; clock_reads := S (clock_reads r) |}).

(** [items.forEach] with a body that updates one object. *)
Fixpoint forEach {A T : Type} (body : T -> A -> M T) (items : list A) (acc : T)
    : M T :=
  match items with
  | [] => ret acc
  | x :: rest => acc' <- body acc x ;; forEach body rest acc'
  end.

(** [items.map] with an effectful callback. *)
Fixpoint mapM {A B : Type} (f : A -> M B) (items : list A) : M (list B) :=
  match items with
  | [] => ret []
  | x :: rest => y <- f x ;; ys <- mapM f rest ;; ret (y :: ys)
  end.

(** [newPeerIds.includes(i)]. *)
Definition includes (l : list string) (i : string) : bool :=
  existsb (String.eqb i) l.

(** The body of [currentPeerIds.forEach]. *)
Definition remove_stale (peerId : string) (newPeerIds : list string)
    (table : RoutingTable) (i : string) : M RoutingTable :=
  if negb (includes newPeerIds i) then
    setDiscoveryLogs (msg_removed peerId i) ;;;
    ret (JsMap.delete i table)
  else ret table.

(** The body of [closestPeers.forEach]. *)
Definition upsert (now : nat -> Q) (peerId : string)
    (table : RoutingTable) (close : Peer) : M RoutingTable :=
  d <- or_throw (Distance.calculateDistance peerId (id close)) ;;
  t <- date_now now ;;
  ret (JsMap.set (id close) {| distance := d; entry_lastSeen := t |} table).

(** The callback of [peers.current.map]. *)
Definition update_peer (now : nat -> Q) (peerId : string)
    (closestPeers : list Peer) (p : Peer) : M Peer :=
  if (id p =? peerId)%string then
    let currentPeerIds := JsMap.keys (routingTable p) in
    table <-
      (if (List.length closestPeers =? 0)%nat then
         setDiscoveryLogs (msg_cleared peerId) ;;;
         ret (JsMap.clear (routingTable p))
       else
         let newPeerIds := map id closestPeers in
         kept <- forEach (remove_stale peerId newPeerIds)
                   currentPeerIds (routingTable p) ;;
         forEach (upsert now peerId) closestPeers kept) ;;
    ret {| id := id p; routingTable := table;
           lastSeen := lastSeen p; status := Connected |}
  else ret p.

(** The closure [discover] of [discoverPeers]. *)
Definition discover_round (now : nat -> Q) (peerId : string)
    (current : list Peer) : M (list Peer) :=
  closestPeers <- or_throw (findClosestPeers peerId current default_count) ;;
  setDiscoveryLogs (msg_discovering peerId) ;;;
  updated <- mapM (update_peer now peerId closestPeers) current ;;
  setDiscoveryLogs (msg_found peerId (List.length closestPeers)) ;;;
  ret updated.

(** A completed round, on the state of the component. *)
Definition discover (now : nat -> Q) (peerId : string) (s : Network)
    : option Network :=
  match discover_round now peerId (peers s)
          {| logs := discoveryLogs s; clock_reads := 0 |} with
  | None => None
  | Some (updated, r) =>
      Some {| peers := updated; discoveryLogs := logs r;
              networkLatency := networkLatency s; started := started s |}
  end.

End Discovery.

(* ================================================================== *)
(** ** The coordinator: handlers, effects and the event loop *)

Module Coordinator.

Import Net.

(** The object [createPeer] returns, for the id it derived and the clock
    it read. *)
Definition createPeer (newId : string) (now : Q) : Peer :=
  {| id := newId; routingTable := []; lastSeen := now; status := Discovering |}.

(** [makeAnotherPeer]: [peers.current.push(peer)]. *)
Definition makeAnotherPeer (peer : Peer) (s : Network) : Network :=
  {| peers := peers s ++ [peer]; discoveryLogs := discoveryLogs s;
     networkLatency := networkLatency s; started := started s |}.

(** One turn of the first loop of [initNetwork]: push, then log. *)
Definition joinNetwork (peer : Peer) (s : Network) : Network :=
  {| peers := peers s ++ [peer];
     discoveryLogs := discoveryLogs s ++ [msg_joined (id peer)];
     networkLatency := networkLatency s; started := started s |}.

(** The [Power] icon of a peer: [peers.current.filter(p => p.id !== id)]. *)
Definition removePeer (peerId : string) (s : Network) : Network :=
  {| peers := filter (fun p => negb (id p =? peerId)%string) (peers s);
     discoveryLogs := discoveryLogs s;
     networkLatency := networkLatency s; started := started s |}.

(** The copies the interval callback makes: [{ ...peer, lastSeen }], the
    [n]-th peer getting [seen n]. *)
Fixpoint refresh (seen : nat -> Q) (n : nat) (ps : list Peer) : list Peer :=
  match ps with
  | [] => []
  | p :: rest =>
      {| id := id p; routingTable := routingTable p;
         lastSeen := seen n; status := status p |} :: refresh seen (S n) rest
  end.

Definition tick (seen : nat -> Q) (s : Network) : Network :=
  {| peers := refresh seen 0 (peers s); discoveryLogs := discoveryLogs s;
     networkLatency := networkLatency s; started := started s |}.

(** The slider: [started.current = false; setNetworkLatency(v)], and, when
    the value changed, the synchronous part of the effect that depends on
    it: [started.current = true; peers.current = []]. *)
Definition onLatencyChange (v : Z) (s : Network) : Network :=
  if (v =? networkLatency s)%Z then
    {| peers := peers s; discoveryLogs := discoveryLogs s;
       networkLatency := networkLatency s; started := false |}
  else
    {| peers := []; discoveryLogs := discoveryLogs s;
       networkLatency := v; started := true |}.

(** *** The log-trimming effect *)

Definition max_logs : nat := 500.

(** [while (cut.length > 500) discoveryLogs.shift()], [cut] being the
    same array. *)
Fixpoint shift_while (fuel : nat) (l : list string) : list string :=
  match fuel with
  | O => l
  | S fuel' =>
      if (max_logs <? List.length l)%nat then shift_while fuel' (tl l) else l
  end.

(** The effect on [[discoveryLogs]], run after a render that changed it. *)
Definition trimLogs (l : list string) : list string :=
  if (max_logs <? List.length l)%nat then shift_while (List.length l) l else l.

Definition trimEffect (s : Network) : Network :=
  {| peers := peers s; discoveryLogs := trimLogs (discoveryLogs s);
     networkLatency := networkLatency s; started := started s |}.

(** The updater of every append: [(prev) => [...prev, line]]. *)
Definition appendLog (line : string) (prev : list string) : list string :=
  prev ++ [line].

(** A batch of appends, applied in order before the next render. *)
Definition appendAll (batch prev : list string) : list string :=
  fold_left (fun l line => appendLog line l) batch prev.

(** *** The event loop

    A world is the component's state and the rounds that wait in
    [simulateLatency], each known by the id of its peer.  Dragging a
    peer replaces it by a copy with other [x] and [y], which changes
    nothing of what a world records. *)

Record World : Type := {
  net : Network;
  in_flight : list string
}.

(** The state after the first run of the mount effect. *)
Definition mounted : World :=
  {| net := {| peers := []; discoveryLogs := []; networkLatency := 200;
               started := true |};
     in_flight := [] |}.

Inductive step : World -> World -> Prop :=
| step_join newId now w :
    (* a [createPeer] of [initNetwork] resolved *)
    Identity.is_peer_id newId = true ->
    step w {| net := joinNetwork (createPeer newId now) (net w);
              in_flight := in_flight w |}
| step_add newId now w :
    (* the [PlusCircle] icon *)
    Identity.is_peer_id newId = true ->
    step w {| net := makeAnotherPeer (createPeer newId now) (net w);
              in_flight := in_flight w |}
| step_remove peerId w :
    step w {| net := removePeer peerId (net w); in_flight := in_flight w |}
| step_start peerId w :
    (* [discoverPeers(peer)] of a loop of [initNetwork]: the peer is one
       that was created, and may have left the network since *)
    Identity.is_peer_id peerId = true ->
    step w {| net := net w; in_flight := in_flight w ++ [peerId] |}
| step_tick seen w :
    (* the interval: a round for every peer, and the copies *)
    step w {| net := tick seen (net w);
              in_flight := in_flight w ++ ids (net w) |}
| step_complete now before peerId after w s' :
    (* the timer of a waiting round fired *)
    in_flight w = before ++ peerId :: after ->
    Discovery.discover now peerId (net w) = Some s' ->
    step w {| net := s'; in_flight := before ++ after |}
| step_latency v w :
    (* the slider; no waiting round is cancelled *)
    step w {| net := onLatencyChange v (net w); in_flight := in_flight w |}
| step_trim w :
    step w {| net := trimEffect (net w); in_flight := in_flight w |}.

Inductive reachable : World -> Prop :=
| reachable_mounted : reachable mounted
| reachable_step w w' : reachable w -> step w w' -> reachable w'.

(** Every id in sight is one that [generatePeerId] made, and every table
    is a [Map]. *)
Definition well_formed (s : Network) : Prop :=
  Forall (fun p => Identity.is_peer_id (id p) = true
                   /\ JsMap.wf (routingTable p)) (peers s).

(** No table names its owner. *)
Definition no_self_entry (s : Network) : Prop :=
  Forall (fun p => ~ In (id p) (JsMap.keys (routingTable p))) (peers s).

End Coordinator.

(* ================================================================== *)
(** ** What the specification says, in its own words *)

Module Spec.

Import Net.

(** The unsigned integer an id denotes, digit by digit, most significant
    first; a character that is no hex digit counts as 0. *)
Fixpoint unsigned (s : string) : N :=
  match s with
  | EmptyString => 0%N
  | String c s' =>
      (match Hex.digit_value c with Some d => d | None => 0 end
       * 16 ^ N.of_nat (String.length s') + unsigned s')%N
  end.

(** What a round leaves in the table of the peer it serves: a [Map] whose
    keys are the ids of the closest peers, each with its distance to the
    owner. *)
Definition table_after (peerId : string) (closestPeers : list Peer)
    (table : RoutingTable) : Prop :=
  JsMap.wf table
  /\ (forall k, In k (JsMap.keys table) <-> In k (map id closestPeers))
  /\ (forall k v, In (k, v) table ->
        Distance.calculateDistance peerId k = Some (distance v)).

(** What a round does to one peer of the network. *)
Definition round_result (peerId : string) (closestPeers : list Peer)
    (p p' : Peer) : Prop :=
  id p' = id p
  /\ lastSeen p' = lastSeen p
  /\ (id p <> peerId -> p' = p)
  /\ (id p = peerId ->
        status p' = Connected
        /\ table_after peerId closestPeers (routingTable p')).

(** A peer whose round found nobody. *)
Definition cleared_peer (p : Peer) : Peer :=
  {| id := id p; routingTable := []; lastSeen := lastSeen p;
     status := Connected |}.

(** The peers a round for [peerId] can choose from. *)
Definition candidates (peerId : string) (s : Network) : list Peer :=
  filter (Discovery.is_candidate peerId) (peers s).

End Spec.

(* ================================================================== *)
(** ** Concrete networks *)

Module Examples.

Import Net Coordinator.

Definition now0 : nat -> Q := fun n => inject_Z (1700000000000 + Z.of_nat n).

Definition idA : string := "a1b2c3d4e5f6".
Definition idB : string := "0f1e2d3c4b5a".
Definition idC : string := "7766554433aa".
Definition idD : string := "123456789abc".
Definition idE : string := "fedcba987654".

Definition fresh (i : string) : Peer := createPeer i (now0 0).

Definition network (ps : list Peer) (log : list string) : Network :=
  {| peers := ps; discoveryLogs := log; networkLatency := 200;
     started := true |}.

(** A network of one peer, before its first round. *)
Definition alone : Network := network [fresh idA] [].

(** The five peers of [initNetwork], before their first rounds. *)
Definition five : Network :=
  network [fresh idA; fresh idB; fresh idC; fresh idD; fresh idE] [].

(** [idA] after a round among the five: its table names E, B and D,
    closest first. *)
Definition peerA_connected : Peer :=
  {| id := idA;
     routingTable :=
       [(idE, {| distance := 0x5f6e794c93a2; entry_lastSeen := now0 0 |});
        (idB, {| distance := 0xaeaceee8aeac; entry_lastSeen := now0 1 |});
        (idD, {| distance := 0xb38695ac7f4a; entry_lastSeen := now0 2 |})];
     lastSeen := now0 0;
     status := Connected |}.

Definition five_after_round : Network :=
  network [peerA_connected; fresh idB; fresh idC; fresh idD; fresh idE]
    [msg_discovering idA; msg_found idA 3].

(** [alone] after the round of its only peer. *)
Definition alone_after_round : Network :=
  network
    [{| id := idA; routingTable := []; lastSeen := now0 0;
        status := Connected |}]
    [msg_discovering idA; msg_cleared idA; msg_found idA 0].

(** Four peers joined, three of them with the same id: the digests of
    their random texts share the first six bytes. *)
Definition twins : Network :=
  network [fresh idA; fresh idB; fresh idB; fresh idB]
    [msg_joined idA; msg_joined idB; msg_joined idB; msg_joined idB].

(** [twins] after the round of [idA]: the three closest peers share one
    key of the table, set three times. *)
Definition twins_after_round : Network :=
  network
    [{| id := idA;
        routingTable :=
          [(idB, {| distance := 0xaeaceee8aeac; entry_lastSeen := now0 2 |})];
        lastSeen := now0 0;
        status := Connected |};
     fresh idB; fresh idB; fresh idB]
    [msg_joined idA; msg_joined idB; msg_joined idB; msg_joined idB;
     msg_discovering idA; msg_found idA 3].

(** The slider moved to 1000 ms after the round of [idA]: the peers are
    gone, the log stays. *)
Definition after_reset : Network :=
  {| peers := []; discoveryLogs := [msg_discovering idA; msg_found idA 3];
     networkLatency := 1000; started := true |}.

(** ... and a round for [idE], started before the slider moved,
    completes. *)
Definition after_stale_round : Network :=
  {| peers := [];
     discoveryLogs := [msg_discovering idA; msg_found idA 3;
                       msg_discovering idE; msg_found idE 0];
     networkLatency := 1000; started := true |}.

(** A log that is full. *)
Definition full_log : list string := repeat "Peer a1b2c3 joined the network" 500.

(** A stand-in for the platform's digest in examples: 32 bytes that depend
    on the input. *)
Definition toy_digest (buf : list byte) : list byte :=
  firstn 32 (buf ++ repeat x00 32).

(** The worlds of a short run: two peers join, a round for the first one
    starts and completes. *)
Definition world1 : World :=
  {| net := joinNetwork (fresh idA) (net mounted); in_flight := [] |}.

Definition world2 : World :=
  {| net := joinNetwork (fresh idB) (net world1); in_flight := [] |}.

Definition world3 : World :=
  {| net := net world2; in_flight := [] ++ [idA] |}.

Definition round3 : Network :=
  {| peers :=
       [{| id := idA;
           routingTable :=
             [(idB, {| distance := 0xaeaceee8aeac;
                       entry_lastSeen := now0 0 |})];
           lastSeen := now0 0; status := Connected |};
        fresh idB];
     discoveryLogs :=
       [msg_joined idA; msg_joined idB; msg_discovering idA;
        msg_found idA 1];
     networkLatency := 200; started := true |}.

Definition world4 : World := {| net := round3; in_flight := [] ++ [] |}.

End Examples.

From Stdlib Require Import Sorted.

(* ================================================================== *)
(** ** Orders on peers, seen from a target id *)

Module Closeness.

Import Net.

(** [c] is at most as far from [targetId] as [d] is. *)
Definition no_farther (targetId : string) (c d : Peer) : Prop :=
  exists dc dd,
    Distance.calculateDistance (id c) targetId = Some dc
    /\ Distance.calculateDistance (id d) targetId = Some dd
    /\ (dc <= dd)%N.

(** [c] is strictly closer to [targetId] than [d] is. *)
Definition closer (targetId : string) (c d : Peer) : Prop :=
  exists dc dd,
    Distance.calculateDistance (id c) targetId = Some dc
    /\ Distance.calculateDistance (id d) targetId = Some dd
    /\ (dc < dd)%N.

(** [BigInt] throws on the id of [p]. *)
Definition not_hex (p : Peer) : Prop := Hex.parseBigInt (id p) = None.

End Closeness.

(* ================================================================== *)
(** ** What a round writes to the log *)

Module RoundLog.

Import Net.

(** The keys of a table that are not among the new closest ids, in the
    order of the table. *)
Definition pruned_keys (newPeerIds : list string) (table : RoutingTable)
    : list string :=
  filter (fun k => negb (Discovery.includes newPeerIds k)) (JsMap.keys table).

(** The lines between "discovering" and "found" of a round that serves a
    peer with this table. *)
Definition table_lines (peerId : string) (closestPeers : list Peer)
    (table : RoutingTable) : list string :=
  match closestPeers with
  | [] => [msg_cleared peerId]
  | _ :: _ => map (msg_removed peerId) (pruned_keys (map id closestPeers) table)
  end.

(** A table without its timestamps. *)
Definition routes (table : RoutingTable) : list (string * N) :=
  map (fun e => (fst e, distance (snd e))) table.

End RoundLog.

(* ================================================================== *)
(** ** What the component shows *)

Module View.

Import Net.

(** [a && b] and [a || b] on numbers: 0 is the falsy one. *)
Definition js_and (a b : nat) : nat := if (a =? 0)%nat then a else b.

Definition js_or (a b : nat) : nat := if (a =? 0)%nat then b else a.

(** The "Connection count" line:
    [(peers.current.length && peers.current.reduce((agg, curr) =>
      curr.routingTable.size + agg, 0)) || 0]. *)
Definition connectionCount (s : Network) : nat :=
  js_or
    (js_and (List.length (peers s))
       (fold_left (fun agg curr => (JsMap.size (routingTable curr) + agg)%nat)
          (peers s) 0%nat))
    0.

(** The status of every peer, by id. *)
Definition statuses (s : Network) : list (string * Status) :=
  map (fun p => (id p, status p)) (peers s).

(** [peers.current.find((p) => p.id === targetId)]. *)
Definition findPeer (targetId : string) (ps : list Peer) : option Peer :=
  find (fun p => (id p =? targetId)%string) ps.

(** The [<line>] elements of the drawing, each known by its two ends as in
    its [key], [`${peer.id}-${targetId}`]; [None] is the [null] a key of a
    table without a peer in the network gives. *)
Definition lineElements (s : Network) : list (list (option (string * string))) :=
  map (fun peer =>
         map (fun targetId =>
                match findPeer targetId (peers s) with
                | None => None
                | Some targetPeer => Some (id peer, id targetPeer)
                end)
           (JsMap.keys (routingTable peer)))
    (peers s).

(** The lines that are drawn. *)
Definition drawnLines (s : Network) : list (string * string) :=
  flat_map (fun row => flat_map (fun e => match e with
                                          | Some l => [l]
                                          | None => []
                                          end) row)
    (lineElements s).

(** The two integers [createPeer] divides by 65535 to place a peer:
    [idBytes & BigInt(0xffff)] and
    [(idBytes >> BigInt(16)) & BigInt(0xffff)]. *)
Definition xBits (peerId : string) : option N :=
  option_map (fun idBytes => N.land idBytes 0xffff) (Hex.parseBigInt peerId).

Definition yBits (peerId : string) : option N :=
  option_map (fun idBytes => N.land (N.shiftr idBytes 16) 0xffff)
    (Hex.parseBigInt peerId).

End View.

(* ================================================================== *)
(** ** The start of the network *)

Module Bootstrap.

Import Net Coordinator.

(** The first loop of [initNetwork]: [count] peers are created, pushed and
    logged, one after the other; [create i] is the id and the clock of the
    [i]-th [createPeer]. *)
Definition joinEach (create : nat -> string * Q) (count : nat) (s : Network)
    : Network :=
  fold_left
    (fun acc i => joinNetwork (createPeer (fst (create i)) (snd (create i))) acc)
    (seq 0 count) s.

(** The second loop: [for (const peer of peers.current) await
    discoverPeers(peer)], each round completing before the next starts;
    [now k] is the clock of the [k]-th round. *)
Fixpoint discoverEach (now : nat -> nat -> Q) (k : nat) (todo : list string)
    (s : Network) : option Network :=
  match todo with
  | [] => Some s
  | peerId :: rest =>
      match Discovery.discover (now k) peerId s with
      | None => None
      | Some s' => discoverEach now (S k) rest s'
      end
  end.

(** [initNetwork], with nothing else happening meanwhile. *)
Definition initNetwork (create : nat -> string * Q) (now : nat -> nat -> Q)
    (s : Network) : option Network :=
  let joined := joinEach create 5 s in
  discoverEach now 0 (ids joined) joined.

(** The effect that starts the network. *)
Definition initEffect (create : nat -> string * Q) (now : nat -> nat -> Q)
    (s : Network) : option Network :=
  if started s then Some s
  else initNetwork create now
         {| peers := []; discoveryLogs := discoveryLogs s;
            networkLatency := networkLatency s; started := true |}.

End Bootstrap.

(* ================================================================== *)
(** ** More concrete inputs *)

Module Examples2.

Import Net Coordinator.

(** Five [createPeer] calls that answer the ids of [Examples]. *)
Definition create5 (i : nat) : string * Q :=
  (nth i [Examples.idA; Examples.idB; Examples.idC; Examples.idD; Examples.idE]
     EmptyString,
   Examples.now0 i).

Definition clocks (k : nat) : nat -> Q := Examples.now0.

(** The state before the effect that starts the network has run. *)
Definition unstarted : Network :=
  {| peers := []; discoveryLogs := []; networkLatency := 200;
     started := false |}.

(** The five after the round of [idA], when [idE] has left: the table of
    [idA] still names [idE]. *)
Definition after_leave : Network :=
  removePeer Examples.idE Examples.five_after_round.

(** The rounds of a tick, completing in the reverse of the order in which
    they started. *)
Definition completion_order : list string :=
  [Examples.idD; Examples.idC; Examples.idB; Examples.idA].

End Examples2.

(* ================================================================== *)
(** ** Bytes as numbers *)

Module Bytes.

(** The number that a sequence of bytes denotes, most significant byte
    first. *)
Fixpoint big_endian (bs : list byte) : N :=
  match bs with
  | [] => 0%N
  | b :: rest =>
      (Byte.to_N b * 256 ^ N.of_nat (List.length rest) + big_endian rest)%N
  end.

End Bytes.

(* ================================================================== *)
(** ** A table that is up to date *)

Module Convergence.

Import Net.

(** The table of [owner] names peers of the network only, never its
    owner; it has as many entries as there are other peers, up to 3; and
    every id it names is at most as far from the owner as every other id
    of the network that it does not name. *)
Definition holds_closest (owner : string) (network : list string)
    (table : RoutingTable) : Prop :=
  (forall k, In k (JsMap.keys table) -> In k network /\ k <> owner)
  /\ JsMap.size table
     = Nat.min Discovery.default_count (List.length network - 1)
  /\ (forall k j,
        In k (JsMap.keys table) -> In j network -> j <> owner ->
        ~ In j (JsMap.keys table) ->
        exists dk dj,
          Distance.calculateDistance k owner = Some dk
          /\ Distance.calculateDistance j owner = Some dj
          /\ (dk <= dj)%N).

End Convergence.

(* ================================================================== *)
(** ** The encryption demo with random padding

    The first [WebCryptoDemo]: a message is padded with 16 random bytes,
    encrypted with RSA-OAEP and shown in base64; decryption strips the
    padding.  The platform (Web Crypto, [TextEncoder], [btoa]) is a
    parameter; a call of it returns, or throws an error with a message. *)

Module PaddedDemo.

Inductive Result (A : Type) : Type :=
| Ok (a : A)
| Throw (message : string).

Arguments Ok {A} a.
Arguments Throw {A} message.

(** [String.fromCharCode(...bytes)]: one character per byte. *)
Definition fromCharCode (bytes : list byte) : string :=
  string_of_list_byte bytes.

(** The loop [bytes[i] = binaryStr.charCodeAt(i)] into a [Uint8Array]. *)
Definition charCodes (binaryStr : string) : list byte :=
  list_byte_of_string binaryStr.

Section Platform.

(** Text as the user types it, and the key handles. *)
Variables Text PublicKey PrivateKey Seed : Type.

(** [new TextEncoder().encode] and [new TextDecoder().decode]. *)
Variable encode : Text -> list byte.
Variable decode : list byte -> Text.

(** [crypto.subtle.encrypt] and [decrypt] with [{ name: "RSA-OAEP" }];
    the seed stands for the randomness of the padding scheme. *)
Variable rsa_encrypt : Seed -> PublicKey -> list byte -> Result (list byte).
Variable rsa_decrypt : PrivateKey -> list byte -> Result (list byte).

Variable btoa : string -> Result string.
Variable atob : string -> Result string.

(** The message of the [TypeError] that reading the named property of
    [null] throws. *)
Variable null_message : string -> string.

Record KeyPair : Type := {
  publicKey : PublicKey;
  privateKey : PrivateKey
}.

(** The React state of the component. *)
Record State : Type := {
  keyPair : option KeyPair;
  message : Text;
  encryptedMessage : option string;
  decryptedMessage : Text;
  loading : bool;
  error : option string;
  isSending : bool;
  isReceived : bool
}.

(** The [try] block of [encryptMessage]; [randomPadding] is what
    [getRandomValues(new Uint8Array(16))] answered. *)
Definition encrypt_attempt (randomPadding : list byte) (seed : Seed)
    (st : State) : Result string :=
  let messageData := encode (message st) in
  let dataToEncrypt := randomPadding ++ messageData in
  match keyPair st with
  | None => Throw (null_message "publicKey")
  | Some kp =>
      match rsa_encrypt seed (publicKey kp) dataToEncrypt with
      | Throw m => Throw m
      | Ok encrypted => btoa (fromCharCode encrypted)
      end
  end.

(** [encryptMessage], once its promise has settled. *)
Definition encryptMessage (randomPadding : list byte) (seed : Seed)
    (st : State) : State :=
  match encrypt_attempt randomPadding seed st with
  | Ok base64 =>
      {| keyPair := keyPair st; message := message st;
         encryptedMessage := Some base64;
         decryptedMessage := decryptedMessage st;
         loading := false; error := None;
         isSending := isSending st; isReceived := isReceived st |}
  | Throw m =>
      {| keyPair := keyPair st; message := message st;
         encryptedMessage := encryptedMessage st;
         decryptedMessage := decryptedMessage st;
         loading := false; error := Some ("Encryption failed: " ++ m)%string;
         isSending := isSending st; isReceived := isReceived st |}
  end.

(** The [try] block of [decryptMessage]; [atob(null)] reads the text
    ["null"]. *)
Definition decrypt_attempt (st : State) : Result Text :=
  match atob (match encryptedMessage st with
              | Some base64 => base64
              | None => "null"%string
              end) with
  | Throw m => Throw m
  | Ok binaryStr =>
      let bytes := charCodes binaryStr in
      match keyPair st with
      | None => Throw (null_message "privateKey")
      | Some kp =>
          match rsa_decrypt (privateKey kp) bytes with
          | Throw m => Throw m
          | Ok decrypted => Ok (decode (skipn 16 decrypted))
          end
      end
  end.

(** [decryptMessage], once its promise has settled. *)
Definition decryptMessage (st : State) : State :=
  match decrypt_attempt st with
  | Ok decryptedText =>
      {| keyPair := keyPair st; message := message st;
         encryptedMessage := encryptedMessage st;
         decryptedMessage := decryptedText;
         loading := false; error := None;
         isSending := isSending st; isReceived := isReceived st |}
  | Throw m =>
      {| keyPair := keyPair st; message := message st;
         encryptedMessage := encryptedMessage st;
         decryptedMessage := decryptedMessage st;
         loading := false; error := Some ("Decryption failed: " ++ m)%string;
         isSending := isSending st; isReceived := isReceived st |}
  end.

End Platform.

End PaddedDemo.

(* ================================================================== *)
(** ** A stand-in platform for examples *)

Module ToyPlatform.

Import PaddedDemo.

(** Text is ASCII, the ciphers and base64 are the identity. *)
Definition encode (t : string) : list byte := list_byte_of_string t.

Definition decode (bs : list byte) : string := string_of_list_byte bs.

Definition rsa_encrypt (seed : unit) (key : unit) (data : list byte)
    : Result (list byte) := Ok data.

Definition rsa_decrypt (key : unit) (data : list byte) : Result (list byte) :=
  Ok data.

Definition btoa (s : string) : Result string := Ok s.

Definition atob (s : string) : Result string := Ok s.

Definition padding16 : list byte :=
  [x00; x01; x02; x03; x04; x05; x06; x07;
   x08; x09; x0a; x0b; x0c; x0d; x0e; x0f].

Definition keys : KeyPair unit unit := {| publicKey := tt; privateKey := tt |}.

(** The state after [generateKeyPair], with the default message. *)
Definition ready : State string unit unit :=
  {| keyPair := Some keys; message := "Whats up!"%string;
     encryptedMessage := None; decryptedMessage := ""%string;
     loading := false; error := None;
     isSending := false; isReceived := false |}.

End ToyPlatform.

(* ================================================================== *)
(** ** The demo with signatures

    The second [WebCryptoDemo]: the message is signed with ECDSA, message
    and signature are encrypted with a fresh AES-GCM key, the key is
    encrypted with RSA-OAEP, and the three parts travel as base64 of
    JSON.  The platform is a parameter, as in [PaddedDemo]. *)

Module SignedDemo.

Import PaddedDemo.

(** The [verificationStatus]: ["verified"] or ["invalid"]. *)
Inductive Verdict : Type := Verified | Invalid.

Section Platform.

Variables Text EncryptKey DecryptKey SignKey VerifyKey AesKey Seed : Type.

Variable encode : Text -> list byte.
Variable decode : list byte -> Text.

(** [sign] and [verify] with ECDSA over SHA-384. *)
Variable ecdsa_sign : Seed -> SignKey -> list byte -> Result (list byte).
Variable ecdsa_verify : VerifyKey -> list byte -> list byte -> Result bool.

(** [generateKey], [encrypt], [decrypt], [exportKey("raw", _)] and
    [importKey("raw", _)] for AES-GCM; the second argument of the ciphers
    is the iv. *)
Variable aes_generate : Seed -> Result AesKey.
Variable aes_encrypt : AesKey -> list byte -> list byte -> Result (list byte).
Variable aes_decrypt : AesKey -> list byte -> list byte -> Result (list byte).
Variable aes_export : AesKey -> Result (list byte).
Variable aes_import : list byte -> Result AesKey.

Variable rsa_encrypt : Seed -> EncryptKey -> list byte -> Result (list byte).
Variable rsa_decrypt : DecryptKey -> list byte -> Result (list byte).

(** [JSON.stringify({ message, signature })], and [JSON.parse] of such a
    text with the reading of its two fields. *)
Variable stringify_data : Text -> list byte -> Text.
Variable parse_data : Text -> Result (Text * list byte).

(** [JSON.stringify({ encryptedKey, iv, encryptedData })], and
    [JSON.parse] of such a text with the reading of its three fields. *)
Variable stringify_final : list byte -> list byte -> list byte -> string.
Variable parse_final : string -> Result (list byte * list byte * list byte).

Variable btoa : string -> Result string.
Variable atob : string -> Result string.

(** The message with the mark of the tamper mode appended. *)
Variable tampered : Text -> Text.

Variable null_message : string -> string.

Record EncryptKeyPair : Type := {
  encryptPublic : EncryptKey;
  encryptPrivate : DecryptKey
}.

Record SignKeyPair : Type := {
  signPrivate : SignKey;
  signPublic : VerifyKey
}.

(** The React state of the component. *)
Record State : Type := {
  encryptKeyPair : option EncryptKeyPair;
  signKeyPair : option SignKeyPair;
  message : Text;
  encryptedData : option string;
  decryptedMessage : Text;
  loading : bool;
  error : option string;
  isSending : bool;
  isReceived : bool;
  verificationStatus : option Verdict;
  showEducation : bool;
  tamperMode : bool;
  signatureVisible : bool
}.

(** [await] of a call that may throw. *)
Definition await {A B : Type} (r : Result A) (k : A -> Result B) : Result B :=
  match r with
  | Ok a => k a
  | Throw m => Throw m
  end.

(** Reading the named property of a key pair that may be [null]. *)
Definition read {P A : Type} (pair : option P) (property : string)
    (field : P -> A) : Result A :=
  match pair with
  | Some p => Ok (field p)
  | None => Throw (null_message property)
  end.

(** The [try] block of [signAndEncryptMessage] after
    [setSignatureVisible(true)]; [iv] is what
    [getRandomValues(new Uint8Array(12))] answered. *)
Definition sign_and_encrypt_attempt (signSeed keySeed rsaSeed : Seed)
    (iv : list byte) (st : State) : Result string :=
  let messageBytes := encode (message st) in
  await (read (signKeyPair st) "privateKey" signPrivate) (fun signKey =>
  await (ecdsa_sign signSeed signKey messageBytes) (fun signature =>
  await (aes_generate keySeed) (fun aesKey =>
  await (aes_encrypt aesKey iv
           (encode (stringify_data (message st) signature)))
    (fun encryptedPackage =>
  await (aes_export aesKey) (fun rawAesKey =>
  await (read (encryptKeyPair st) "publicKey" encryptPublic) (fun publicKey =>
  await (rsa_encrypt rsaSeed publicKey rawAesKey) (fun encryptedAesKey =>
  btoa (stringify_final encryptedAesKey iv encryptedPackage)))))))).

(** [signAndEncryptMessage], once its promise has settled. *)
Definition signAndEncryptMessage (signSeed keySeed rsaSeed : Seed)
    (iv : list byte) (st : State) : State :=
  match sign_and_encrypt_attempt signSeed keySeed rsaSeed iv st with
  | Ok base64 =>
      {| encryptKeyPair := encryptKeyPair st; signKeyPair := signKeyPair st;
         message := message st; encryptedData := Some base64;
         decryptedMessage := decryptedMessage st;
         loading := false; error := None;
         isSending := isSending st; isReceived := isReceived st;
         verificationStatus := verificationStatus st;
         showEducation := showEducation st; tamperMode := tamperMode st;
         signatureVisible := true |}
  | Throw m =>
      {| encryptKeyPair := encryptKeyPair st; signKeyPair := signKeyPair st;
         message := message st; encryptedData := encryptedData st;
         decryptedMessage := decryptedMessage st;
         loading := false; error := Some ("Encryption failed: " ++ m)%string;
         isSending := isSending st; isReceived := isReceived st;
         verificationStatus := verificationStatus st;
         showEducation := showEducation st; tamperMode := tamperMode st;
         signatureVisible := true |}
  end.

(** The [try] block of [decryptAndVerifyMessage]. *)
Definition decrypt_and_verify_attempt (st : State) : Result (Text * bool) :=
  await (atob (match encryptedData st with
               | Some base64 => base64
               | None => "null"%string
               end)) (fun json =>
  await (parse_final json) (fun encryptedPackage =>
  let '(encryptedKey, iv, encryptedBytes) := encryptedPackage in
  await (read (encryptKeyPair st) "privateKey" encryptPrivate) (fun privateKey =>
  await (rsa_decrypt privateKey encryptedKey) (fun decryptedAesKey =>
  await (aes_import decryptedAesKey) (fun aesKey =>
  await (aes_decrypt aesKey iv encryptedBytes) (fun decrypted =>
  await (parse_data (decode decrypted)) (fun dataPackage =>
  let received :=
    if tamperMode st then tampered (fst dataPackage) else fst dataPackage in
  let messageBytes := encode received in
  await (read (signKeyPair st) "publicKey" signPublic) (fun verifyKey =>
  await (ecdsa_verify verifyKey (snd dataPackage) messageBytes) (fun isValid =>
  Ok (received, isValid)))))))))).

(** [decryptAndVerifyMessage], once its promise has settled. *)
Definition decryptAndVerifyMessage (st : State) : State :=
  match decrypt_and_verify_attempt st with
  | Ok (received, isValid) =>
      {| encryptKeyPair := encryptKeyPair st; signKeyPair := signKeyPair st;
         message := message st; encryptedData := encryptedData st;
         decryptedMessage := received;
         loading := false; error := None;
         isSending := isSending st; isReceived := isReceived st;
         verificationStatus := Some (if isValid then Verified else Invalid);
         showEducation := showEducation st; tamperMode := tamperMode st;
         signatureVisible := signatureVisible st |}
  | Throw m =>
      {| encryptKeyPair := encryptKeyPair st; signKeyPair := signKeyPair st;
         message := message st; encryptedData := encryptedData st;
         decryptedMessage := decryptedMessage st;
         loading := false;
         error := Some ("Decryption/verification failed: " ++ m)%string;
         isSending := isSending st; isReceived := isReceived st;
         verificationStatus := verificationStatus st;
         showEducation := showEducation st; tamperMode := tamperMode st;
         signatureVisible := signatureVisible st |}
  end.

End Platform.

End SignedDemo.

(* ================================================================== *)
(** ** A stand-in platform for the demo with signatures *)

Module ToySigned.

Import PaddedDemo SignedDemo.

(** Two byte sequences in one: the length of the first in unary, a zero,
    and the two sequences. *)
Definition pack (a b : list byte) : list byte :=
  repeat x01 (List.length a) ++ x00 :: a ++ b.

Fixpoint leading (l : list byte) : nat :=
  match l with
  | x01 :: rest => S (leading rest)
  | _ => 0
  end.

Definition unpack (l : list byte) : list byte * list byte :=
  let n := leading l in
  let rest := skipn (S n) l in
  (firstn n rest, skipn n rest).

Fixpoint same_bytes (a b : list byte) : bool :=
  match a, b with
  | [], [] => true
  | x :: a', y :: b' => Byte.eqb x y && same_bytes a' b'
  | _, _ => false
  end.

(** Text is a sequence of bytes; the ciphers and base64 are the identity;
    a signature is the signed data itself. *)
Definition encode (t : list byte) : list byte := t.

Definition decode (bs : list byte) : list byte := bs.

Definition ecdsa_sign (seed key : unit) (data : list byte)
    : Result (list byte) := Ok data.

Definition ecdsa_verify (key : unit) (signature data : list byte)
    : Result bool := Ok (same_bytes signature data).

Definition aes_generate (seed : unit) : Result unit := Ok tt.

Definition aes_encrypt (key : unit) (iv data : list byte)
    : Result (list byte) := Ok data.

Definition aes_decrypt (key : unit) (iv data : list byte)
    : Result (list byte) := Ok data.

Definition aes_export (key : unit) : Result (list byte) := Ok [].

Definition aes_import (raw : list byte) : Result unit := Ok tt.

Definition rsa_encrypt (seed key : unit) (data : list byte)
    : Result (list byte) := Ok data.

Definition rsa_decrypt (key : unit) (data : list byte)
    : Result (list byte) := Ok data.

Definition stringify_data (m signature : list byte) : list byte :=
  pack signature m.

Definition parse_data (t : list byte) : Result (list byte * list byte) :=
  let (signature, m) := unpack t in Ok (m, signature).

Definition stringify_final (k iv d : list byte) : string :=
  string_of_list_byte (pack k (pack iv d)).

Definition parse_final (s : string)
    : Result (list byte * list byte * list byte) :=
  let (k, rest) := unpack (list_byte_of_string s) in
  let (iv, d) := unpack rest in
  Ok (k, iv, d).

Definition btoa (s : string) : Result string := Ok s.

Definition atob (s : string) : Result string := Ok s.

Definition tampered (m : list byte) : list byte := m ++ [x21].

Definition iv12 : list byte :=
  [x00; x01; x02; x03; x04; x05; x06; x07; x08; x09; x0a; x0b].

Definition encryptKeys : EncryptKeyPair unit unit :=
  {| encryptPublic := tt; encryptPrivate := tt |}.

Definition signKeys : SignKeyPair unit unit :=
  {| signPrivate := tt; signPublic := tt |}.

(** The state after [generateKeys], with the message "Hi". *)
Definition ready : State (list byte) unit unit unit unit :=
  {| encryptKeyPair := Some encryptKeys; signKeyPair := Some signKeys;
     message := [x48; x69]; encryptedData := None; decryptedMessage := [];
     loading := false; error := None; isSending := false;
     isReceived := false; verificationStatus := None;
     showEducation := false; tamperMode := false;
     signatureVisible := false |}.

End ToySigned.

(* ================================================================== *)
(** ** Facts about hexadecimal text *)

Module HexFacts.

Import JsString Hex.

Lemma string_length_append (s1 s2 : string) :
  String.length (s1 ++ s2)%string = (String.length s1 + String.length s2)%nat.
Proof.
  induction s1 as [|c s1 IH]; simpl; [reflexivity | now rewrite IH].
Qed.

Ltac split_ranges :=
  repeat match goal with
         | |- context [(?a <=? ?b)%N] => destruct (N.leb_spec a b)
         | H : context [(?a <=? ?b)%N] |- _ => destruct (N.leb_spec a b)
         end; simpl in *.

Lemma digit_value_lower (c : ascii) :
  is_lower_hex c = true ->
  exists d, digit_value c = Some d /\ (d < 16)%N.
Proof.
  unfold is_lower_hex, digit_value.
  generalize (N_of_ascii c); intros n H.
  split_ranges; try discriminate; eexists; (split; [reflexivity | lia]).
Qed.

Lemma digit_value_inj (c1 c2 : ascii) (d : N) :
  is_lower_hex c1 = true -> is_lower_hex c2 = true ->
  digit_value c1 = Some d -> digit_value c2 = Some d -> c1 = c2.
Proof.
  intros L1 L2 V1 V2.
  rewrite <- (ascii_N_embedding c1), <- (ascii_N_embedding c2).
  f_equal. revert L1 L2 V1 V2.
  unfold is_lower_hex, digit_value.
  generalize (N_of_ascii c1) (N_of_ascii c2); intros n1 n2 L1 L2 V1 V2.
  split_ranges; try discriminate;
    injection V1 as V1; injection V2 as V2; lia.
Qed.

Lemma digits_from_lower (s : string) :
  forallb_string is_lower_hex s = true ->
  forall acc,
    digits_from acc s
    = Some (acc * 16 ^ N.of_nat (String.length s) + Spec.unsigned s)%N.
Proof.
  induction s as [|c s IH]; intros L acc.
  - simpl. f_equal. lia.
  - simpl in L. apply andb_true_iff in L as [Lc Ls].
    destruct (digit_value_lower c Lc) as (d & Vd & _).
    cbn [digits_from Spec.unsigned String.length]. rewrite Vd, (IH Ls).
    f_equal. rewrite Nat2N.inj_succ, N.pow_succ_r'. lia.
Qed.

Lemma unsigned_bound (s : string) :
  forallb_string is_lower_hex s = true ->
  (Spec.unsigned s < 16 ^ N.of_nat (String.length s))%N.
Proof.
  induction s as [|c s IH]; intros L.
  - simpl. lia.
  - simpl in L. apply andb_true_iff in L as [Lc Ls].
    destruct (digit_value_lower c Lc) as (d & Vd & Hd).
    specialize (IH Ls).
    cbn [Spec.unsigned String.length]. rewrite Vd.
    rewrite Nat2N.inj_succ, N.pow_succ_r'. nia.
Qed.

Lemma unsigned_inj (s1 : string) :
  forall s2,
    String.length s1 = String.length s2 ->
    forallb_string is_lower_hex s1 = true ->
    forallb_string is_lower_hex s2 = true ->
    Spec.unsigned s1 = Spec.unsigned s2 -> s1 = s2.
Proof.
  induction s1 as [|c1 s1 IH]; intros [|c2 s2] Len L1 L2 E;
    try discriminate; [reflexivity |].
  simpl in Len, L1, L2. injection Len as Len.
  apply andb_true_iff in L1 as [Lc1 Ls1].
  apply andb_true_iff in L2 as [Lc2 Ls2].
  destruct (digit_value_lower c1 Lc1) as (d1 & V1 & H1).
  destruct (digit_value_lower c2 Lc2) as (d2 & V2 & H2).
  pose proof (unsigned_bound s1 Ls1) as B1.
  pose proof (unsigned_bound s2 Ls2) as B2.
  cbn [Spec.unsigned] in E. rewrite V1, V2, <- Len in E.
  assert (d1 = d2 /\ Spec.unsigned s1 = Spec.unsigned s2) as [-> E'].
  { rewrite <- Len in B2.
    set (m := (16 ^ N.of_nat (String.length s1))%N) in *.
    assert (Hdiv : ((d1 * m + Spec.unsigned s1) / m = d1)%N)
      by (rewrite N.div_add_l by lia; rewrite N.div_small by lia; lia).
    assert (Hdiv2 : ((d2 * m + Spec.unsigned s2) / m = d2)%N)
      by (rewrite N.div_add_l by lia; rewrite N.div_small by lia; lia).
    rewrite E in Hdiv. rewrite Hdiv2 in Hdiv. subst d2. split; [reflexivity | lia]. }
  f_equal; [exact (digit_value_inj c1 c2 d2 Lc1 Lc2 V1 V2) | now apply IH].
Qed.

(** On an id of [generatePeerId], [BigInt] does not throw and answers the
    integer the id denotes. *)
Lemma parseBigInt_peer_id (s : string) :
  Identity.is_peer_id s = true -> parseBigInt s = Some (Spec.unsigned s).
Proof.
  unfold Identity.is_peer_id. intros H.
  apply andb_true_iff in H as [Len L].
  destruct s as [|c s]; [discriminate |].
  simpl in L. pose proof L as L'. apply andb_true_iff in L' as [Lc Ls].
  destruct (digit_value_lower c Lc) as (d & Vd & _).
  cbn [parseBigInt Spec.unsigned]. rewrite Vd.
  apply digits_from_lower; assumption.
Qed.

End HexFacts.

(* ================================================================== *)
(** ** The distance metric *)

Module DistanceFacts.

Import Distance.

(** Symmetry holds on all strings, exceptions included. *)
Lemma calculateDistance_comm (a b : string) :
  calculateDistance a b = calculateDistance b a.
Proof.
  unfold calculateDistance.
  destruct (Hex.parseBigInt a), (Hex.parseBigInt b); try reflexivity.
  now rewrite N.lxor_comm.
Qed.

Lemma calculateDistance_peer_ids (a b : string) :
  Identity.is_peer_id a = true -> Identity.is_peer_id b = true ->
  calculateDistance a b = Some (N.lxor (Spec.unsigned a) (Spec.unsigned b)).
Proof.
  intros Ha Hb. unfold calculateDistance.
  now rewrite (HexFacts.parseBigInt_peer_id a Ha), (HexFacts.parseBigInt_peer_id b Hb).
Qed.

(** C7: on peer ids the distance is the bitwise XOR of the two unsigned
    integers the ids denote; it is symmetric, and the distance of an id to
    itself is 0. *)
Theorem calculateDistance_xor_symmetric (a b : string) :
  Identity.is_peer_id a = true -> Identity.is_peer_id b = true ->
  calculateDistance a b = Some (N.lxor (Spec.unsigned a) (Spec.unsigned b))
  /\ calculateDistance a b = calculateDistance b a
  /\ calculateDistance a a = Some 0%N.
Proof.
  intros Ha Hb. split; [| split].
  - now apply calculateDistance_peer_ids.
  - apply calculateDistance_comm.
  - rewrite (calculateDistance_peer_ids a a Ha Ha). now rewrite N.lxor_nilpotent.
Qed.

Lemma calculateDistance_xor_symmetric_witness :
  calculateDistance Examples.idA Examples.idB = Some 0xaeaceee8aeac%N
  /\ calculateDistance Examples.idA Examples.idB
     = calculateDistance Examples.idB Examples.idA
  /\ calculateDistance Examples.idA Examples.idA = Some 0%N.
Proof.
  exact (calculateDistance_xor_symmetric Examples.idA Examples.idB
           eq_refl eq_refl).
Defined.

(** C9: two peer ids are at distance 0 exactly when they are the same
    id. *)
Theorem calculateDistance_zero_iff_eq (a b : string) :
  Identity.is_peer_id a = true -> Identity.is_peer_id b = true ->
  (calculateDistance a b = Some 0%N <-> a = b).
Proof.
  intros Ha Hb. rewrite (calculateDistance_peer_ids a b Ha Hb). split.
  - intros E. injection E as E. apply N.lxor_eq in E.
    unfold Identity.is_peer_id in Ha, Hb.
    apply andb_true_iff in Ha as [La Ha], Hb as [Lb Hb].
    apply Nat.eqb_eq in La, Lb.
    apply HexFacts.unsigned_inj; congruence.
  - intros ->. now rewrite N.lxor_nilpotent.
Qed.

Lemma calculateDistance_zero_iff_eq_witness :
  calculateDistance Examples.idC Examples.idC = Some 0%N
  <-> Examples.idC = Examples.idC.
Proof.
  exact (calculateDistance_zero_iff_eq Examples.idC Examples.idC
           eq_refl eq_refl).
Defined.

End DistanceFacts.

(* ================================================================== *)
(** ** Identity derivation *)

Module IdentityFacts.

Import JsString Identity.

(** Every byte renders as its two nibbles, high one first. *)
Lemma byte_hex_nibbles (b : byte) : byte_hex b = nibbles b.
Proof. destruct b; reflexivity. Qed.

Lemma nibbles_lower (b : byte) :
  forallb_string Hex.is_lower_hex (nibbles b) = true.
Proof. destruct b; reflexivity. Qed.

Lemma join_hex (bs : list byte) :
  join (map byte_hex bs) = lowercase_hex bs.
Proof.
  unfold lowercase_hex. f_equal. apply map_ext, byte_hex_nibbles.
Qed.

Lemma substring_0_0 (s : string) : substring 0 0 s = EmptyString.
Proof. destruct s; reflexivity. Qed.

Lemma slice12_of_hex (bs : list byte) :
  (6 <= List.length bs)%nat ->
  slice 0 12 (lowercase_hex bs) = lowercase_hex (firstn 6 bs).
Proof.
  intros H.
  do 6 (destruct bs as [|? bs]; [simpl in H; lia |]).
  unfold slice, lowercase_hex, nibbles.
  cbn [map join fold_right String.append firstn Nat.sub substring].
  now rewrite substring_0_0.
Qed.

Lemma lowercase_hex_lower (bs : list byte) :
  forallb_string Hex.is_lower_hex (lowercase_hex bs) = true.
Proof.
  induction bs as [|b bs IH]; [reflexivity |].
  unfold lowercase_hex in *. cbn [map join fold_right].
  pose proof (nibbles_lower b) as Hb. unfold nibbles in *.
  cbn [String.append forallb_string] in *.
  apply andb_true_iff in Hb as [H1 Hb]. apply andb_true_iff in Hb as [H2 _].
  now rewrite H1, H2.
Qed.

Lemma lowercase_hex_length (bs : list byte) :
  String.length (lowercase_hex bs) = (2 * List.length bs)%nat.
Proof.
  induction bs as [|b bs IH]; [reflexivity |].
  change (lowercase_hex (b :: bs))
    with (nibbles b ++ lowercase_hex bs)%string.
  rewrite HexFacts.string_length_append, IH. simpl. lia.
Qed.

(** C8: for a 256-bit digest, [generatePeerId] answers the first 12
    characters of the lowercase hex rendering of the digest of its input:
    the same id for the same input, 12 characters long, all of them
    lowercase hex digits. *)
Theorem generatePeerId_fixed_length_hex
    (sha256 : list byte -> list byte) (publicKeyBuffer : list byte) :
  (forall buf, List.length (sha256 buf) = 32%nat) ->
  generatePeerId sha256 publicKeyBuffer
  = slice 0 12 (lowercase_hex (sha256 publicKeyBuffer))
  /\ (forall again, again = publicKeyBuffer ->
        generatePeerId sha256 again = generatePeerId sha256 publicKeyBuffer)
  /\ String.length (generatePeerId sha256 publicKeyBuffer) = 12%nat
  /\ forallb_string Hex.is_lower_hex (generatePeerId sha256 publicKeyBuffer)
     = true
  /\ is_peer_id (generatePeerId sha256 publicKeyBuffer) = true.
Proof.
  intros Hlen.
  assert (E : generatePeerId sha256 publicKeyBuffer
              = lowercase_hex (firstn 6 (sha256 publicKeyBuffer))).
  { unfold generatePeerId. rewrite join_hex.
    apply slice12_of_hex. rewrite Hlen. lia. }
  assert (L : String.length (generatePeerId sha256 publicKeyBuffer) = 12%nat).
  { rewrite E, lowercase_hex_length, length_firstn, Hlen. reflexivity. }
  assert (X : forallb_string Hex.is_lower_hex
                (generatePeerId sha256 publicKeyBuffer) = true).
  { rewrite E. apply lowercase_hex_lower. }
  repeat split.
  - unfold generatePeerId. now rewrite join_hex.
  - now intros again ->.
  - exact L.
  - exact X.
  - unfold is_peer_id. now rewrite L, X.
Qed.

Lemma generatePeerId_fixed_length_hex_witness :
  generatePeerId Examples.toy_digest [x01; xab; xff] = "01abff000000"
  /\ String.length (generatePeerId Examples.toy_digest [x01; xab; xff]) = 12%nat
  /\ is_peer_id (generatePeerId Examples.toy_digest [x01; xab; xff]) = true.
Proof.
  assert (H : forall buf, List.length (Examples.toy_digest buf) = 32%nat).
  { intros buf. unfold Examples.toy_digest.
    rewrite length_firstn, length_app, repeat_length. lia. }
  destruct (generatePeerId_fixed_length_hex Examples.toy_digest
              [x01; xab; xff] H) as (E & _ & L & _ & P).
  split; [exact E | split; [exact L | exact P]].
Defined.

End IdentityFacts.

(* ================================================================== *)
(** ** Facts about [Map] *)

Module JsMapFacts.

Import JsMap.

Section Facts.

Context {V : Type}.

Implicit Types (m : JsMap.t V) (k : string) (v : V).

Lemma keys_delete k m :
  keys (delete k m) = filter (fun k' => negb (k' =? k)%string) (keys m).
Proof.
  unfold keys, delete. induction m as [|[k' v'] m IH]; simpl; [reflexivity |].
  destruct (k' =? k)%string; simpl; now rewrite IH.
Qed.

Lemma in_keys_set k v m k' :
  In k' (keys (set k v m)) <-> k' = k \/ In k' (keys m).
Proof.
  unfold keys. induction m as [|[k0 v0] m IH]; simpl.
  - intuition.
  - destruct (String.eqb_spec k0 k) as [-> | Hne]; simpl.
    + intuition.
    + rewrite IH. intuition.
Qed.

Lemma wf_set k v m : wf m -> wf (set k v m).
Proof.
  unfold wf. induction m as [|[k0 v0] m IH]; simpl; intros H.
  - constructor; [intros [] | constructor].
  - inversion H as [|? ? Hnotin Hnd]; subst.
    destruct (String.eqb_spec k0 k) as [-> | Hne]; simpl.
    + now constructor.
    + constructor; [| now apply IH].
      change (map fst (set k v m)) with (keys (set k v m)).
      rewrite in_keys_set. intros [-> | Hin]; [now apply Hne | now apply Hnotin].
Qed.

Lemma wf_filter (f : string * V -> bool) m : wf m -> wf (filter f m).
Proof.
  unfold wf, keys. induction m as [|e m IH]; simpl; intros H; [constructor |].
  inversion H as [|? ? Hnotin Hnd]; subst.
  destruct (f e); simpl; [| now apply IH].
  constructor; [| now apply IH].
  intros Hin. apply Hnotin. apply in_map_iff in Hin as (e' & <- & Hin).
  apply filter_In in Hin as [Hin _]. now apply in_map.
Qed.

(** An entry of [set k v m] is the new one, or an old one under another
    key. *)
Lemma in_set k v m k' v' :
  wf m -> In (k', v') (set k v m) ->
  (k' = k /\ v' = v) \/ (k' <> k /\ In (k', v') m).
Proof.
  unfold wf, keys. induction m as [|[k0 v0] m IH]; simpl; intros H Hin.
  - destruct Hin as [E | []]. injection E as <- <-. now left.
  - inversion H as [|? ? Hnotin Hnd]; subst.
    destruct (String.eqb_spec k0 k) as [-> | Hne]; simpl in Hin.
    + destruct Hin as [E | Hin]; [injection E as <- <-; now left |].
      right. split; [| now right].
      intros ->. apply Hnotin. now apply (in_map fst _ (k, v')).
    + destruct Hin as [E | Hin].
      * injection E as <- <-. right. split; [exact Hne | now left].
      * destruct (IH Hnd Hin) as [L | [Hk Hm]]; [now left |].
        right. split; [exact Hk | now right].
Qed.

Lemma get_absent k m : ~ In k (keys m) -> get k m = None.
Proof.
  intros Hnot. unfold get.
  destruct (find (fun e => (fst e =? k)%string) m) as [e|] eqn:E;
    [| reflexivity].
  apply find_some in E as [Hin Heq]. apply String.eqb_eq in Heq.
  exfalso. apply Hnot. rewrite <- Heq. unfold keys. now apply in_map.
Qed.

Lemma size_le_of_keys m (l : list string) :
  wf m -> incl (keys m) l -> (size m <= List.length l)%nat.
Proof.
  intros Hwf Hincl. unfold size. rewrite <- (length_map fst m).
  now apply NoDup_incl_length.
Qed.

Lemma size_ge_of_keys m (l : list string) :
  NoDup l -> incl l (keys m) -> (List.length l <= size m)%nat.
Proof.
  intros Hnd Hincl. unfold size. rewrite <- (length_map fst m).
  now apply NoDup_incl_length.
Qed.

End Facts.

End JsMapFacts.

(* ================================================================== *)
(** ** Facts about a discovery round *)

Module DiscoveryFacts.

Import Net Discovery.

(** *** Sorting

    Of [sort] the results below use two facts: it permutes its input, and
    it throws only if its comparator does. *)

Section SortFacts.

Context {A : Type}.

Variable comparefn : A -> A -> option Z.

Lemma insert_perm (x : A) (sorted out : list A) :
  insert comparefn x sorted = Some out -> Permutation (x :: sorted) out.
Proof.
  revert out. induction sorted as [|y rest IH]; simpl; intros out H.
  - injection H as <-. reflexivity.
  - destruct (comparefn x y) as [c|]; [| discriminate].
    destruct (c <? 0)%Z.
    + injection H as <-. reflexivity.
    + destruct (insert comparefn x rest) as [rest'|]; [| discriminate].
      injection H as <-. rewrite perm_swap. constructor. now apply IH.
Qed.

Lemma insert_total (x : A) (sorted : list A) :
  (forall y, In y sorted -> comparefn x y <> None) ->
  exists out, insert comparefn x sorted = Some out.
Proof.
  induction sorted as [|y rest IH]; simpl; intros H.
  - eexists; reflexivity.
  - destruct (comparefn x y) as [c|] eqn:E.
    + destruct (c <? 0)%Z; [eexists; reflexivity |].
      destruct IH as [out ->]; [intros; apply H; now right |].
      eexists; reflexivity.
    + exfalso. apply (H y); [now left | exact E].
Qed.

Lemma sort_step_none (l : list A) : fold_left (sort_step comparefn) l None = None.
Proof. induction l; simpl; auto. Qed.

Lemma sort_from_perm (l : list A) :
  forall acc out,
    fold_left (sort_step comparefn) l (Some acc) = Some out -> Permutation (l ++ acc) out.
Proof.
  induction l as [|x l IH]; simpl; intros acc out H.
  - injection H as <-. reflexivity.
  - destruct (insert comparefn x acc) as [acc'|] eqn:E.
    + apply IH in H. apply insert_perm in E.
      rewrite <- H. rewrite <- E. apply Permutation_middle.
    + rewrite sort_step_none in H. discriminate.
Qed.

Lemma sort_perm (l out : list A) :
  sort comparefn l = Some out -> Permutation l out.
Proof.
  intros H. apply sort_from_perm in H. now rewrite app_nil_r in H.
Qed.

Lemma sort_from_total (l : list A) :
  forall acc,
    (forall x y, In x (l ++ acc) -> In y (l ++ acc) -> comparefn x y <> None) ->
    exists out, fold_left (sort_step comparefn) l (Some acc) = Some out.
Proof.
  induction l as [|x l IH]; simpl; intros acc H.
  - eexists; reflexivity.
  - destruct (insert_total x acc) as [acc' E].
    { intros y Hy. apply H; [now left | right; apply in_or_app; now right]. }
    rewrite E. apply IH. apply insert_perm in E.
    assert (P : Permutation (x :: l ++ acc) (l ++ acc')).
    { rewrite <- E. apply Permutation_middle. }
    intros a b Ha Hb. apply H.
    + apply (Permutation_in _ (Permutation_sym P)), Ha.
    + apply (Permutation_in _ (Permutation_sym P)), Hb.
Qed.

Lemma sort_total (l : list A) :
  (forall x y, In x l -> In y l -> comparefn x y <> None) ->
  exists out, sort comparefn l = Some out.
Proof.
  intros H. apply sort_from_total. now rewrite app_nil_r.
Qed.

End SortFacts.

(** *** Closest peers *)

Lemma by_distance_total (targetId : string) (a b : Peer) :
  Identity.is_peer_id targetId = true ->
  Identity.is_peer_id (id a) = true -> Identity.is_peer_id (id b) = true ->
  by_distance targetId a b <> None.
Proof.
  intros Ht Ha Hb. unfold by_distance.
  rewrite (DistanceFacts.calculateDistance_peer_ids _ _ Ha Ht).
  rewrite (DistanceFacts.calculateDistance_peer_ids _ _ Hb Ht).
  discriminate.
Qed.

Lemma findClosestPeers_total (targetId : string) (ps : list Peer) (n : nat) :
  Identity.is_peer_id targetId = true -> valid_peers ps ->
  exists sorted,
    findClosestPeers targetId ps n = Some (firstn n sorted)
    /\ Permutation (filter (is_candidate targetId) ps) sorted.
Proof.
  intros Ht Hps. unfold findClosestPeers.
  destruct (sort_total (by_distance targetId)
              (filter (is_candidate targetId) ps)) as [sorted E].
  { intros x y Hx Hy. apply filter_In in Hx as [Hx _], Hy as [Hy _].
    unfold valid_peers in Hps. rewrite Forall_forall in Hps.
    apply by_distance_total; auto. }
  exists sorted. rewrite E. split; [reflexivity | exact (sort_perm _ _ _ E)].
Qed.

Lemma includes_In (l : list string) (i : string) :
  includes l i = true <-> In i l.
Proof.
  unfold includes. rewrite existsb_exists. split.
  - intros (x & Hx & E). apply String.eqb_eq in E. now subst.
  - intros H. exists i. split; [exact H | apply String.eqb_refl].
Qed.

(** *** The two loops over the table *)

Lemma forEach_remove_stale (peerId : string) (newPeerIds ids : list string) :
  forall (table : RoutingTable) (r : Round),
    forEach (remove_stale peerId newPeerIds) ids table r
    = Some (filter (fun e => includes newPeerIds (fst e)
                             || negb (includes ids (fst e))) table,
            {| logs := logs r ++
                       map (msg_removed peerId)
                         (filter (fun i => negb (includes newPeerIds i)) ids);
               clock_reads := clock_reads r |}).
Proof.
  induction ids as [|i rest IH]; intros table r.
  - simpl. unfold ret. f_equal. f_equal.
    + induction table as [|e table IHt]; simpl; [reflexivity |].
      rewrite orb_true_r. now rewrite <- IHt.
    + rewrite app_nil_r. now destruct r.
  - cbn [forEach]. unfold bind at 1. unfold remove_stale at 1.
    destruct (includes newPeerIds i) eqn:Hi; cbn [negb].
    + unfold ret at 1. rewrite IH. cbn [filter]. rewrite Hi. cbn [negb].
      f_equal. f_equal.
      apply filter_ext_in. intros e _. cbn [includes existsb].
      destruct (String.eqb_spec (fst e) i) as [-> | Hne]; cbn [orb negb].
      * fold (includes newPeerIds i). rewrite Hi. reflexivity.
      * reflexivity.
    + unfold bind at 1, setDiscoveryLogs, ret at 1. rewrite IH.
      cbn [filter logs clock_reads]. rewrite Hi. cbn [negb map].
      f_equal. f_equal.
      * unfold JsMap.delete.
        induction table as [|e table IHt]; [reflexivity |].
        cbn [filter includes existsb].
        destruct (String.eqb_spec (fst e) i) as [-> | Hne]; cbn [negb orb].
        -- fold (includes newPeerIds i). rewrite Hi. cbn [orb]. exact IHt.
        -- cbn [filter]. fold (includes newPeerIds (fst e)).
           fold (includes rest (fst e)).
           destruct (includes newPeerIds (fst e) || negb (includes rest (fst e)));
             now rewrite IHt.
      * now rewrite <- app_assoc.
Qed.

Lemma forEach_upsert (now : nat -> Q) (peerId : string) (closestPeers : list Peer) :
  Identity.is_peer_id peerId = true -> valid_peers closestPeers ->
  forall (table : RoutingTable) (r : Round),
    JsMap.wf table ->
    exists table' r',
      forEach (upsert now peerId) closestPeers table r = Some (table', r')
      /\ logs r' = logs r
      /\ JsMap.wf table'
      /\ (forall k, In k (JsMap.keys table') <->
                    In k (JsMap.keys table) \/ In k (map id closestPeers))
      /\ (forall k v, In (k, v) table' ->
            (In (k, v) table /\ ~ In k (map id closestPeers))
            \/ Distance.calculateDistance peerId k = Some (distance v)).
Proof.
  intros Hp Hvalid.
  induction closestPeers as [|c cs IH]; intros table r Hwf.
  - exists table, r. simpl. unfold ret.
    split; [reflexivity |]. split; [reflexivity |]. split; [exact Hwf |].
    split.
    + intros k. intuition.
    + intros k v H. left. split; [exact H | intros []].
  - inversion Hvalid as [|? ? Hc Hcs]; subst.
    cbn [forEach]. unfold bind at 1. unfold upsert at 1.
    unfold bind at 1, or_throw.
    rewrite (DistanceFacts.calculateDistance_peer_ids _ _ Hp Hc).
    unfold bind at 1, date_now, ret at 1.
    set (entry := {| distance := N.lxor (Spec.unsigned peerId) (Spec.unsigned (id c));
                     entry_lastSeen := now (clock_reads r) |}).
    set (r1 := {| logs := logs r; clock_reads := S (clock_reads r) |}).
    destruct (IH Hcs (JsMap.set (id c) entry table) r1
                (JsMapFacts.wf_set _ _ _ Hwf))
      as (table' & r' & E & Hlogs & Hwf' & Hkeys & Hentries).
    exists table', r'. split; [exact E |]. split; [exact Hlogs |].
    split; [exact Hwf' |]. split.
    + intros k. rewrite Hkeys, JsMapFacts.in_keys_set. simpl. intuition.
    + intros k v Hin. destruct (Hentries k v Hin) as [[Hin' Hnot] | Hd];
        [| now right].
      destruct (JsMapFacts.in_set _ _ _ _ _ Hwf Hin') as [[-> ->] | [Hne Hold]].
      * right. now rewrite (DistanceFacts.calculateDistance_peer_ids _ _ Hp Hc).
      * left. split; [exact Hold |]. simpl. intros [E' | H']; [now subst | now apply Hnot].
Qed.

(** *** One peer *)

Lemma update_peer_result (now : nat -> Q) (peerId : string)
    (closestPeers : list Peer) (p : Peer) (r : Round) :
  Identity.is_peer_id peerId = true -> valid_peers closestPeers ->
  JsMap.wf (routingTable p) ->
  exists p' r',
    update_peer now peerId closestPeers p r = Some (p', r')
    /\ Spec.round_result peerId closestPeers p p'.
Proof.
  intros Hp Hvalid Hwf. unfold update_peer.
  destruct (String.eqb_spec (id p) peerId) as [Heq | Hne].
  - destruct closestPeers as [|c cs].
    + cbn [List.length Nat.eqb]. unfold bind, setDiscoveryLogs, ret.
      eexists; eexists; split; [reflexivity |].
      unfold Spec.round_result; cbn [id lastSeen status routingTable].
      repeat split; try reflexivity; try (intros; contradiction);
        try constructor; try (intros ? []); try (intros ? ? []).

    + cbn [List.length Nat.eqb]. unfold bind at 1. unfold bind at 1.
      rewrite forEach_remove_stale.
      set (kept := filter _ (routingTable p)).
      set (r1 := {| logs := _; clock_reads := _ |}).
      destruct (forEach_upsert now peerId (c :: cs) Hp Hvalid kept r1
                  (JsMapFacts.wf_filter _ _ Hwf))
        as (table' & r' & E & _ & Hwf' & Hkeys & Hentries).
      rewrite E. unfold ret.
      eexists; eexists; split; [reflexivity |].
      assert (Hkept : forall k, In k (JsMap.keys kept) ->
                                In k (map id (c :: cs))).
      { intros k Hk. unfold JsMap.keys in Hk.
        apply in_map_iff in Hk as (e & <- & He).
        apply filter_In in He as [He Hf].
        assert (Hinc : includes (JsMap.keys (routingTable p)) (fst e) = true).
        { apply includes_In. unfold JsMap.keys. now apply in_map. }
        rewrite Hinc in Hf. cbn [negb] in Hf. rewrite orb_false_r in Hf.
        now apply includes_In. }
      unfold Spec.round_result; cbn [id lastSeen status routingTable].
      split; [reflexivity |]. split; [reflexivity |].
      split; [intros; contradiction |]. intros _.
      split; [reflexivity |]. unfold Spec.table_after.
      split; [exact Hwf' |]. split.
      * intros k. rewrite Hkeys. split; [intros [H | H]; auto | now right].
      * intros k v Hin. destruct (Hentries k v Hin) as [[Hin' Hnot] | Hd];
          [| exact Hd].
        exfalso. apply Hnot, Hkept. unfold JsMap.keys.
        now apply (in_map fst _ (k, v)).
  - unfold ret. exists p, r. split; [reflexivity |].
    unfold Spec.round_result. repeat split; try reflexivity; intros; contradiction.
Qed.

Lemma mapM_Forall2 {A B : Type} (f : A -> M B) (R : A -> B -> Prop)
    (items : list A) :
  (forall x r, In x items -> exists y r', f x r = Some (y, r') /\ R x y) ->
  forall r, exists ys r', mapM f items r = Some (ys, r') /\ Forall2 R items ys.
Proof.
  induction items as [|x rest IH]; intros H r.
  - exists [], r. split; [reflexivity | constructor].
  - destruct (H x r (or_introl eq_refl)) as (y & r1 & E & Hy).
    destruct (IH (fun x' r0 Hin => H x' r0 (or_intror Hin)) r1)
      as (ys & r2 & E' & Hys).
    exists (y :: ys), r2. cbn [mapM]. unfold bind at 1. rewrite E.
    unfold bind at 1. rewrite E'. unfold ret.
    split; [reflexivity | now constructor].
Qed.

(** *** The whole round *)

Lemma In_firstn {A : Type} (n : nat) (l : list A) (x : A) :
  In x (firstn n l) -> In x l.
Proof.
  intros H. rewrite <- (firstn_skipn n l). apply in_or_app. now left.
Qed.

Lemma NoDup_firstn {A : Type} (n : nat) (l : list A) :
  NoDup l -> NoDup (firstn n l).
Proof.
  intros H. rewrite <- (firstn_skipn n l) in H.
  now apply NoDup_app_remove_r in H.
Qed.

Lemma NoDup_map_filter {A B : Type} (f : A -> B) (g : A -> bool) (l : list A) :
  NoDup (map f l) -> NoDup (map f (filter g l)).
Proof.
  induction l as [|x l IH]; simpl; intros H; [constructor |].
  inversion H as [|? ? Hnotin Hnd]; subst.
  destruct (g x); simpl; [| now apply IH].
  constructor; [| now apply IH].
  intros Hin. apply Hnotin. apply in_map_iff in Hin as (y & <- & Hy).
  apply filter_In in Hy as [Hy _]. now apply in_map.
Qed.

Lemma candidates_valid (peerId : string) (s : Network) (sorted : list Peer) (n : nat) :
  valid_peers (peers s) ->
  Permutation (Spec.candidates peerId s) sorted ->
  valid_peers (firstn n sorted).
Proof.
  unfold valid_peers, Spec.candidates. rewrite !Forall_forall.
  intros H P p Hin. apply H.
  apply In_firstn in Hin. apply (Permutation_in _ (Permutation_sym P)) in Hin.
  now apply filter_In in Hin as [Hin _].
Qed.

Lemma well_formed_valid (s : Network) :
  Coordinator.well_formed s -> valid_peers (peers s).
Proof.
  unfold Coordinator.well_formed, valid_peers. apply Forall_impl. now intros p [H _].
Qed.

Lemma discover_round_unfold (now : nat -> Q) (peerId : string)
    (current : list Peer) (r : Round) :
  discover_round now peerId current r
  = match findClosestPeers peerId current default_count with
    | None => None
    | Some closestPeers =>
        match mapM (update_peer now peerId closestPeers) current
                {| logs := logs r ++ [msg_discovering peerId];
                   clock_reads := clock_reads r |} with
        | None => None
        | Some (updated, r') =>
            Some (updated,
                  {| logs := logs r' ++
                             [msg_found peerId (List.length closestPeers)];
                     clock_reads := clock_reads r' |})
        end
    end.
Proof.
  unfold discover_round, bind, or_throw, setDiscoveryLogs, ret.
  destruct (findClosestPeers peerId current default_count) as [cl|];
    [| reflexivity].
  destruct (mapM _ current _) as [[updated r']|]; reflexivity.
Qed.

(** Under ids of [generatePeerId] a round throws nothing, and does to every
    peer what [Spec.round_result] says, for the closest peers that
    [findClosestPeers] chose. *)
Lemma discover_total (now : nat -> Q) (peerId : string) (s : Network) :
  Identity.is_peer_id peerId = true -> Coordinator.well_formed s ->
  exists sorted s',
    Permutation (Spec.candidates peerId s) sorted
    /\ findClosestPeers peerId (peers s) default_count
       = Some (firstn default_count sorted)
    /\ discover now peerId s = Some s'
    /\ Forall2 (Spec.round_result peerId (firstn default_count sorted))
         (peers s) (peers s')
    /\ networkLatency s' = networkLatency s
    /\ started s' = started s.
Proof.
  intros Hp Hwf.
  pose proof (well_formed_valid s Hwf) as Hvalid.
  destruct (findClosestPeers_total peerId (peers s) default_count Hp Hvalid)
    as (sorted & Hfind & Hperm).
  pose proof (candidates_valid peerId s sorted default_count Hvalid Hperm)
    as Hclosest.
  exists sorted. unfold discover. rewrite discover_round_unfold, Hfind.
  cbn [logs clock_reads].
  set (r1 := {| logs := _; clock_reads := 0 |}).
  destruct (mapM_Forall2
              (update_peer now peerId (firstn default_count sorted))
              (Spec.round_result peerId (firstn default_count sorted))
              (peers s)) with (r := r1) as (ps' & r2 & E & HR).
  { intros p r Hin. apply update_peer_result; auto.
    unfold Coordinator.well_formed in Hwf. rewrite Forall_forall in Hwf.
    now apply Hwf. }
  rewrite E.
  eexists. split; [exact Hperm |]. split; [reflexivity |].
  split; [reflexivity |]. cbn [peers networkLatency started]. auto.
Qed.

Lemma closest_are_candidates (peerId : string) (s : Network)
    (sorted : list Peer) (n : nat) (k : string) :
  Permutation (Spec.candidates peerId s) sorted ->
  In k (map id (firstn n sorted)) ->
  k <> peerId /\ In k (ids s).
Proof.
  intros P Hin. apply in_map_iff in Hin as (c & <- & Hc).
  apply In_firstn in Hc. apply (Permutation_in _ (Permutation_sym P)) in Hc.
  unfold Spec.candidates in Hc. apply filter_In in Hc as [Hc Hcand].
  unfold is_candidate in Hcand. apply negb_true_iff in Hcand.
  split; [now apply String.eqb_neq | now apply in_map].
Qed.

Lemma round_keeps_ids (peerId : string) (closestPeers : list Peer)
    (ps ps' : list Peer) :
  Forall2 (Spec.round_result peerId closestPeers) ps ps' ->
  map id ps' = map id ps.
Proof.
  induction 1 as [|p p' ps ps' (Hid & _) _ IH]; simpl; congruence.
Qed.

Lemma round_result_In (peerId : string) (closestPeers : list Peer)
    (ps ps' : list Peer) (p' : Peer) :
  Forall2 (Spec.round_result peerId closestPeers) ps ps' ->
  In p' ps' ->
  exists p, In p ps /\ Spec.round_result peerId closestPeers p p'.
Proof.
  induction 1 as [|p q ps ps' HR _ IH]; simpl; intros Hin; [contradiction |].
  destruct Hin as [<- | Hin].
  - exists p. auto.
  - destruct (IH Hin) as (p0 & Hp0 & HR0). exists p0. auto.
Qed.

Lemma round_frames_others (peerId : string) (closestPeers : list Peer)
    (ps ps' : list Peer) (p : Peer) :
  Forall2 (Spec.round_result peerId closestPeers) ps ps' ->
  In p ps -> id p <> peerId -> In p ps'.
Proof.
  induction 1 as [|q q' ps ps' (_ & _ & Hframe & _) _ IH]; simpl;
    intros Hin Hne; [contradiction |].
  destruct Hin as [-> | Hin].
  - left. now apply Hframe.
  - right. now apply IH.
Qed.

Lemma round_keeps_well_formed (peerId : string) (closestPeers : list Peer)
    (s s' : Network) :
  Coordinator.well_formed s ->
  Forall2 (Spec.round_result peerId closestPeers) (peers s) (peers s') ->
  Coordinator.well_formed s'.
Proof.
  unfold Coordinator.well_formed.
  generalize (peers s) (peers s'). intros ps ps' Hwf HR.
  induction HR as [|p p' ps ps' (Hid & _ & Hframe & Hown) _ IH];
    [constructor |].
  inversion Hwf as [|? ? [Hvalid Htable] Hrest]; subst.
  constructor; [| now apply IH].
  destruct (string_dec (id p) peerId) as [Heq | Hne].
  - destruct (Hown Heq) as (_ & Hwf' & _). rewrite Hid. auto.
  - rewrite (Hframe Hne). auto.
Qed.

Lemma round_keeps_no_self_entry (peerId : string) (s s' : Network)
    (sorted : list Peer) (n : nat) :
  Permutation (Spec.candidates peerId s) sorted ->
  Coordinator.no_self_entry s ->
  Forall2 (Spec.round_result peerId (firstn n sorted)) (peers s) (peers s') ->
  Coordinator.no_self_entry s'.
Proof.
  unfold Coordinator.no_self_entry. intros P.
  generalize (peers s) (peers s'). intros ps ps' Hno HR.
  induction HR as [|p p' ps ps' (Hid & _ & Hframe & Hown) _ IH];
    [constructor |].
  inversion Hno as [|? ? Hp Hrest]; subst.
  constructor; [| now apply IH].
  destruct (string_dec (id p) peerId) as [Heq | Hne].
  - destruct (Hown Heq) as (_ & _ & Hkeys & _).
    rewrite Hid, Heq, Hkeys. intros Hin.
    now destruct (closest_are_candidates _ _ _ _ _ P Hin).
  - now rewrite (Hframe Hne).
Qed.

End DiscoveryFacts.

(* ================================================================== *)
(** ** What a completed round guarantees *)

Module RoundTheorems.

Import Net Discovery DiscoveryFacts.

Lemma no_candidates_all_self (peerId : string) (ps : list Peer) :
  filter (is_candidate peerId) ps = [] -> Forall (fun p => id p = peerId) ps.
Proof.
  induction ps as [|p ps IH]; simpl; intros H; [constructor |].
  unfold is_candidate at 1 in H.
  destruct (String.eqb_spec (id p) peerId) as [Heq | Hne]; simpl in H;
    [| discriminate].
  constructor; auto.
Qed.

Lemma update_peer_cleared (now : nat -> Q) (peerId : string) (p : Peer)
    (r : Round) :
  id p = peerId ->
  update_peer now peerId [] p r
  = Some (Spec.cleared_peer p,
          {| logs := logs r ++ [msg_cleared peerId];
             clock_reads := clock_reads r |}).
Proof.
  intros <-. unfold update_peer. rewrite String.eqb_refl. reflexivity.
Qed.

Lemma mapM_cleared (now : nat -> Q) (peerId : string) (ps : list Peer) :
  Forall (fun p => id p = peerId) ps ->
  forall r,
    mapM (update_peer now peerId []) ps r
    = Some (map Spec.cleared_peer ps,
            {| logs := logs r ++ repeat (msg_cleared peerId) (List.length ps);
               clock_reads := clock_reads r |}).
Proof.
  induction 1 as [|p ps Hp _ IH]; intros r.
  - simpl. unfold ret. rewrite app_nil_r. now destruct r.
  - cbn [mapM]. unfold bind.
    rewrite (update_peer_cleared now peerId p r Hp), IH. unfold ret.
    cbn [logs clock_reads map List.length repeat].
    rewrite <- app_assoc. reflexivity.
Qed.

(** C1, as the code has it: a round for a peer with no candidate clears
    the table of that peer, logs "discovering", "cleared routing table - no
    peers found" and "found 0 close peers", and sets the status to
    [Connected]. *)
Theorem round_without_candidates (now : nat -> Q) (peerId : string) (s : Network) :
  Spec.candidates peerId s = [] ->
  exists s',
    discover now peerId s = Some s'
    /\ peers s' = map Spec.cleared_peer (peers s)
    /\ (forall p', In p' (peers s') ->
          routingTable p' = [] /\ status p' = Connected)
    /\ discoveryLogs s'
       = discoveryLogs s
         ++ msg_discovering peerId
            :: repeat (msg_cleared peerId) (List.length (peers s))
         ++ [msg_found peerId 0].
Proof.
  intros Hnone. unfold Spec.candidates in Hnone.
  pose proof (no_candidates_all_self _ _ Hnone) as Hself.
  unfold discover. rewrite discover_round_unfold.
  unfold findClosestPeers. rewrite Hnone. cbn [sort fold_left option_map firstn].
  rewrite (mapM_cleared now peerId (peers s) Hself).
  eexists. split; [reflexivity |]. cbn [peers discoveryLogs logs clock_reads].
  split; [reflexivity |]. split.
  - intros p' Hin. apply in_map_iff in Hin as (p & <- & _). now split.
  - cbn [List.length]. rewrite <- !app_assoc. reflexivity.
Qed.

Lemma round_without_candidates_witness :
  Spec.candidates Examples.idA Examples.alone = []
  /\ exists s',
       discover Examples.now0 Examples.idA Examples.alone = Some s'
       /\ peers s' = map Spec.cleared_peer (peers Examples.alone)
       /\ (forall p', In p' (peers s') ->
             routingTable p' = [] /\ status p' = Connected)
       /\ discoveryLogs s'
          = discoveryLogs Examples.alone
            ++ msg_discovering Examples.idA
               :: repeat (msg_cleared Examples.idA)
                    (List.length (peers Examples.alone))
            ++ [msg_found Examples.idA 0].
Proof.
  split; [reflexivity |].
  apply (round_without_candidates Examples.now0 Examples.idA Examples.alone).
  reflexivity.
Defined.

(** C1 as stated fails: the only peer of a network is [Discovering] before
    its round and [Connected] after it. *)
Lemma round_without_candidates_sets_connected :
  Spec.candidates Examples.idA Examples.alone = []
  /\ map status (peers Examples.alone) = [Discovering]
  /\ discover Examples.now0 Examples.idA Examples.alone
     = Some Examples.alone_after_round
  /\ map status (peers Examples.alone_after_round) = [Connected]
  /\ map status (peers Examples.alone_after_round)
     <> map status (peers Examples.alone).
Proof.
  repeat split; try reflexivity. discriminate.
Qed.

(** *** A round whose peer is gone *)

Lemma update_peer_other (now : nat -> Q) (peerId : string)
    (closestPeers : list Peer) (p : Peer) (r : Round) :
  id p <> peerId -> update_peer now peerId closestPeers p r = Some (p, r).
Proof.
  intros Hne. unfold update_peer.
  apply String.eqb_neq in Hne. now rewrite Hne.
Qed.

Lemma mapM_absent (now : nat -> Q) (peerId : string)
    (closestPeers ps : list Peer) :
  ~ In peerId (map id ps) ->
  forall r, mapM (update_peer now peerId closestPeers) ps r = Some (ps, r).
Proof.
  induction ps as [|p ps IH]; intros Hnot r; [reflexivity |].
  cbn [mapM]. unfold bind.
  rewrite update_peer_other by (intros E; apply Hnot; now left).
  rewrite IH by (intros Hin; apply Hnot; now right).
  reflexivity.
Qed.

Lemma absent_all_candidates (peerId : string) (ps : list Peer) :
  ~ In peerId (map id ps) -> filter (is_candidate peerId) ps = ps.
Proof.
  induction ps as [|p ps IH]; simpl; intros Hnot; [reflexivity |].
  unfold is_candidate at 1.
  destruct (String.eqb_spec (id p) peerId) as [Heq | Hne]; simpl.
  - exfalso. apply Hnot. now left.
  - f_equal. apply IH. intros Hin. apply Hnot. now right.
Qed.

Lemma discover_absent (now : nat -> Q) (peerId : string) (s : Network) :
  Identity.is_peer_id peerId = true -> valid_peers (peers s) ->
  ~ In peerId (ids s) ->
  discover now peerId s
  = Some {| peers := peers s;
            discoveryLogs :=
              discoveryLogs s
              ++ [msg_discovering peerId;
                  msg_found peerId
                    (Nat.min default_count (List.length (peers s)))];
            networkLatency := networkLatency s;
            started := started s |}.
Proof.
  intros Hp Hvalid Hnot.
  destruct (findClosestPeers_total peerId (peers s) default_count Hp Hvalid)
    as (sorted & Hfind & Hperm).
  unfold discover. rewrite discover_round_unfold, Hfind.
  rewrite mapM_absent by exact Hnot.
  cbn [logs clock_reads].
  rewrite length_firstn, <- (Permutation_length Hperm).
  rewrite (absent_all_candidates peerId (peers s) Hnot).
  rewrite <- app_assoc. reflexivity.
Qed.

(** C2, as the code has it: moving the slider empties the peer list and
    cancels nothing.  A round that waited completes as any other: it
    changes no peer when the network holds no peer of its id (right after
    the reset, or later), and it appends its two log lines. *)
Theorem stale_round_still_logs (now : nat -> Q) (peerId : string)
    (v : Z) (s : Network) :
  Identity.is_peer_id peerId = true -> v <> networkLatency s ->
  peers (Coordinator.onLatencyChange v s) = []
  /\ discover now peerId (Coordinator.onLatencyChange v s)
     = Some {| peers := [];
               discoveryLogs :=
                 discoveryLogs s
                 ++ [msg_discovering peerId; msg_found peerId 0];
               networkLatency := v;
               started := true |}
  /\ forall later,
       valid_peers (peers later) -> ~ In peerId (ids later) ->
       discover now peerId later
       = Some {| peers := peers later;
                 discoveryLogs :=
                   discoveryLogs later
                   ++ [msg_discovering peerId;
                       msg_found peerId
                         (Nat.min default_count (List.length (peers later)))];
                 networkLatency := networkLatency later;
                 started := started later |}.
Proof.
  intros Hp Hv.
  assert (E : Coordinator.onLatencyChange v s
              = {| peers := []; discoveryLogs := discoveryLogs s;
                   networkLatency := v; started := true |}).
  { unfold Coordinator.onLatencyChange.
    apply Z.eqb_neq in Hv. now rewrite Hv. }
  rewrite E. split; [reflexivity |]. split.
  - rewrite discover_absent; [reflexivity | exact Hp | constructor | intros []].
  - intros later Hvalid Hnot. now apply discover_absent.
Qed.

Lemma stale_round_still_logs_witness :
  peers (Coordinator.onLatencyChange 1000 Examples.five_after_round) = []
  /\ discover Examples.now0 Examples.idE
       (Coordinator.onLatencyChange 1000 Examples.five_after_round)
     = Some Examples.after_stale_round.
Proof.
  destruct (stale_round_still_logs Examples.now0 Examples.idE 1000
              Examples.five_after_round eq_refl)
    as (H1 & H2 & _).
  - discriminate.
  - split; [exact H1 | exact H2].
Defined.

(** C2 as stated fails: the round of [idE] that waited while the slider
    moved appends two entries to the log when it completes. *)
Lemma stale_round_appends_to_log :
  Coordinator.onLatencyChange 1000 Examples.five_after_round
  = Examples.after_reset
  /\ discover Examples.now0 Examples.idE Examples.after_reset
     = Some Examples.after_stale_round
  /\ discoveryLogs Examples.after_stale_round
     = discoveryLogs Examples.after_reset
       ++ [msg_discovering Examples.idE; msg_found Examples.idE 0]
  /\ List.length (discoveryLogs Examples.after_stale_round)
     <> List.length (discoveryLogs Examples.after_reset).
Proof.
  repeat split; try reflexivity. discriminate.
Qed.

(** *** The table after a round *)

Lemma served_peer_table (peerId : string) (closestPeers : list Peer)
    (ps ps' : list Peer) (p' : Peer) :
  Forall2 (Spec.round_result peerId closestPeers) ps ps' ->
  In p' ps' -> id p' = peerId ->
  Spec.table_after peerId closestPeers (routingTable p').
Proof.
  intros HR Hin Hid.
  destruct (round_result_In _ _ _ _ _ HR Hin) as (p & _ & Hid' & _ & _ & Hown).
  apply Hown. congruence.
Qed.

Lemma closest_ids_NoDup (peerId : string) (s : Network) (sorted : list Peer)
    (n : nat) :
  NoDup (ids s) -> Permutation (Spec.candidates peerId s) sorted ->
  NoDup (map id (firstn n sorted)).
Proof.
  intros Hnd P. rewrite <- firstn_map. apply NoDup_firstn.
  apply (Permutation_NoDup (Permutation_map id P)).
  unfold Spec.candidates. now apply NoDup_map_filter.
Qed.

(** C3: a round completes, and the table of the peer it served then has at
    most [default_count] = 3 entries; it has exactly 3 when the ids of the
    network are unique and at least 3 candidates exist. *)
Theorem routing_table_size_after_round (now : nat -> Q) (peerId : string)
    (s : Network) :
  Identity.is_peer_id peerId = true -> Coordinator.well_formed s ->
  exists s',
    discover now peerId s = Some s'
    /\ ids s' = ids s
    /\ forall p',
         In p' (peers s') -> id p' = peerId ->
         (JsMap.size (routingTable p') <= default_count)%nat
         /\ (NoDup (ids s) ->
             (default_count <= List.length (Spec.candidates peerId s))%nat ->
             JsMap.size (routingTable p') = default_count).
Proof.
  intros Hp Hwf.
  destruct (discover_total now peerId s Hp Hwf)
    as (sorted & s' & Hperm & _ & Hrun & HR & _).
  exists s'. split; [exact Hrun |].
  split; [exact (round_keeps_ids _ _ _ _ HR) |].
  intros p' Hin Hid.
  destruct (served_peer_table _ _ _ _ _ HR Hin Hid) as (Hwf' & Hkeys & _).
  assert (Hle : (JsMap.size (routingTable p') <= default_count)%nat).
  { transitivity (List.length (map id (firstn default_count sorted))).
    - apply JsMapFacts.size_le_of_keys; [exact Hwf' |].
      intros k Hk. now apply Hkeys.
    - rewrite length_map, length_firstn. apply Nat.le_min_l. }
  split; [exact Hle |].
  intros Hnd Hcount. apply Nat.le_antisymm; [exact Hle |].
  assert (Hlen : List.length (map id (firstn default_count sorted))
                 = default_count).
  { rewrite length_map, length_firstn, <- (Permutation_length Hperm).
    now apply Nat.min_l. }
  rewrite <- Hlen at 1.
  apply JsMapFacts.size_ge_of_keys.
  - exact (closest_ids_NoDup peerId s sorted default_count Hnd Hperm).
  - intros k Hk. now apply Hkeys.
Qed.

Lemma routing_table_size_after_round_witness :
  Coordinator.well_formed Examples.five
  /\ NoDup (ids Examples.five)
  /\ (default_count
      <= List.length (Spec.candidates Examples.idA Examples.five))%nat
  /\ exists s',
       discover Examples.now0 Examples.idA Examples.five = Some s'
       /\ ids s' = ids Examples.five
       /\ forall p',
            In p' (peers s') -> id p' = Examples.idA ->
            (JsMap.size (routingTable p') <= default_count)%nat
            /\ (NoDup (ids Examples.five) ->
                (default_count
                 <= List.length
                      (Spec.candidates Examples.idA Examples.five))%nat ->
                JsMap.size (routingTable p') = default_count).
Proof.
  assert (Hwf : Coordinator.well_formed Examples.five).
  { unfold Coordinator.well_formed, Examples.five. simpl.
    repeat constructor; intros []. }
  split; [exact Hwf |]. split.
  - unfold ids, Examples.five. simpl.
    repeat constructor; simpl; intuition discriminate.
  - split; [vm_compute; repeat constructor |].
    exact (routing_table_size_after_round Examples.now0 Examples.idA
             Examples.five eq_refl Hwf).
Defined.

(** C3 as stated fails without unique ids: in a network that four joins
    reach, the round of [idA] finds three candidates, which share one id,
    and leaves a table of one entry. *)
Lemma repeated_id_leaves_smaller_table :
  Coordinator.reachable {| Coordinator.net := Examples.twins;
                           Coordinator.in_flight := [] |}
  /\ Coordinator.well_formed Examples.twins
  /\ List.length (Spec.candidates Examples.idA Examples.twins) = 3%nat
  /\ default_count = 3%nat
  /\ ~ NoDup (ids Examples.twins)
  /\ discover Examples.now0 Examples.idA Examples.twins
     = Some Examples.twins_after_round
  /\ map (fun p => (id p, JsMap.size (routingTable p)))
       (peers Examples.twins_after_round)
     = [(Examples.idA, 1%nat); (Examples.idB, 0%nat); (Examples.idB, 0%nat);
        (Examples.idB, 0%nat)].
Proof.
  split.
  { pose (join := fun i w =>
              {| Coordinator.net :=
                   Coordinator.joinNetwork
                     (Coordinator.createPeer i (Examples.now0 0))
                     (Coordinator.net w);
                 Coordinator.in_flight := Coordinator.in_flight w |}).
    change (Coordinator.reachable
              (join Examples.idB
                 (join Examples.idB
                    (join Examples.idB
                       (join Examples.idA Coordinator.mounted))))).
    repeat (eapply Coordinator.reachable_step;
            [| apply Coordinator.step_join; reflexivity]).
    apply Coordinator.reachable_mounted. }
  split.
  { unfold Coordinator.well_formed, Examples.twins. simpl.
    repeat constructor; intros []. }
  split; [reflexivity |]. split; [reflexivity |]. split.
  { unfold ids, Examples.twins. simpl. intros Hnd.
    inversion Hnd as [| ? ? _ Hrest]. inversion Hrest as [| ? ? Hnotin _].
    apply Hnotin. now left. }
  split; reflexivity.
Qed.

(** C10: a round completes, and every entry of the table of the peer it
    served carries the distance between the owner's id and the entry's
    key; with a candidate in the network that table is not empty. *)
Theorem routing_table_distances_after_round (now : nat -> Q) (peerId : string)
    (s : Network) :
  Identity.is_peer_id peerId = true -> Coordinator.well_formed s ->
  Spec.candidates peerId s <> [] ->
  exists s',
    discover now peerId s = Some s'
    /\ forall p',
         In p' (peers s') -> id p' = peerId ->
         routingTable p' <> []
         /\ forall k v,
              In (k, v) (routingTable p') ->
              Distance.calculateDistance peerId k = Some (distance v).
Proof.
  intros Hp Hwf Hsome.
  destruct (discover_total now peerId s Hp Hwf)
    as (sorted & s' & Hperm & _ & Hrun & HR & _).
  exists s'. split; [exact Hrun |].
  intros p' Hin Hid.
  destruct (served_peer_table _ _ _ _ _ HR Hin Hid) as (_ & Hkeys & Hdist).
  split; [| exact Hdist].
  destruct sorted as [|c sorted].
  - apply Permutation_sym, Permutation_nil in Hperm. contradiction.
  - intros Hempty. rewrite Hempty in Hkeys.
    apply (Hkeys (id c)). now left.
Qed.

Lemma routing_table_distances_after_round_witness :
  Spec.candidates Examples.idA Examples.five <> []
  /\ exists s',
       discover Examples.now0 Examples.idA Examples.five = Some s'
       /\ forall p',
            In p' (peers s') -> id p' = Examples.idA ->
            routingTable p' <> []
            /\ forall k v,
                 In (k, v) (routingTable p') ->
                 Distance.calculateDistance Examples.idA k
                 = Some (distance v).
Proof.
  assert (Hwf : Coordinator.well_formed Examples.five).
  { unfold Coordinator.well_formed, Examples.five. simpl.
    repeat constructor; intros []. }
  assert (Hsome : Spec.candidates Examples.idA Examples.five <> [])
    by discriminate.
  split; [exact Hsome |].
  exact (routing_table_distances_after_round Examples.now0 Examples.idA
           Examples.five eq_refl Hwf Hsome).
Defined.

End RoundTheorems.

(* ================================================================== *)
(** ** The coordinator *)

Module CoordinatorFacts.

Import Net Discovery DiscoveryFacts Coordinator.

(** *** The log bound *)

Lemma shift_while_skipn (fuel : nat) :
  forall l,
    (List.length l - max_logs <= fuel)%nat ->
    shift_while fuel l = skipn (List.length l - max_logs) l.
Proof.
  induction fuel as [|fuel IH]; intros l Hfuel.
  - cbn [shift_while]. replace (List.length l - max_logs)%nat with 0%nat by lia.
    reflexivity.
  - cbn [shift_while]. destruct (Nat.ltb_spec max_logs (List.length l)) as [Hgt | Hle].
    + destruct l as [|x l]; [cbn [List.length] in Hgt; lia |].
      cbn [tl]. cbn [List.length] in *.
      rewrite IH by lia.
      replace (S (List.length l) - max_logs)%nat
        with (S (List.length l - max_logs)) by lia.
      reflexivity.
    + replace (List.length l - max_logs)%nat with 0%nat by lia. reflexivity.
Qed.

(** The loop of the effect ends with the newest [max_logs] entries. *)
Lemma trimLogs_skipn (l : list string) :
  trimLogs l = skipn (List.length l - max_logs) l.
Proof.
  unfold trimLogs. destruct (Nat.ltb_spec max_logs (List.length l)) as [Hgt | Hle].
  - apply shift_while_skipn. lia.
  - replace (List.length l - max_logs)%nat with 0%nat by lia. reflexivity.
Qed.

Lemma appendAll_app (batch : list string) :
  forall prev, appendAll batch prev = prev ++ batch.
Proof.
  unfold appendAll.
  induction batch as [|line batch IH]; intros prev; simpl.
  - now rewrite app_nil_r.
  - rewrite IH. unfold appendLog. now rewrite <- app_assoc.
Qed.

(** C4, as the code has it: appends only grow the log; each run of the
    trimming effect leaves at most 500 entries, the newest ones in their
    order (the oldest are evicted first), and leaves a log of at most 500
    entries as it is. *)
Theorem trim_effect_keeps_newest (prev batch : list string) :
  appendAll batch prev = prev ++ batch
  /\ (List.length (trimLogs (appendAll batch prev)) <= max_logs)%nat
  /\ List.length (trimLogs (appendAll batch prev))
     = Nat.min (List.length (appendAll batch prev)) max_logs
  /\ (exists evicted,
        appendAll batch prev = evicted ++ trimLogs (appendAll batch prev)
        /\ List.length evicted
           = (List.length (appendAll batch prev) - max_logs)%nat)
  /\ ((List.length (appendAll batch prev) <= max_logs)%nat ->
      trimLogs (appendAll batch prev) = appendAll batch prev).
Proof.
  split; [apply appendAll_app |].
  generalize (appendAll batch prev). intros l.
  rewrite trimLogs_skipn.
  assert (Hlen : List.length (skipn (List.length l - max_logs) l)
                 = Nat.min (List.length l) max_logs)
    by (rewrite length_skipn; lia).
  split; [rewrite Hlen; apply Nat.le_min_r |].
  split; [exact Hlen |]. split.
  - exists (firstn (List.length l - max_logs) l). split.
    + symmetry. apply firstn_skipn.
    + rewrite length_firstn. lia.
  - intros Hle.
    replace (List.length l - max_logs)%nat with 0%nat by lia. reflexivity.
Qed.

(** C4 as stated fails: one append to a full log leaves 501 entries in the
    state, and the round of a lone peer leaves 503; only the effect that
    runs after the render brings the log back to 500. *)
Lemma append_exceeds_log_bound :
  List.length Examples.full_log = 500%nat
  /\ List.length (appendLog (msg_joined Examples.idB) Examples.full_log)
     = 501%nat
  /\ (exists s',
        discover Examples.now0 Examples.idA
          (Examples.network [Examples.fresh Examples.idA] Examples.full_log)
        = Some s'
        /\ List.length (discoveryLogs s') = 503%nat
        /\ List.length (discoveryLogs (trimEffect s')) = 500%nat)
  /\ ~ (List.length (appendLog (msg_joined Examples.idB) Examples.full_log)
        <= max_logs)%nat.
Proof.
  split; [vm_compute; reflexivity |].
  split; [vm_compute; reflexivity |].
  split.
  - eexists. split; [vm_compute; reflexivity |].
    split; vm_compute; reflexivity.
  - replace (List.length (appendLog (msg_joined Examples.idB)
                            Examples.full_log))
      with 501%nat by (vm_compute; reflexivity).
    unfold max_logs. lia.
Qed.

(** *** Invariants of the event loop *)

Lemma Forall_filter_keep {A : Type} (P : A -> Prop) (f : A -> bool) (l : list A) :
  Forall P l -> Forall P (filter f l).
Proof.
  rewrite !Forall_forall. intros H x Hin.
  apply filter_In in Hin as [Hin _]. now apply H.
Qed.

Lemma refresh_keeps (P : string -> RoutingTable -> Prop) (seen : nat -> Q)
    (ps : list Peer) :
  forall n,
    Forall (fun p => P (id p) (routingTable p)) ps ->
    Forall (fun p => P (id p) (routingTable p)) (refresh seen n ps).
Proof.
  induction ps as [|p ps IH]; intros n H; [constructor |].
  inversion H; subst. cbn [refresh]. constructor; [assumption | now apply IH].
Qed.

Lemma refresh_tables (seen : nat -> Q) (ps : list Peer) :
  forall n,
    map (fun p => (id p, routingTable p)) (refresh seen n ps)
    = map (fun p => (id p, routingTable p)) ps.
Proof.
  induction ps as [|p ps IH]; intros n; [reflexivity |].
  cbn [refresh map id routingTable]. now rewrite IH.
Qed.

Lemma created_peer_ok (newId : string) (now : Q) :
  Identity.is_peer_id newId = true ->
  (Identity.is_peer_id (id (createPeer newId now)) = true
   /\ JsMap.wf (routingTable (createPeer newId now)))
  /\ ~ In (id (createPeer newId now))
         (JsMap.keys (routingTable (createPeer newId now))).
Proof.
  intros H. repeat split; [exact H | constructor | intros []].
Qed.

(** What every reachable world satisfies. *)
Lemma reachable_invariant (w : World) :
  reachable w ->
  well_formed (net w)
  /\ no_self_entry (net w)
  /\ Forall (fun i => Identity.is_peer_id i = true) (in_flight w).
Proof.
  induction 1 as [|w w' _ (Hwf & Hno & Hfl) Hstep].
  - repeat split; constructor.
  - destruct Hstep as [newId now w Hid | newId now w Hid | peerId w
                      | peerId w Hin | seen w
                      | now before peerId after w s' Hsplit Hrun | v w | w];
      cbn [net in_flight] in *.
    + destruct (created_peer_ok newId now Hid) as [Hnew Hself].
      repeat split; [| | exact Hfl]; unfold well_formed, no_self_entry in *;
        cbn [peers joinNetwork]; apply Forall_app; split; auto.
    + destruct (created_peer_ok newId now Hid) as [Hnew Hself].
      repeat split; [| | exact Hfl]; unfold well_formed, no_self_entry in *;
        cbn [peers makeAnotherPeer]; apply Forall_app; split; auto.
    + repeat split; [| | exact Hfl]; unfold well_formed, no_self_entry in *;
        cbn [peers removePeer]; now apply Forall_filter_keep.
    + repeat split; [exact Hwf | exact Hno |].
      apply Forall_app. split; [exact Hfl |]. now repeat constructor.
    + repeat split.
      * unfold well_formed in *. cbn [peers tick].
        now apply (refresh_keeps
                     (fun i t => Identity.is_peer_id i = true /\ JsMap.wf t)).
      * unfold no_self_entry in *. cbn [peers tick].
        now apply (refresh_keeps (fun i t => ~ In i (JsMap.keys t))).
      * apply Forall_app. split; [exact Hfl |].
        unfold ids. apply Forall_map.
        exact (well_formed_valid _ Hwf).
    + assert (Hp : Identity.is_peer_id peerId = true).
      { rewrite Hsplit in Hfl. apply Forall_app in Hfl as [_ Hfl].
        now inversion Hfl. }
      destruct (discover_total now peerId (net w) Hp Hwf)
        as (sorted & s'' & Hperm & _ & Hrun' & HR & _).
      rewrite Hrun in Hrun'. injection Hrun' as <-.
      repeat split.
      * exact (round_keeps_well_formed _ _ _ _ Hwf HR).
      * exact (round_keeps_no_self_entry _ _ _ _ _ Hperm Hno HR).
      * rewrite Hsplit in Hfl. apply Forall_app in Hfl as [Hb Ha].
        apply Forall_app. split; [exact Hb | now inversion Ha].
    + repeat split; [| | exact Hfl]; unfold onLatencyChange;
        destruct (v =? networkLatency (net w))%Z;
        unfold well_formed, no_self_entry in *; cbn [peers];
        auto; constructor.
    + repeat split; assumption.
Qed.

(** In a reachable world a round that waits completes when its timer
    fires: it throws nothing. *)
Lemma waiting_round_completes (now : nat -> Q) (w : World)
    (before after : list string) (peerId : string) :
  reachable w -> in_flight w = before ++ peerId :: after ->
  exists s', Discovery.discover now peerId (net w) = Some s'.
Proof.
  intros Hreach Hsplit.
  destruct (reachable_invariant w Hreach) as (Hwf & _ & Hfl).
  rewrite Hsplit in Hfl. apply Forall_app in Hfl as [_ Hfl].
  inversion Hfl as [|? ? Hp _]; subst.
  destruct (discover_total now peerId (net w) Hp Hwf)
    as (_ & s' & _ & _ & Hrun & _).
  now exists s'.
Qed.

(** C5: in every reachable world, no peer's routing table has an entry
    under the peer's own id: the id is no key of the table, and looking it
    up finds nothing. *)
Theorem no_peer_routes_to_itself (w : World) :
  reachable w ->
  forall p, In p (peers (net w)) ->
            ~ In (id p) (JsMap.keys (routingTable p))
            /\ JsMap.get (id p) (routingTable p) = None.
Proof.
  intros Hreach p Hin.
  destruct (reachable_invariant w Hreach) as (_ & Hno & _).
  unfold no_self_entry in Hno. rewrite Forall_forall in Hno.
  split; [| apply JsMapFacts.get_absent]; now apply Hno.
Qed.

Lemma no_peer_routes_to_itself_witness :
  reachable Examples.world4
  /\ forall p, In p (peers (net Examples.world4)) ->
               ~ In (id p) (JsMap.keys (routingTable p))
               /\ JsMap.get (id p) (routingTable p) = None.
Proof.
  assert (R : reachable Examples.world4).
  { apply (reachable_step Examples.world3).
    - apply (reachable_step Examples.world2).
      + apply (reachable_step Examples.world1).
        * apply (reachable_step mounted); [exact reachable_mounted |].
          exact (step_join Examples.idA (Examples.now0 0) mounted eq_refl).
        * exact (step_join Examples.idB (Examples.now0 0) Examples.world1
                   eq_refl).
      + exact (step_start Examples.idA Examples.world2 eq_refl).
    - apply (step_complete Examples.now0 [] Examples.idA [] Examples.world3
               Examples.round3); [reflexivity |].
      vm_compute. reflexivity. }
  split; [exact R |].
  exact (no_peer_routes_to_itself Examples.world4 R).
Defined.

(** *** Removing a peer *)

Lemma removePeer_tables (removed : string) (s : Network) :
  tables (removePeer removed s)
  = filter (fun t => negb (fst t =? removed)%string) (tables s).
Proof.
  unfold tables, removePeer. cbn [peers].
  induction (peers s) as [|p ps IH]; [reflexivity |].
  cbn [filter map fst]. destruct (id p =? removed)%string; cbn [negb map];
    now rewrite IH.
Qed.

Lemma removePeer_forgets (removed : string) (s : Network) :
  ~ In removed (ids (removePeer removed s)).
Proof.
  unfold ids, removePeer. cbn [peers]. intros Hin.
  apply in_map_iff in Hin as (p & Hid & Hp).
  apply filter_In in Hp as [_ Hne].
  rewrite Hid, String.eqb_refl in Hne. discriminate.
Qed.

(** A round that completes hands back every peer it does not serve. *)
Lemma mapM_frames_others (now : nat -> Q) (peerId : string)
    (closestPeers ps : list Peer) :
  forall r ps' r',
    mapM (update_peer now peerId closestPeers) ps r = Some (ps', r') ->
    forall p, In p ps -> id p <> peerId -> In p ps'.
Proof.
  induction ps as [|q ps IH]; intros r ps' r' E p Hin Hne; [contradiction |].
  cbn [mapM] in E. unfold bind in E.
  destruct (update_peer now peerId closestPeers q r) as [[q' r1]|] eqn:Eq;
    [| discriminate].
  destruct (mapM (update_peer now peerId closestPeers) ps r1)
    as [[qs r2]|] eqn:Eqs; [| discriminate].
  unfold ret in E. injection E as <- <-.
  destruct Hin as [-> | Hin].
  - rewrite RoundTheorems.update_peer_other in Eq by exact Hne.
    injection Eq as <- <-. now left.
  - right. exact (IH _ _ _ Eqs p Hin Hne).
Qed.

Lemma discover_frames_others (now : nat -> Q) (peerId : string)
    (s s' : Network) (i : string) (t : RoutingTable) :
  discover now peerId s = Some s' ->
  In (i, t) (tables s) -> i <> peerId -> In (i, t) (tables s').
Proof.
  unfold discover. rewrite discover_round_unfold.
  destruct (findClosestPeers peerId (peers s) default_count) as [cl|];
    [| discriminate].
  destruct (mapM _ (peers s) _) as [[ps' r']|] eqn:E; [| discriminate].
  intros H Hin Hne. injection H as <-.
  unfold tables in *. cbn [peers].
  apply in_map_iff in Hin as (p & Hp & Hin). injection Hp as <- <-.
  apply in_map_iff. exists p. split; [reflexivity |].
  exact (mapM_frames_others _ _ _ _ _ _ _ E p Hin Hne).
Qed.

(** C6: removing a peer filters the peer list and touches no table, so
    entries under the removed id stay in the tables of the others.  After
    that, a table of a peer that is still in the network changes in one
    step only: the completion of a round for its owner.  That round leaves
    no entry under an id that is no longer in the network. *)
Theorem removal_prunes_lazily (removed : string) (s : Network) :
  tables (removePeer removed s)
  = filter (fun t => negb (fst t =? removed)%string) (tables s)
  /\ ~ In removed (ids (removePeer removed s))
  /\ (forall w w' i t,
        step w w' -> In (i, t) (tables (net w)) ->
        In (i, t) (tables (net w'))
        \/ (exists now before after,
              in_flight w = before ++ i :: after
              /\ Discovery.discover now i (net w) = Some (net w'))
        \/ ~ In i (ids (net w')))
  /\ (forall now served later,
        Identity.is_peer_id served = true -> well_formed later ->
        ~ In removed (ids later) ->
        exists s',
          Discovery.discover now served later = Some s'
          /\ forall p', In p' (peers s') -> id p' = served ->
                        ~ In removed (JsMap.keys (routingTable p'))).
Proof.
  split; [apply removePeer_tables |].
  split; [apply removePeer_forgets |].
  split.
  - intros w w' i t Hstep Hin.
    destruct Hstep as [newId now w Hid | newId now w Hid | peerId w
                      | peerId w Hin' | seen w
                      | now before peerId after w s' Hsplit Hrun | v w | w];
      cbn [net in_flight].
    + left. unfold tables in *. cbn [peers joinNetwork].
      rewrite map_app. apply in_or_app. now left.
    + left. unfold tables in *. cbn [peers makeAnotherPeer].
      rewrite map_app. apply in_or_app. now left.
    + destruct (string_dec i peerId) as [-> | Hne].
      * right. right. apply removePeer_forgets.
      * left. rewrite removePeer_tables. apply filter_In.
        split; [exact Hin |]. cbn [fst].
        apply String.eqb_neq in Hne. now rewrite Hne.
    + left. exact Hin.
    + left. unfold tables in *. cbn [peers tick].
      now rewrite refresh_tables.
    + destruct (string_dec i peerId) as [-> | Hne].
      * right. left. exists now, before, after. split; assumption.
      * left. exact (discover_frames_others _ _ _ _ _ _ Hrun Hin Hne).
    + unfold onLatencyChange.
      destruct (v =? networkLatency (net w))%Z.
      * left. exact Hin.
      * right. right. intros [].
    + left. exact Hin.
  - intros now served later Hp Hwf Hgone.
    destruct (discover_total now served later Hp Hwf)
      as (sorted & s' & Hperm & _ & Hrun & HR & _).
    exists s'. split; [exact Hrun |].
    intros p' Hin Hid Hkey.
    destruct (RoundTheorems.served_peer_table _ _ _ _ _ HR Hin Hid)
      as (_ & Hkeys & _).
    apply Hkeys in Hkey.
    destruct (closest_are_candidates _ _ _ _ _ Hperm Hkey) as [_ Hin'].
    now apply Hgone.
Qed.

Lemma removal_prunes_lazily_witness :
  In Examples.idE (JsMap.keys (routingTable Examples.peerA_connected))
  /\ In (Examples.idA, routingTable Examples.peerA_connected)
       (tables (removePeer Examples.idE Examples.five_after_round))
  /\ exists s',
       Discovery.discover Examples.now0 Examples.idA
         (removePeer Examples.idE Examples.five_after_round) = Some s'
       /\ forall p', In p' (peers s') -> id p' = Examples.idA ->
                     ~ In Examples.idE (JsMap.keys (routingTable p')).
Proof.
  destruct (removal_prunes_lazily Examples.idE Examples.five_after_round)
    as (Htables & Hgone & _ & Hround).
  split; [simpl; now left |].
  split; [rewrite Htables; simpl; now left |].
  apply Hround; [reflexivity | | exact Hgone].
  unfold well_formed. simpl.
  repeat constructor; simpl; intuition discriminate.
Defined.

End CoordinatorFacts.

(* ================================================================== *)
(** ** The XOR metric on peer ids *)

Module MetricFacts.

Import Distance.

Lemma pos_lxor_le_add (p : positive) :
  forall q, (Pos.lxor p q <= N.pos p + N.pos q)%N.
Proof.
  induction p as [p IH | p IH |]; intros [q | q |]; cbn [Pos.lxor];
    try specialize (IH q);
    rewrite ?N.succ_double_spec, ?N.double_spec; try lia.
Qed.

(** XOR never exceeds the sum. *)
Lemma lxor_le_add (x y : N) : (N.lxor x y <= x + y)%N.
Proof.
  destruct x as [|p], y as [|q]; cbn [N.lxor]; try lia.
  apply pos_lxor_le_add.
Qed.

Lemma lxor_lt_pow2 (x y n : N) :
  (x < 2 ^ n)%N -> (y < 2 ^ n)%N -> (N.lxor x y < 2 ^ n)%N.
Proof.
  intros Hx Hy.
  destruct (N.eq_dec (N.lxor x y) 0) as [-> | Hnz].
  - apply N.neq_0_lt_0, N.pow_nonzero. discriminate.
  - apply N.log2_lt_pow2; [lia |].
    eapply N.le_lt_trans; [apply N.log2_lxor |].
    destruct (N.eq_dec x 0) as [-> | Hxnz], (N.eq_dec y 0) as [-> | Hynz].
    + now rewrite N.lxor_0_l in Hnz.
    + rewrite N.max_r by apply N.le_0_l. apply N.log2_lt_pow2; lia.
    + cbn [N.log2]. rewrite N.max_l by apply N.le_0_l.
      apply N.log2_lt_pow2; lia.
    + apply N.max_lub_lt; apply N.log2_lt_pow2; lia.
Qed.

Lemma unsigned_peer_id_bound (a : string) :
  Identity.is_peer_id a = true -> (Spec.unsigned a < 2 ^ 48)%N.
Proof.
  intros Ha. unfold Identity.is_peer_id in Ha.
  apply andb_true_iff in Ha as [Len L]. apply Nat.eqb_eq in Len.
  pose proof (HexFacts.unsigned_bound a L) as B. rewrite Len in B.
  exact B.
Qed.

(** The distance between peer ids is a 48-bit number, the distances along
    a detour XOR to the direct distance, and the triangle inequality
    holds. *)
Theorem calculateDistance_triangle (a b c : string) :
  Identity.is_peer_id a = true -> Identity.is_peer_id b = true ->
  Identity.is_peer_id c = true ->
  exists dab dbc dac,
    calculateDistance a b = Some dab
    /\ calculateDistance b c = Some dbc
    /\ calculateDistance a c = Some dac
    /\ (dab < 2 ^ 48)%N
    /\ dac = N.lxor dab dbc
    /\ (dac <= dab + dbc)%N.
Proof.
  intros Ha Hb Hc.
  rewrite (DistanceFacts.calculateDistance_peer_ids a b Ha Hb),
          (DistanceFacts.calculateDistance_peer_ids b c Hb Hc),
          (DistanceFacts.calculateDistance_peer_ids a c Ha Hc).
  do 3 eexists. repeat (split; [reflexivity |]).
  assert (E : N.lxor (Spec.unsigned a) (Spec.unsigned c)
              = N.lxor (N.lxor (Spec.unsigned a) (Spec.unsigned b))
                  (N.lxor (Spec.unsigned b) (Spec.unsigned c))).
  { apply N.bits_inj. intros n. rewrite !N.lxor_spec.
    now destruct (N.testbit (Spec.unsigned a) n),
                 (N.testbit (Spec.unsigned b) n),
                 (N.testbit (Spec.unsigned c) n). }
  split; [| split].
  - apply lxor_lt_pow2; now apply unsigned_peer_id_bound.
  - exact E.
  - rewrite E. apply lxor_le_add.
Qed.

Lemma calculateDistance_triangle_witness :
  exists dab dbc dac,
    calculateDistance Examples.idA Examples.idB = Some dab
    /\ calculateDistance Examples.idB Examples.idC = Some dbc
    /\ calculateDistance Examples.idA Examples.idC = Some dac
    /\ (dab < 2 ^ 48)%N
    /\ dac = N.lxor dab dbc
    /\ (dac <= dab + dbc)%N.
Proof.
  exact (calculateDistance_triangle Examples.idA Examples.idB Examples.idC
           eq_refl eq_refl eq_refl).
Defined.

Lemma calculateDistance_cancel (t a b : string) :
  Identity.is_peer_id t = true -> Identity.is_peer_id a = true ->
  Identity.is_peer_id b = true ->
  calculateDistance a t = calculateDistance b t -> a = b.
Proof.
  intros Ht Ha Hb E.
  rewrite (DistanceFacts.calculateDistance_peer_ids a t Ha Ht),
          (DistanceFacts.calculateDistance_peer_ids b t Hb Ht) in E.
  injection E as E.
  assert (U : Spec.unsigned a = Spec.unsigned b).
  { apply N.bits_inj. intros n.
    assert (En : N.testbit (N.lxor (Spec.unsigned a) (Spec.unsigned t)) n
                 = N.testbit (N.lxor (Spec.unsigned b) (Spec.unsigned t)) n)
      by now rewrite E.
    rewrite !N.lxor_spec in En.
    now destruct (N.testbit (Spec.unsigned a) n),
                 (N.testbit (Spec.unsigned b) n),
                 (N.testbit (Spec.unsigned t) n). }
  unfold Identity.is_peer_id in Ha, Hb.
  apply andb_true_iff in Ha as [La Ha], Hb as [Lb Hb].
  apply Nat.eqb_eq in La, Lb.
  apply HexFacts.unsigned_inj; congruence.
Qed.

(** Seen from any peer id, two peer ids are at the same distance only if
    they are the same id: the metric has no ties. *)
Theorem calculateDistance_no_ties (t a b : string) :
  Identity.is_peer_id t = true -> Identity.is_peer_id a = true ->
  Identity.is_peer_id b = true ->
  (calculateDistance a t = calculateDistance b t <-> a = b).
Proof.
  intros Ht Ha Hb. split; [now apply calculateDistance_cancel | now intros ->].
Qed.

Lemma calculateDistance_no_ties_witness :
  calculateDistance Examples.idB Examples.idA
  = calculateDistance Examples.idC Examples.idA
  <-> Examples.idB = Examples.idC.
Proof.
  exact (calculateDistance_no_ties Examples.idA Examples.idB Examples.idC
           eq_refl eq_refl eq_refl).
Defined.

End MetricFacts.

(* ================================================================== *)
(** ** What [findClosestPeers] returns *)

Module ClosestFacts.

Import Net Discovery DiscoveryFacts Closeness.

Section KeySort.

Context {A : Type}.

Variable comparefn : A -> A -> option Z.
Variable key : A -> N.
Variable P : A -> Prop.

Hypothesis comparefn_key :
  forall x y, P x -> P y ->
    comparefn x y = Some (if (key x <? key y)%N then (-1)%Z else 1%Z).

Local Notation "'asc'" := (fun a b => (key a <= key b)%N) (only parsing).

Lemma insert_ascending (x : A) (s : list A) :
  P x -> Forall P s -> StronglySorted asc s ->
  exists out,
    insert comparefn x s = Some out
    /\ StronglySorted asc out /\ Permutation (x :: s) out.
Proof.
  intros Hx. induction s as [|y rest IH]; intros HP Hs.
  - exists [x]. repeat split; auto. repeat constructor.
  - inversion HP as [|? ? Hy Hrest]; subst.
    inversion Hs as [|? ? Hs' Hall]; subst.
    cbn [insert]. rewrite (comparefn_key x y Hx Hy).
    destruct (N.ltb_spec (key x) (key y)) as [Hlt | Hge]; cbn [Z.ltb Z.compare].
    + exists (x :: y :: rest). repeat split; auto.
      constructor; [exact Hs |]. constructor; [lia |].
      eapply Forall_impl; [| exact Hall]. cbn beta. intros z Hz. lia.
    + destruct (IH Hrest Hs') as (out & E & Hout & Hperm).
      rewrite E. cbn [option_map]. exists (y :: out). repeat split.
      * constructor; [exact Hout |].
        apply (Permutation_Forall Hperm). constructor; [exact Hge | exact Hall].
      * rewrite perm_swap. now constructor.
Qed.

Lemma sort_from_ascending (l : list A) :
  forall acc,
    Forall P l -> Forall P acc -> StronglySorted asc acc ->
    exists out,
      fold_left (sort_step comparefn) l (Some acc) = Some out
      /\ StronglySorted asc out /\ Permutation (l ++ acc) out.
Proof.
  induction l as [|x l IH]; intros acc Hl Hacc Hs.
  - exists acc. repeat split; auto.
  - inversion Hl as [|? ? Hx Hl']; subst.
    destruct (insert_ascending x acc Hx Hacc Hs) as (acc' & E & Hs' & Hperm).
    cbn [fold_left sort_step]. rewrite E.
    destruct (IH acc' Hl' (Permutation_Forall Hperm (Forall_cons _ Hx Hacc)) Hs')
      as (out & E' & Hout & Hperm').
    exists out. repeat split; auto.
    rewrite <- Hperm'. rewrite <- Hperm. cbn [app]. apply Permutation_middle.
Qed.

Lemma sort_ascending (l : list A) :
  Forall P l ->
  exists out,
    sort comparefn l = Some out
    /\ StronglySorted asc out /\ Permutation l out.
Proof.
  intros Hl.
  destruct (sort_from_ascending l [] Hl (Forall_nil _) (SSorted_nil _))
    as (out & E & Hs & Hperm).
  exists out. rewrite app_nil_r in Hperm. auto.
Qed.

Lemma ascending_split (l1 l2 : list A) :
  StronglySorted asc (l1 ++ l2) ->
  forall x y, In x l1 -> In y l2 -> (key x <= key y)%N.
Proof.
  induction l1 as [|a l1 IH]; intros Hs x y Hx Hy; [contradiction |].
  cbn [app] in Hs. inversion Hs as [|? ? Hs' Hall]; subst.
  destruct Hx as [<- | Hx].
  - rewrite Forall_forall in Hall. apply Hall, in_or_app. now right.
  - now apply IH.
Qed.

Lemma ascending_strict (l : list A) :
  StronglySorted asc l -> NoDup (map key l) ->
  StronglySorted (fun a b => (key a < key b)%N) l.
Proof.
  induction 1 as [|a l Hs IH Hall]; intros Hnd; [constructor |].
  cbn [map] in Hnd. inversion Hnd as [|? ? Hnotin Hnd']; subst.
  constructor; [now apply IH |].
  rewrite Forall_forall in *. intros z Hz.
  specialize (Hall z Hz). cbn beta in Hall.
  assert (key a <> key z) by (intros E; apply Hnotin; rewrite E; now apply in_map).
  lia.
Qed.

End KeySort.

(** The distance of a peer to the target, for ids of [generatePeerId]. *)
Lemma by_distance_key (targetId : string) (a b : Peer) :
  Identity.is_peer_id targetId = true ->
  Identity.is_peer_id (id a) = true -> Identity.is_peer_id (id b) = true ->
  by_distance targetId a b
  = Some (if (N.lxor (Spec.unsigned (id a)) (Spec.unsigned targetId)
              <? N.lxor (Spec.unsigned (id b)) (Spec.unsigned targetId))%N
          then (-1)%Z else 1%Z).
Proof.
  intros Ht Ha Hb. unfold by_distance.
  now rewrite (DistanceFacts.calculateDistance_peer_ids _ _ Ha Ht),
              (DistanceFacts.calculateDistance_peer_ids _ _ Hb Ht).
Qed.

Lemma findClosestPeers_ascending (targetId : string) (ps : list Peer) (n : nat) :
  Identity.is_peer_id targetId = true -> valid_peers ps ->
  exists sorted,
    findClosestPeers targetId ps n = Some (firstn n sorted)
    /\ Permutation (filter (is_candidate targetId) ps) sorted
    /\ StronglySorted
         (fun a b => (N.lxor (Spec.unsigned (id a)) (Spec.unsigned targetId)
                      <= N.lxor (Spec.unsigned (id b)) (Spec.unsigned targetId))%N)
         sorted.
Proof.
  intros Ht Hps. unfold findClosestPeers.
  destruct (sort_ascending (by_distance targetId)
              (fun p => N.lxor (Spec.unsigned (id p)) (Spec.unsigned targetId))
              (fun p => Identity.is_peer_id (id p) = true)
              (fun x y Hx Hy => by_distance_key targetId x y Ht Hx Hy)
              (filter (is_candidate targetId) ps))
    as (sorted & E & Hs & Hperm).
  { unfold valid_peers in Hps. rewrite Forall_forall in *.
    intros p Hp. apply filter_In in Hp as [Hp _]. now apply Hps. }
  exists sorted. rewrite E. auto.
Qed.

Lemma no_farther_key (targetId : string) (c d : Peer) :
  Identity.is_peer_id targetId = true ->
  Identity.is_peer_id (id c) = true -> Identity.is_peer_id (id d) = true ->
  (N.lxor (Spec.unsigned (id c)) (Spec.unsigned targetId)
   <= N.lxor (Spec.unsigned (id d)) (Spec.unsigned targetId))%N ->
  no_farther targetId c d.
Proof.
  intros Ht Hc Hd Hle. unfold no_farther.
  rewrite (DistanceFacts.calculateDistance_peer_ids _ _ Hc Ht),
          (DistanceFacts.calculateDistance_peer_ids _ _ Hd Ht).
  do 2 eexists. split; [reflexivity | split; [reflexivity | exact Hle]].
Qed.

Lemma closer_key (targetId : string) (c d : Peer) :
  Identity.is_peer_id targetId = true ->
  Identity.is_peer_id (id c) = true -> Identity.is_peer_id (id d) = true ->
  (N.lxor (Spec.unsigned (id c)) (Spec.unsigned targetId)
   < N.lxor (Spec.unsigned (id d)) (Spec.unsigned targetId))%N ->
  closer targetId c d.
Proof.
  intros Ht Hc Hd Hlt. unfold closer.
  rewrite (DistanceFacts.calculateDistance_peer_ids _ _ Hc Ht),
          (DistanceFacts.calculateDistance_peer_ids _ _ Hd Ht).
  do 2 eexists. split; [reflexivity | split; [reflexivity | exact Hlt]].
Qed.

Lemma StronglySorted_weaken {A : Type} (R S : A -> A -> Prop) (P : A -> Prop)
    (l : list A) :
  (forall a b, P a -> P b -> R a b -> S a b) ->
  Forall P l -> StronglySorted R l -> StronglySorted S l.
Proof.
  intros H HP Hs. induction Hs as [|a l Hs IH Hall]; [constructor |].
  inversion HP as [|? ? Ha Hl]; subst.
  constructor; [now apply IH |].
  rewrite Forall_forall in *. intros z Hz. apply H; auto.
Qed.

Lemma StronglySorted_firstn {A : Type} (R : A -> A -> Prop) (n : nat)
    (l : list A) :
  StronglySorted R l -> StronglySorted R (firstn n l).
Proof.
  intros Hs. revert n. induction Hs as [|a l Hs IH Hall]; intros [|n];
    cbn [firstn]; try (now constructor).
  constructor; [apply IH |].
  rewrite Forall_forall in *. intros z Hz. apply Hall.
  now apply (In_firstn n).
Qed.

(** For ids of [generatePeerId], [findClosestPeers] answers its result in
    ascending order of distance to the target, and no candidate it left
    out is closer to the target than one it returned. *)
Theorem findClosestPeers_returns_closest (targetId : string)
    (allPeers : list Peer) (count : nat) :
  Identity.is_peer_id targetId = true -> valid_peers allPeers ->
  exists closestPeers rest,
    findClosestPeers targetId allPeers count = Some closestPeers
    /\ Permutation (filter (is_candidate targetId) allPeers)
         (closestPeers ++ rest)
    /\ StronglySorted (no_farther targetId) closestPeers
    /\ forall c d, In c closestPeers -> In d rest -> no_farther targetId c d.
Proof.
  intros Ht Hps.
  destruct (findClosestPeers_ascending targetId allPeers count Ht Hps)
    as (sorted & E & Hperm & Hs).
  assert (Hvalid : Forall (fun p => Identity.is_peer_id (id p) = true) sorted).
  { apply (Permutation_Forall Hperm).
    unfold valid_peers in Hps. rewrite Forall_forall in *.
    intros p Hp. apply filter_In in Hp as [Hp _]. now apply Hps. }
  exists (firstn count sorted), (skipn count sorted).
  split; [exact E |]. split; [now rewrite firstn_skipn |]. split.
  - apply StronglySorted_firstn.
    apply (StronglySorted_weaken _ _ _ sorted
             (fun a b Ha Hb => no_farther_key targetId a b Ht Ha Hb)
             Hvalid Hs).
  - intros c d Hc Hd.
    rewrite Forall_forall in Hvalid.
    apply no_farther_key; auto.
    + apply Hvalid. now apply (In_firstn count).
    + apply Hvalid. rewrite <- (firstn_skipn count sorted).
      apply in_or_app. now right.
    + rewrite <- (firstn_skipn count sorted) in Hs.
      exact (ascending_split _ _ _ Hs c d Hc Hd).
Qed.

Lemma findClosestPeers_returns_closest_witness :
  exists closestPeers rest,
    findClosestPeers Examples.idA (peers Examples.five) 3 = Some closestPeers
    /\ Permutation (filter (is_candidate Examples.idA) (peers Examples.five))
         (closestPeers ++ rest)
    /\ StronglySorted (no_farther Examples.idA) closestPeers
    /\ forall c d, In c closestPeers -> In d rest ->
                   no_farther Examples.idA c d.
Proof.
  apply (findClosestPeers_returns_closest Examples.idA (peers Examples.five) 3).
  - reflexivity.
  - unfold valid_peers. simpl. repeat constructor.
Defined.

Lemma NoDup_map_coarser {A B C : Type} (f : A -> B) (g : A -> C) (l : list A) :
  (forall x y, In x l -> In y l -> g x = g y -> f x = f y) ->
  NoDup (map f l) -> NoDup (map g l).
Proof.
  induction l as [|a l IH]; intros Hinj Hnd; [constructor |].
  cbn [map] in *. inversion Hnd as [|? ? Hnotin Hnd']; subst.
  constructor.
  - intros Hin. apply Hnotin. apply in_map_iff in Hin as (b & E & Hb).
    rewrite <- (Hinj b a (or_intror Hb) (or_introl eq_refl) E).
    now apply in_map.
  - apply IH; [| exact Hnd']. intros x y Hx Hy. apply Hinj; now right.
Qed.

(** With unique ids of [generatePeerId] the comparator never meets a tie:
    the result is in strictly ascending order of distance, and its ids
    are unique. *)
Theorem findClosestPeers_strictly_ascending (targetId : string)
    (allPeers : list Peer) (count : nat) :
  Identity.is_peer_id targetId = true -> valid_peers allPeers ->
  NoDup (map id allPeers) ->
  exists closestPeers,
    findClosestPeers targetId allPeers count = Some closestPeers
    /\ StronglySorted (closer targetId) closestPeers
    /\ NoDup (map id closestPeers).
Proof.
  intros Ht Hps Hnd.
  destruct (findClosestPeers_ascending targetId allPeers count Ht Hps)
    as (sorted & E & Hperm & Hs).
  assert (Hvalid : Forall (fun p => Identity.is_peer_id (id p) = true) sorted).
  { apply (Permutation_Forall Hperm).
    unfold valid_peers in Hps. rewrite Forall_forall in *.
    intros p Hp. apply filter_In in Hp as [Hp _]. now apply Hps. }
  assert (Hids : NoDup (map id sorted)).
  { apply (Permutation_NoDup (Permutation_map id Hperm)).
    now apply NoDup_map_filter. }
  exists (firstn count sorted). split; [exact E |]. split.
  - apply StronglySorted_firstn.
    apply (StronglySorted_weaken
             (fun a b => (N.lxor (Spec.unsigned (id a)) (Spec.unsigned targetId)
                          < N.lxor (Spec.unsigned (id b)) (Spec.unsigned targetId))%N)
             _ _ sorted
             (fun a b Ha Hb => closer_key targetId a b Ht Ha Hb) Hvalid).
    apply (ascending_strict
             (fun p => N.lxor (Spec.unsigned (id p)) (Spec.unsigned targetId)));
      [exact Hs |].
    apply (NoDup_map_coarser id); [| exact Hids].
    intros x y Hx Hy Hkey. rewrite Forall_forall in Hvalid.
    apply (MetricFacts.calculateDistance_cancel targetId); auto.
    rewrite (DistanceFacts.calculateDistance_peer_ids _ _ (Hvalid x Hx) Ht),
            (DistanceFacts.calculateDistance_peer_ids _ _ (Hvalid y Hy) Ht).
    now f_equal.
  - rewrite <- firstn_map. now apply NoDup_firstn.
Qed.

Lemma findClosestPeers_strictly_ascending_witness :
  exists closestPeers,
    findClosestPeers Examples.idA (peers Examples.five) 3 = Some closestPeers
    /\ StronglySorted (closer Examples.idA) closestPeers
    /\ NoDup (map id closestPeers).
Proof.
  apply (findClosestPeers_strictly_ascending Examples.idA
           (peers Examples.five) 3).
  - reflexivity.
  - unfold valid_peers. simpl. repeat constructor.
  - simpl. repeat constructor; simpl; intuition discriminate.
Defined.

(** What [findClosestPeers] returns when it returns: the first [count]
    candidates of some order, all of them when they are at most [count];
    every one is a peer of the input with another id than the target. *)
Theorem findClosestPeers_selects_candidates (targetId : string)
    (allPeers closestPeers : list Peer) (count : nat) :
  findClosestPeers targetId allPeers count = Some closestPeers ->
  List.length closestPeers
  = Nat.min count (List.length (filter (is_candidate targetId) allPeers))
  /\ (forall c, In c closestPeers -> In c allPeers /\ id c <> targetId)
  /\ ((List.length (filter (is_candidate targetId) allPeers) <= count)%nat ->
      Permutation (filter (is_candidate targetId) allPeers) closestPeers).
Proof.
  unfold findClosestPeers. intros H.
  destruct (sort (by_distance targetId) (filter (is_candidate targetId) allPeers))
    as [sorted|] eqn:E; [| discriminate].
  cbn [option_map] in H. injection H as <-.
  pose proof (sort_perm _ _ _ E) as Hperm.
  split; [| split].
  - now rewrite length_firstn, (Permutation_length Hperm).
  - intros c Hc. apply In_firstn in Hc.
    apply (Permutation_in _ (Permutation_sym Hperm)) in Hc.
    apply filter_In in Hc as [Hin Hcand]. split; [exact Hin |].
    unfold is_candidate in Hcand. apply negb_true_iff in Hcand.
    now apply String.eqb_neq.
  - intros Hle. rewrite firstn_all2; [exact Hperm |].
    now rewrite <- (Permutation_length Hperm).
Qed.

Lemma findClosestPeers_selects_candidates_witness :
  List.length [Examples.fresh Examples.idB]
  = Nat.min 3 (List.length (filter (is_candidate Examples.idA)
                              (peers (Coordinator.net Examples.world2))))
  /\ (forall c, In c [Examples.fresh Examples.idB] ->
                In c (peers (Coordinator.net Examples.world2))
                /\ id c <> Examples.idA)
  /\ ((List.length (filter (is_candidate Examples.idA)
                      (peers (Coordinator.net Examples.world2))) <= 3)%nat ->
      Permutation (filter (is_candidate Examples.idA)
                     (peers (Coordinator.net Examples.world2)))
        [Examples.fresh Examples.idB]).
Proof.
  apply (findClosestPeers_selects_candidates Examples.idA
           (peers (Coordinator.net Examples.world2))
           [Examples.fresh Examples.idB] 3).
  reflexivity.
Defined.

(** *** When [findClosestPeers] throws *)

Lemma by_distance_some (targetId : string) (a b : Peer) (c : Z) :
  by_distance targetId a b = Some c ->
  Hex.parseBigInt targetId <> None
  /\ Hex.parseBigInt (id a) <> None /\ Hex.parseBigInt (id b) <> None.
Proof.
  unfold by_distance, Distance.calculateDistance.
  destruct (Hex.parseBigInt (id a)), (Hex.parseBigInt targetId),
           (Hex.parseBigInt (id b)); intros H; try discriminate;
    repeat split; discriminate.
Qed.

Lemma by_distance_hex (targetId : string) (a b : Peer) :
  Hex.parseBigInt targetId <> None ->
  Hex.parseBigInt (id a) <> None -> Hex.parseBigInt (id b) <> None ->
  by_distance targetId a b <> None.
Proof.
  unfold by_distance, Distance.calculateDistance.
  destruct (Hex.parseBigInt (id a)), (Hex.parseBigInt targetId),
           (Hex.parseBigInt (id b)); intros Ht Ha Hb; try contradiction;
    discriminate.
Qed.

(** Either the comparator was never called, or every id was parsed. *)
Lemma insert_parsed (targetId : string) (x : Peer) (s out : list Peer) :
  insert (by_distance targetId) x s = Some out ->
  ((List.length s <= 1)%nat
   \/ (Hex.parseBigInt targetId <> None
       /\ Forall (fun p => Hex.parseBigInt (id p) <> None) s)) ->
  List.length out = S (List.length s)
  /\ ((List.length out <= 1)%nat
      \/ (Hex.parseBigInt targetId <> None
          /\ Forall (fun p => Hex.parseBigInt (id p) <> None) out)).
Proof.
  intros E Hinv. pose proof (insert_perm _ _ _ _ E) as Hperm.
  split; [now rewrite <- (Permutation_length Hperm) |].
  destruct s as [|y rest].
  - cbn [insert] in E. injection E as <-. left. cbn [List.length]. lia.
  - right. cbn [insert] in E.
    destruct (by_distance targetId x y) as [c|] eqn:Ec; [| discriminate].
    apply by_distance_some in Ec as (Ht & Hx & Hy).
    split; [exact Ht |]. apply (Permutation_Forall Hperm).
    constructor; [exact Hx |].
    destruct Hinv as [Hlen | [_ Hall]]; [| exact Hall].
    destruct rest; [now repeat constructor | cbn [List.length] in Hlen; lia].
Qed.

Lemma sort_from_parsed (targetId : string) (l : list Peer) :
  forall acc out,
    fold_left (sort_step (by_distance targetId)) l (Some acc) = Some out ->
    ((List.length acc <= 1)%nat
     \/ (Hex.parseBigInt targetId <> None
         /\ Forall (fun p => Hex.parseBigInt (id p) <> None) acc)) ->
    List.length out = (List.length l + List.length acc)%nat
    /\ ((List.length out <= 1)%nat
        \/ (Hex.parseBigInt targetId <> None
            /\ Forall (fun p => Hex.parseBigInt (id p) <> None) out)).
Proof.
  induction l as [|x l IH]; intros acc out E Hinv.
  - cbn [fold_left] in E. injection E as <-. auto.
  - cbn [fold_left sort_step] in E.
    destruct (insert (by_distance targetId) x acc) as [acc'|] eqn:Ei.
    + destruct (insert_parsed _ _ _ _ Ei Hinv) as [Hlen Hinv'].
      destruct (IH acc' out E Hinv') as [Hlen' Hout].
      split; [cbn [List.length]; lia | exact Hout].
    + rewrite sort_step_none in E. discriminate.
Qed.

(** [findClosestPeers] throws exactly when at least two candidates are
    compared and [BigInt] rejects the target id or the id of a candidate;
    with fewer than two candidates the comparator is never called. *)
Theorem findClosestPeers_throws_iff (targetId : string)
    (allPeers : list Peer) (count : nat) :
  findClosestPeers targetId allPeers count = None
  <-> (2 <= List.length (filter (is_candidate targetId) allPeers))%nat
      /\ (Hex.parseBigInt targetId = None
          \/ Exists not_hex (filter (is_candidate targetId) allPeers)).
Proof.
  unfold findClosestPeers.
  set (cands := filter (is_candidate targetId) allPeers).
  split.
  - intros H.
    destruct (sort (by_distance targetId) cands) as [out|] eqn:E;
      [discriminate |]. clear H.
    assert (Hlen : (2 <= List.length cands)%nat).
    { destruct cands as [|a [|b rest]]; try discriminate E.
      cbn [List.length]. lia. }
    split; [exact Hlen |].
    destruct (Hex.parseBigInt targetId) as [nt|] eqn:Et; [| now left].
    right.
    destruct (Exists_dec not_hex cands) as [Hfound | Hnone]; [| exact Hfound |].
    + intros p. unfold not_hex.
      destruct (Hex.parseBigInt (id p)); [right; discriminate | now left].
    + exfalso. apply Forall_Exists_neg in Hnone.
      destruct (sort_total (by_distance targetId) cands) as [out E'].
      * rewrite Forall_forall in Hnone. intros x y Hx Hy.
        apply by_distance_hex; [rewrite Et; discriminate | |];
          [exact (Hnone x Hx) | exact (Hnone y Hy)].
      * rewrite E in E'. discriminate.
  - intros [Hlen Hbad].
    destruct (sort (by_distance targetId) cands) as [out|] eqn:E;
      [| reflexivity].
    exfalso.
    destruct (sort_from_parsed targetId cands [] out E) as [Hlen' Hinv].
    { left. cbn [List.length]. lia. }
    cbn [List.length] in Hlen'. rewrite Nat.add_0_r in Hlen'.
    destruct Hinv as [Hshort | [Ht Hall]]; [lia |].
    destruct Hbad as [Hbad | Hbad]; [contradiction |].
    apply Exists_exists in Hbad as (p & Hp & Hnot).
    apply (Permutation_Forall (Permutation_sym (sort_perm _ _ _ E))) in Hall.
    rewrite Forall_forall in Hall. exact (Hall p Hp Hnot).
Qed.

End ClosestFacts.

(* ================================================================== *)
(** ** The log of a round, and a round repeated *)

Module RoundLogFacts.

Import Net Discovery DiscoveryFacts RoundLog.

Lemma remove_stale_keeps_all (newPeerIds : list string) (table : RoutingTable) :
  filter (fun e => includes newPeerIds (fst e)
                   || negb (includes (JsMap.keys table) (fst e))) table
  = filter (fun e => includes newPeerIds (fst e)) table.
Proof.
  apply filter_ext_in. intros e He.
  assert (H : includes (JsMap.keys table) (fst e) = true).
  { apply includes_In. unfold JsMap.keys. now apply in_map. }
  rewrite H. cbn [negb]. apply orb_false_r.
Qed.

(** The served peer: the lines its table costs, and where its new table
    comes from. *)
Lemma update_peer_served (now : nat -> Q) (peerId : string)
    (closestPeers : list Peer) (p : Peer) (r : Round) :
  Identity.is_peer_id peerId = true -> valid_peers closestPeers ->
  JsMap.wf (routingTable p) -> id p = peerId ->
  exists p' r',
    update_peer now peerId closestPeers p r = Some (p', r')
    /\ logs r' = logs r ++ table_lines peerId closestPeers (routingTable p)
    /\ Spec.round_result peerId closestPeers p p'
    /\ (closestPeers <> [] ->
        exists r0 r1,
          forEach (upsert now peerId) closestPeers
            (filter (fun e => includes (map id closestPeers) (fst e))
               (routingTable p)) r0
          = Some (routingTable p', r1)).
Proof.
  intros Hp Hvalid Hwf Hid.
  destruct (update_peer_result now peerId closestPeers p r Hp Hvalid Hwf)
    as (p' & r' & E & HR).
  exists p', r'. split; [exact E |].
  unfold update_peer in E. rewrite Hid, String.eqb_refl in E.
  destruct closestPeers as [|c cs].
  - cbn in E. injection E as <- <-. cbn [logs table_lines].
    split; [reflexivity |]. split; [exact HR |]. intros H. now contradiction H.
  - cbn [List.length Nat.eqb] in E. unfold bind at 1 in E. unfold bind at 1 in E.
    rewrite forEach_remove_stale, remove_stale_keeps_all in E.
    set (kept := filter _ (routingTable p)) in *.
    set (r1 := {| logs := _; clock_reads := _ |}) in *.
    destruct (forEach_upsert now peerId (c :: cs) Hp Hvalid kept r1
                (JsMapFacts.wf_filter _ _ Hwf))
      as (table' & r2 & Eu & Hlogs & _).
    rewrite Eu in E. unfold ret in E. injection E as <- <-.
    cbn [routingTable]. split; [| split; [exact HR |]].
    + rewrite Hlogs. reflexivity.
    + intros _. exists r1, r2. exact Eu.
Qed.

Lemma unique_owner (ps : list Peer) (p q : Peer) :
  NoDup (map id ps) -> In p ps -> In q ps -> id p = id q -> p = q.
Proof.
  induction ps as [|a ps IH]; intros Hnd Hp Hq E; [contradiction |].
  cbn [map] in Hnd. inversion Hnd as [|? ? Hnotin Hnd']; subst.
  destruct Hp as [<- | Hp], Hq as [<- | Hq]; auto.
  - exfalso. apply Hnotin. rewrite E. now apply in_map.
  - exfalso. apply Hnotin. rewrite <- E. now apply in_map.
Qed.

Lemma mapM_served (now : nat -> Q) (peerId : string)
    (closestPeers ps : list Peer) (p : Peer) :
  Identity.is_peer_id peerId = true -> valid_peers closestPeers ->
  NoDup (map id ps) -> In p ps -> id p = peerId ->
  JsMap.wf (routingTable p) ->
  forall r,
    exists ps' r' p',
      mapM (update_peer now peerId closestPeers) ps r = Some (ps', r')
      /\ logs r' = logs r ++ table_lines peerId closestPeers (routingTable p)
      /\ In p' ps'
      /\ Spec.round_result peerId closestPeers p p'
      /\ (closestPeers <> [] ->
          exists r0 r1,
            forEach (upsert now peerId) closestPeers
              (filter (fun e => includes (map id closestPeers) (fst e))
                 (routingTable p)) r0
            = Some (routingTable p', r1)).
Proof.
  intros Hp Hvalid. induction ps as [|q ps IH]; intros Hnd Hin Hid Hwf r;
    [contradiction |].
  cbn [map] in Hnd. inversion Hnd as [|? ? Hnotin Hnd']; subst.
  cbn [mapM]. unfold bind.
  destruct Hin as [-> | Hin].
  - destruct (update_peer_served now (id p) closestPeers p r Hp Hvalid Hwf eq_refl)
      as (p' & r1 & E & Hlogs & HR & Hfrom).
    rewrite E, (RoundTheorems.mapM_absent now (id p) closestPeers ps Hnotin).
    unfold ret. exists (p' :: ps), r1, p'.
    split; [reflexivity |]. split; [exact Hlogs |].
    split; [now left |]. split; [exact HR | exact Hfrom].
  - assert (Hne : id q <> id p).
    { intros E. apply Hnotin. rewrite E. now apply in_map. }
    rewrite (RoundTheorems.update_peer_other now (id p) closestPeers q r Hne).
    destruct (IH Hnd' Hin eq_refl Hwf r)
      as (ps' & r' & p' & E & Hlogs & Hin' & HR & Hfrom).
    rewrite E. unfold ret. exists (q :: ps'), r', p'.
    split; [reflexivity |]. split; [exact Hlogs |].
    split; [now right |]. split; [exact HR | exact Hfrom].
Qed.

(** All that a round does when it serves a peer of a network with unique
    ids. *)
Lemma discover_served (now : nat -> Q) (peerId : string) (s : Network)
    (p : Peer) :
  Identity.is_peer_id peerId = true -> Coordinator.well_formed s ->
  NoDup (ids s) -> In p (peers s) -> id p = peerId ->
  exists sorted s' p',
    Permutation (Spec.candidates peerId s) sorted
    /\ findClosestPeers peerId (peers s) default_count
       = Some (firstn default_count sorted)
    /\ discover now peerId s = Some s'
    /\ Forall2 (Spec.round_result peerId (firstn default_count sorted))
         (peers s) (peers s')
    /\ discoveryLogs s'
       = discoveryLogs s
         ++ [msg_discovering peerId]
         ++ table_lines peerId (firstn default_count sorted) (routingTable p)
         ++ [msg_found peerId (List.length (firstn default_count sorted))]
    /\ In p' (peers s')
    /\ Spec.round_result peerId (firstn default_count sorted) p p'
    /\ (firstn default_count sorted <> [] ->
        exists r0 r1,
          forEach (upsert now peerId) (firstn default_count sorted)
            (filter (fun e => includes (map id (firstn default_count sorted))
                                (fst e))
               (routingTable p)) r0
          = Some (routingTable p', r1)).
Proof.
  intros Hp Hwf Hnd Hin Hid.
  destruct (discover_total now peerId s Hp Hwf)
    as (sorted & s' & Hperm & Hfind & Hrun & HR & _).
  pose proof (candidates_valid peerId s sorted default_count
                (well_formed_valid s Hwf) Hperm) as Hclosest.
  assert (Hwfp : JsMap.wf (routingTable p)).
  { unfold Coordinator.well_formed in Hwf. rewrite Forall_forall in Hwf.
    now apply Hwf. }
  destruct (mapM_served now peerId (firstn default_count sorted) (peers s) p
              Hp Hclosest Hnd Hin Hid Hwfp
              {| logs := discoveryLogs s ++ [msg_discovering peerId];
                 clock_reads := 0 |})
    as (ps' & r' & p' & E & Hlogs & Hin' & HRp & Hfrom).
  exists sorted, s', p'.
  split; [exact Hperm |]. split; [exact Hfind |]. split; [exact Hrun |].
  split; [exact HR |].
  unfold discover in Hrun. rewrite discover_round_unfold, Hfind in Hrun.
  cbn [logs clock_reads] in Hrun. rewrite E in Hrun. injection Hrun as <-.
  cbn [discoveryLogs peers]. split.
  - rewrite Hlogs. cbn [logs]. now rewrite <- !app_assoc.
  - split; [exact Hin' |]. split; [exact HRp | exact Hfrom].
Qed.

(** A round for a peer of a network with unique ids appends, in this
    order: "discovering"; "cleared" if it found no candidate, otherwise one
    "removed" line for each key it prunes, in the order of the table; and
    "found n". *)
Theorem round_log_lines (now : nat -> Q) (peerId : string) (s : Network)
    (p : Peer) :
  Identity.is_peer_id peerId = true -> Coordinator.well_formed s ->
  NoDup (ids s) -> In p (peers s) -> id p = peerId ->
  exists closestPeers s',
    findClosestPeers peerId (peers s) default_count = Some closestPeers
    /\ discover now peerId s = Some s'
    /\ discoveryLogs s'
       = discoveryLogs s
         ++ [msg_discovering peerId]
         ++ table_lines peerId closestPeers (routingTable p)
         ++ [msg_found peerId (List.length closestPeers)].
Proof.
  intros Hp Hwf Hnd Hin Hid.
  destruct (discover_served now peerId s p Hp Hwf Hnd Hin Hid)
    as (sorted & s' & _ & _ & Hfind & Hrun & _ & Hlogs & _).
  exists (firstn default_count sorted), s'. auto.
Qed.

Lemma round_log_lines_witness :
  exists s',
    discover Examples.now0 Examples.idA
      (Coordinator.removePeer Examples.idE Examples.five_after_round)
    = Some s'
    /\ discoveryLogs s'
       = [msg_discovering Examples.idA; msg_found Examples.idA 3;
          msg_discovering Examples.idA;
          msg_removed Examples.idA Examples.idE;
          msg_found Examples.idA 3].
Proof.
  destruct (round_log_lines Examples.now0 Examples.idA
              (Coordinator.removePeer Examples.idE Examples.five_after_round)
              Examples.peerA_connected)
    as (closestPeers & s' & Hfind & Hrun & Hlogs).
  - reflexivity.
  - unfold Coordinator.well_formed. simpl.
    repeat constructor; simpl; intuition discriminate.
  - simpl. repeat constructor; simpl; intuition discriminate.
  - simpl. now left.
  - reflexivity.
  - exists s'. split; [exact Hrun |].
    vm_compute in Hfind. injection Hfind as <-.
    rewrite Hlogs. vm_compute. reflexivity.
Defined.

(** *** The same round again *)

Lemma keys_set_present {V : Type} (k : string) (v : V) (m : JsMap.t V) :
  In k (JsMap.keys m) -> JsMap.keys (JsMap.set k v m) = JsMap.keys m.
Proof.
  unfold JsMap.keys. induction m as [|[k0 v0] m IH]; cbn [map fst JsMap.set];
    intros Hin; [contradiction |].
  destruct (String.eqb_spec k0 k) as [-> | Hne]; [reflexivity |].
  cbn [map fst]. f_equal. apply IH.
  destruct Hin as [E | Hin]; [contradiction | exact Hin].
Qed.

Lemma forEach_upsert_keeps_keys (now : nat -> Q) (peerId : string)
    (closestPeers : list Peer) :
  forall table r table' r',
    (forall c, In c closestPeers -> In (id c) (JsMap.keys table)) ->
    forEach (upsert now peerId) closestPeers table r = Some (table', r') ->
    JsMap.keys table' = JsMap.keys table.
Proof.
  induction closestPeers as [|c cs IH]; intros table r table' r' Hall E.
  - cbn in E. now injection E as <- <-.
  - cbn [forEach] in E. unfold bind at 1 in E. unfold upsert at 1 in E.
    unfold bind at 1, or_throw in E.
    destruct (Distance.calculateDistance peerId (id c)) as [d|];
      [| discriminate].
    unfold bind at 1, date_now, ret at 1 in E.
    apply IH in E.
    + rewrite E. apply keys_set_present, Hall. now left.
    + intros c' Hc'. rewrite JsMapFacts.in_keys_set. right.
      apply Hall. now right.
Qed.

Lemma routes_determined (f : string -> option N) (t1 : RoutingTable) :
  forall t2 : RoutingTable,
    JsMap.keys t1 = JsMap.keys t2 ->
    (forall k v, In (k, v) t1 -> f k = Some (distance v)) ->
    (forall k v, In (k, v) t2 -> f k = Some (distance v)) ->
    routes t1 = routes t2.
Proof.
  unfold JsMap.keys, routes.
  induction t1 as [|[k1 v1] t1 IH]; intros [|[k2 v2] t2] Hkeys H1 H2;
    try discriminate; [reflexivity |].
  cbn [map fst snd] in *. injection Hkeys as -> Hkeys.
  pose proof (H1 k2 v1 (or_introl eq_refl)) as E1.
  pose proof (H2 k2 v2 (or_introl eq_refl)) as E2.
  rewrite E1 in E2. injection E2 as ->.
  f_equal. apply IH; auto.
  - intros k v Hin. apply H1. now right.
  - intros k v Hin. apply H2. now right.
Qed.

Lemma filter_none {A : Type} (f : A -> bool) (l : list A) :
  (forall x, In x l -> f x = false) -> filter f l = [].
Proof.
  induction l as [|a l IH]; intros H; [reflexivity |].
  cbn [filter]. rewrite (H a (or_introl eq_refl)).
  apply IH. intros x Hx. apply H. now right.
Qed.

Lemma round_keeps_candidates (peerId : string) (closestPeers : list Peer)
    (ps ps' : list Peer) :
  Forall2 (Spec.round_result peerId closestPeers) ps ps' ->
  filter (is_candidate peerId) ps' = filter (is_candidate peerId) ps.
Proof.
  induction 1 as [|p p' ps ps' (Hid & _ & Hframe & _) _ IH]; [reflexivity |].
  cbn [filter]. rewrite IH.
  assert (E : is_candidate peerId p' = is_candidate peerId p)
    by (unfold is_candidate; now rewrite Hid).
  rewrite E. unfold is_candidate.
  destruct (String.eqb_spec (id p) peerId) as [Heq | Hne]; cbn [negb].
  - reflexivity.
  - now rewrite (Hframe Hne).
Qed.

(** In a network with unique ids, a round that follows a round for the
    same peer, with nothing in between, finds the same closest peers,
    prunes nothing and leaves the same keys and distances in the table:
    it logs "discovering" and "found n" (and "cleared" again if there is
    no candidate) and touches no other peer. *)
Theorem repeated_round_is_quiet (now1 now2 : nat -> Q) (peerId : string)
    (s : Network) (p : Peer) :
  Identity.is_peer_id peerId = true -> Coordinator.well_formed s ->
  NoDup (ids s) -> In p (peers s) -> id p = peerId ->
  exists closestPeers s1 s2 p1 p2,
    findClosestPeers peerId (peers s) default_count = Some closestPeers
    /\ findClosestPeers peerId (peers s1) default_count = Some closestPeers
    /\ discover now1 peerId s = Some s1
    /\ discover now2 peerId s1 = Some s2
    /\ In p1 (peers s1) /\ id p1 = peerId
    /\ In p2 (peers s2) /\ id p2 = peerId
    /\ routes (routingTable p2) = routes (routingTable p1)
    /\ status p2 = status p1
    /\ (forall q, In q (peers s1) -> id q <> peerId -> In q (peers s2))
    /\ discoveryLogs s2
       = discoveryLogs s1
         ++ [msg_discovering peerId]
         ++ match closestPeers with [] => [msg_cleared peerId] | _ => [] end
         ++ [msg_found peerId (List.length closestPeers)].
Proof.
  intros Hp Hwf Hnd Hin Hid.
  destruct (discover_served now1 peerId s p Hp Hwf Hnd Hin Hid)
    as (sorted & s1 & p1 & Hperm & Hfind & Hrun1 & HR1 & _ & Hin1 & HRp1 & _).
  set (closestPeers := firstn default_count sorted) in *.
  pose proof (round_keeps_well_formed _ _ _ _ Hwf HR1) as Hwf1.
  assert (Hids1 : ids s1 = ids s) by exact (round_keeps_ids _ _ _ _ HR1).
  assert (Hnd1 : NoDup (ids s1)) by now rewrite Hids1.
  destruct HRp1 as (Hid1 & _ & _ & Hown1).
  assert (Hid1' : id p1 = peerId) by congruence.
  destruct (Hown1 Hid) as (Hst1 & Hwft1 & Hkeys1 & Hdist1).
  destruct (discover_served now2 peerId s1 p1 Hp Hwf1 Hnd1 Hin1 Hid1')
    as (sorted2 & s2 & p2 & Hperm2 & Hfind2 & Hrun2 & HR2 & Hlogs2 & Hin2
        & HRp2 & Hfrom2).
  assert (Hsame : findClosestPeers peerId (peers s1) default_count
                  = Some closestPeers).
  { unfold findClosestPeers. rewrite (round_keeps_candidates _ _ _ _ HR1).
    exact Hfind. }
  assert (Hcl : firstn default_count sorted2 = closestPeers) by congruence.
  rewrite Hcl in *. clear Hcl Hfind2.
  destruct HRp2 as (Hid2 & _ & _ & Hown2).
  destruct (Hown2 Hid1') as (Hst2 & Hwft2 & Hkeys2 & Hdist2).
  assert (Hall : forall e, In e (routingTable p1) ->
                           includes (map id closestPeers) (fst e) = true).
  { intros e He. apply includes_In, Hkeys1. unfold JsMap.keys.
    now apply in_map. }
  exists closestPeers, s1, s2, p1, p2.
  split; [exact Hfind |]. split; [exact Hsame |].
  split; [exact Hrun1 |]. split; [exact Hrun2 |].
  split; [exact Hin1 |]. split; [exact Hid1' |].
  split; [exact Hin2 |]. split; [congruence |].
  split; [| split; [congruence | split]].
  - symmetry.
    apply (routes_determined (Distance.calculateDistance peerId));
      [| exact Hdist1 | exact Hdist2].
    destruct closestPeers as [|c cs] eqn:Ecl.
    + assert (E1 : routingTable p1 = []).
      { destruct (routingTable p1) as [|[k v] t]; [reflexivity |].
        exfalso. apply (Hkeys1 k). now left. }
      assert (E2 : routingTable p2 = []).
      { destruct (routingTable p2) as [|[k v] t]; [reflexivity |].
        exfalso. apply (Hkeys2 k). now left. }
      now rewrite E1, E2.
    + destruct Hfrom2 as (r0 & r1 & Eu); [discriminate |].
      rewrite (forallb_filter_id _ (routingTable p1)) in Eu.
      * symmetry. apply (forEach_upsert_keeps_keys _ _ _ _ _ _ _ (fun c' Hc' =>
          proj2 (Hkeys1 (id c')) (in_map id _ c' Hc')) Eu).
      * apply forallb_forall. exact Hall.
  - intros q Hq Hne. exact (round_frames_others _ _ _ _ _ HR2 Hq Hne).
  - rewrite Hlogs2. f_equal. f_equal.
    unfold table_lines. destruct closestPeers as [|c cs]; [reflexivity |].
    f_equal. unfold pruned_keys.
    replace (filter _ (JsMap.keys (routingTable p1))) with (@nil string);
      [reflexivity |].
    symmetry. apply filter_none.
    intros k Hk. apply Hkeys1 in Hk. apply includes_In in Hk.
    now rewrite Hk.
Qed.

Lemma repeated_round_is_quiet_witness :
  exists closestPeers s1 s2 p1 p2,
    findClosestPeers Examples.idA (peers Examples.five) default_count
    = Some closestPeers
    /\ findClosestPeers Examples.idA (peers s1) default_count
       = Some closestPeers
    /\ discover Examples.now0 Examples.idA Examples.five = Some s1
    /\ discover Examples.now0 Examples.idA s1 = Some s2
    /\ In p1 (peers s1) /\ id p1 = Examples.idA
    /\ In p2 (peers s2) /\ id p2 = Examples.idA
    /\ routes (routingTable p2) = routes (routingTable p1)
    /\ status p2 = status p1
    /\ (forall q, In q (peers s1) -> id q <> Examples.idA -> In q (peers s2))
    /\ discoveryLogs s2
       = discoveryLogs s1
         ++ [msg_discovering Examples.idA]
         ++ match closestPeers with
            | [] => [msg_cleared Examples.idA]
            | _ => []
            end
         ++ [msg_found Examples.idA (List.length closestPeers)].
Proof.
  apply (repeated_round_is_quiet Examples.now0 Examples.now0 Examples.idA
           Examples.five (Examples.fresh Examples.idA)).
  - reflexivity.
  - unfold Coordinator.well_formed. simpl. repeat constructor; intros [].
  - simpl. repeat constructor; simpl; intuition discriminate.
  - simpl. now left.
  - reflexivity.
Defined.

End RoundLogFacts.

(* ================================================================== *)
(** ** More invariants of the event loop *)

Module InvariantFacts.

Import Net Discovery DiscoveryFacts Coordinator View.

(** The run of [Examples]: two joins, a round started and completed. *)
Ltac reach_world4 :=
  apply (reachable_step Examples.world3);
  [ apply (reachable_step Examples.world2);
    [ apply (reachable_step Examples.world1);
      [ apply (reachable_step mounted);
        [ exact reachable_mounted
        | exact (step_join Examples.idA (Examples.now0 0) mounted eq_refl) ]
      | exact (step_join Examples.idB (Examples.now0 0) Examples.world1
                 eq_refl) ]
    | exact (step_start Examples.idA Examples.world2 eq_refl) ]
  | apply (step_complete Examples.now0 [] Examples.idA [] Examples.world3
             Examples.round3); [reflexivity | vm_compute; reflexivity] ].

(** A property of single peers that creation establishes and that a
    refreshed copy and a round keep holds of every peer of a reachable
    world. *)
Lemma reachable_Forall (Q : Peer -> Prop) :
  (forall newId now, Q (createPeer newId now)) ->
  (forall p t, Q p ->
     Q {| id := id p; routingTable := routingTable p; lastSeen := t;
          status := status p |}) ->
  (forall peerId sorted p p',
     Spec.round_result peerId (firstn default_count sorted) p p' ->
     Q p -> Q p') ->
  forall w, reachable w -> Forall Q (peers (net w)).
Proof.
  intros Hnew Hcopy Hround w Hreach.
  induction Hreach as [|w w' Hreach IH Hstep]; [constructor |].
  pose proof (CoordinatorFacts.reachable_invariant w Hreach) as (Hwf & _ & Hfl).
  destruct Hstep as [newId now w Hid | newId now w Hid | peerId w
                    | peerId w Hid | seen w
                    | now before peerId after w s' Hsplit Hrun | v w | w];
    cbn [net in_flight peers joinNetwork makeAnotherPeer removePeer tick
         trimEffect] in *.
  - apply Forall_app. split; [exact IH | now repeat constructor].
  - apply Forall_app. split; [exact IH | now repeat constructor].
  - now apply CoordinatorFacts.Forall_filter_keep.
  - exact IH.
  - generalize 0%nat. induction IH as [|p ps Hp _ IHps]; intros n;
      cbn [refresh]; constructor; auto.
  - assert (Hp : Identity.is_peer_id peerId = true).
    { rewrite Hsplit in Hfl. apply Forall_app in Hfl as [_ Hfl].
      now inversion Hfl. }
    destruct (discover_total now peerId (net w) Hp Hwf)
      as (sorted & s'' & _ & _ & Hrun' & HR & _).
    rewrite Hrun in Hrun'. injection Hrun' as <-.
    clear Hrun Hwf. revert IH. generalize (peers (net w)) (peers s') HR.
    induction 1 as [|p p' ps ps' HRp _ IHps]; intros Hall; [constructor |].
    inversion Hall; subst. constructor; [| now apply IHps].
    now apply (Hround peerId sorted p p').
  - unfold onLatencyChange. destruct (v =? networkLatency (net w))%Z;
      cbn [peers]; [exact IH | constructor].
  - exact IH.
Qed.

Lemma served_table_bound (peerId : string) (sorted : list Peer)
    (table : RoutingTable) :
  Spec.table_after peerId (firstn default_count sorted) table ->
  (JsMap.size table <= default_count)%nat.
Proof.
  intros (Hwf & Hkeys & _).
  transitivity (List.length (map id (firstn default_count sorted))).
  - apply JsMapFacts.size_le_of_keys; [exact Hwf |].
    intros k Hk. now apply Hkeys.
  - rewrite length_map, length_firstn. apply Nat.le_min_l.
Qed.

Lemma connectionCount_sum (s : Network) :
  connectionCount s
  = list_sum (map (fun p => JsMap.size (routingTable p)) (peers s)).
Proof.
  unfold connectionCount, js_or, js_and.
  assert (E : forall ps acc,
            fold_left (fun agg curr => (JsMap.size (routingTable curr) + agg)%nat)
              ps acc
            = (acc + list_sum (map (fun p => JsMap.size (routingTable p)) ps))%nat).
  { induction ps as [|p ps IH]; intros acc; simpl;
      [lia | rewrite IH; lia]. }
  rewrite E. destruct (peers s) as [|p ps]; [reflexivity |].
  cbn [List.length Nat.eqb Nat.add].
  now destruct (list_sum _).
Qed.

(** In every reachable world each routing table has at most 3 entries, so
    the connection count shown is at most 3 times the number of peers. *)
Theorem reachable_tables_bounded (w : World) :
  reachable w ->
  (forall p, In p (peers (net w)) ->
             (JsMap.size (routingTable p) <= default_count)%nat)
  /\ (connectionCount (net w)
      <= default_count * List.length (peers (net w)))%nat.
Proof.
  intros Hreach.
  assert (H : Forall (fun p => (JsMap.size (routingTable p) <= default_count)%nat)
                (peers (net w))).
  { apply reachable_Forall; [| | | exact Hreach].
    - intros. cbn. unfold default_count. lia.
    - intros p t Hp. exact Hp.
    - intros peerId sorted p p' (_ & _ & Hframe & Hown) Hp.
      destruct (string_dec (id p) peerId) as [Heq | Hne].
      + destruct (Hown Heq) as [_ Hafter].
        exact (served_table_bound _ _ _ Hafter).
      + now rewrite (Hframe Hne). }
  split; [now apply Forall_forall |].
  rewrite connectionCount_sum.
  induction H as [|p ps Hp _ IH]; simpl; [lia |].
  unfold default_count in *. lia.
Qed.

Lemma reachable_tables_bounded_witness :
  reachable Examples.world4
  /\ (forall p, In p (peers (net Examples.world4)) ->
                (JsMap.size (routingTable p) <= default_count)%nat)
  /\ (connectionCount (net Examples.world4)
      <= default_count * List.length (peers (net Examples.world4)))%nat.
Proof.
  assert (R : reachable Examples.world4) by reach_world4.
  split; [exact R |].
  exact (reachable_tables_bounded Examples.world4 R).
Defined.

(** In every reachable world a peer that is still [Discovering] has an
    empty routing table: a peer with a connection is [Connected]. *)
Theorem discovering_peers_have_no_routes (w : World) :
  reachable w ->
  forall p, In p (peers (net w)) ->
            (status p = Discovering -> routingTable p = [])
            /\ (routingTable p <> [] -> status p = Connected).
Proof.
  intros Hreach.
  assert (H : Forall (fun p => status p = Discovering -> routingTable p = [])
                (peers (net w))).
  { apply reachable_Forall; [| | | exact Hreach].
    - reflexivity.
    - intros p t Hp. exact Hp.
    - intros peerId sorted p p' (_ & _ & Hframe & Hown) Hp.
      destruct (string_dec (id p) peerId) as [Heq | Hne].
      + destruct (Hown Heq) as [Hst _]. rewrite Hst. discriminate.
      + now rewrite (Hframe Hne). }
  rewrite Forall_forall in H. intros p Hin. split; [now apply H |].
  intros Hne. destruct (status p) eqn:E; [| reflexivity].
  exfalso. apply Hne. now apply H.
Qed.

Lemma discovering_peers_have_no_routes_witness :
  reachable Examples.world4
  /\ forall p, In p (peers (net Examples.world4)) ->
               (status p = Discovering -> routingTable p = [])
               /\ (routingTable p <> [] -> status p = Connected).
Proof.
  assert (R : reachable Examples.world4) by reach_world4.
  split; [exact R |].
  exact (discovering_peers_have_no_routes Examples.world4 R).
Defined.

(** *** Status *)

Lemma update_peer_keeps_connected (now : nat -> Q) (peerId : string)
    (closestPeers : list Peer) (p p' : Peer) (r r' : Round) :
  update_peer now peerId closestPeers p r = Some (p', r') ->
  id p' = id p /\ (status p = Connected -> status p' = Connected).
Proof.
  unfold update_peer. destruct (id p =? peerId)%string.
  - unfold bind at 1.
    match goal with |- context [match ?m r with _ => _ end] =>
      destruct (m r) as [[table r1]|] end; [| discriminate].
    unfold ret. intros E. injection E as <- <-. now split.
  - unfold ret. intros E. injection E as <- <-. now split.
Qed.

Lemma mapM_returned {A B : Type} (f : A -> M B) (R : A -> B -> Prop)
    (items : list A) :
  (forall x r y r', f x r = Some (y, r') -> R x y) ->
  forall r ys r', mapM f items r = Some (ys, r') -> Forall2 R items ys.
Proof.
  intros H. induction items as [|x rest IH]; intros r ys r' E.
  - cbn in E. injection E as <- <-. constructor.
  - cbn [mapM] in E. unfold bind in E.
    destruct (f x r) as [[y r1]|] eqn:Ex; [| discriminate].
    destruct (mapM f rest r1) as [[ys' r2]|] eqn:Erest; [| discriminate].
    unfold ret in E. injection E as <- <-.
    constructor; [exact (H _ _ _ _ Ex) | exact (IH _ _ _ Erest)].
Qed.

Lemma discover_keeps_connected (now : nat -> Q) (peerId : string)
    (s s' : Network) (i : string) :
  discover now peerId s = Some s' ->
  In (i, Connected) (statuses s) -> In (i, Connected) (statuses s').
Proof.
  unfold discover. rewrite discover_round_unfold.
  destruct (findClosestPeers peerId (peers s) default_count) as [cl|];
    [| discriminate].
  destruct (mapM _ (peers s) _) as [[ps' r']|] eqn:E; [| discriminate].
  intros H. injection H as <-. unfold statuses. cbn [peers].
  apply (mapM_returned _ (fun p p' => id p' = id p
                            /\ (status p = Connected -> status p' = Connected))
           _ (fun x r0 y r1 => update_peer_keeps_connected now peerId cl
                                 x y r0 r1)) in E.
  induction E as [|p p' ps ps'' [Hid Hst] _ IH]; [intros [] |].
  cbn [map In]. intros [Hp | Hin]; [left | right; now apply IH].
  injection Hp as Hi Hs. rewrite Hid, Hi. f_equal. now apply Hst.
Qed.

(** No step of the event loop takes a peer from [Connected] back to
    [Discovering]: a connected peer stays connected for as long as a peer
    with its id is in the network. *)
Theorem connected_stays_connected (w w' : World) (i : string) :
  step w w' ->
  In (i, Connected) (statuses (net w)) ->
  In (i, Connected) (statuses (net w')) \/ ~ In i (ids (net w')).
Proof.
  intros Hstep Hin.
  destruct Hstep as [newId now w Hid | newId now w Hid | peerId w
                    | peerId w Hid | seen w
                    | now before peerId after w s' Hsplit Hrun | v w | w];
    cbn [net in_flight].
  - left. unfold statuses in *. cbn [peers joinNetwork].
    rewrite map_app. apply in_or_app. now left.
  - left. unfold statuses in *. cbn [peers makeAnotherPeer].
    rewrite map_app. apply in_or_app. now left.
  - destruct (string_dec i peerId) as [-> | Hne].
    + right. apply CoordinatorFacts.removePeer_forgets.
    + left. unfold statuses in *. cbn [peers removePeer].
      apply in_map_iff in Hin as (p & Hp & Hin). injection Hp as Hi Hs.
      apply in_map_iff. exists p. split; [now rewrite Hi, Hs |].
      apply filter_In. split; [exact Hin |].
      rewrite Hi. apply String.eqb_neq in Hne. now rewrite Hne.
  - left. exact Hin.
  - left. unfold statuses in *. cbn [peers tick].
    revert Hin. generalize 0%nat.
    induction (peers (net w)) as [|p ps IH]; intros n; [intros [] |].
    cbn [refresh map In id status]. intros [Hp | Hin]; [now left |].
    right. now apply IH.
  - left. exact (discover_keeps_connected _ _ _ _ _ Hrun Hin).
  - unfold onLatencyChange. destruct (v =? networkLatency (net w))%Z.
    + left. exact Hin.
    + right. intros [].
  - left. exact Hin.
Qed.

Lemma connected_stays_connected_witness :
  In (Examples.idA, Connected)
    (statuses (tick Examples.now0 (net Examples.world4)))
  \/ ~ In Examples.idA (ids (tick Examples.now0 (net Examples.world4))).
Proof.
  apply (connected_stays_connected Examples.world4
           {| net := tick Examples.now0 (net Examples.world4);
              in_flight := in_flight Examples.world4
                           ++ ids (net Examples.world4) |}
           Examples.idA).
  - exact (step_tick Examples.now0 Examples.world4).
  - simpl. now left.
Defined.

End InvariantFacts.

(* ================================================================== *)
(** ** The start of the network *)

Module BootstrapFacts.

Import Net Discovery DiscoveryFacts Coordinator View Bootstrap RoundLog.

Lemma joinEach_from (create : nat -> string * Q) (l : list nat) :
  forall s,
    let s' := fold_left
                (fun acc i => joinNetwork
                                (createPeer (fst (create i)) (snd (create i))) acc)
                l s in
    peers s' = peers s
               ++ map (fun i => createPeer (fst (create i)) (snd (create i))) l
    /\ discoveryLogs s'
       = discoveryLogs s ++ map (fun i => msg_joined (fst (create i))) l
    /\ networkLatency s' = networkLatency s /\ started s' = started s.
Proof.
  induction l as [|i l IH]; intros s; cbn [fold_left map].
  - now rewrite !app_nil_r.
  - destruct (IH (joinNetwork (createPeer (fst (create i)) (snd (create i))) s))
      as (Hp & Hl & Hn & Hs).
    cbn zeta in *. rewrite Hp, Hl, Hn, Hs.
    cbn [peers discoveryLogs networkLatency started joinNetwork createPeer id].
    now rewrite <- !app_assoc.
Qed.

Lemma candidates_count (peerId : string) (ps : list Peer) :
  NoDup (map id ps) -> In peerId (map id ps) ->
  List.length (filter (is_candidate peerId) ps) = (List.length ps - 1)%nat.
Proof.
  induction ps as [|p ps IH]; intros Hnd Hin; [contradiction |].
  cbn [map] in *. inversion Hnd as [|? ? Hnotin Hnd']; subst.
  cbn [filter List.length]. unfold is_candidate at 1.
  destruct (String.eqb_spec (id p) peerId) as [Heq | Hne]; cbn [negb].
  - rewrite RoundTheorems.absent_all_candidates by (now rewrite <- Heq).
    lia.
  - destruct Hin as [E | Hin]; [contradiction |].
    cbn [List.length]. rewrite (IH Hnd' Hin).
    destruct ps; [contradiction | cbn [List.length]; lia].
Qed.

(** The size of the table of the peer a round served, in a network with
    unique ids. *)
Lemma served_table_size (peerId : string) (s : Network) (sorted : list Peer)
    (table : RoutingTable) :
  NoDup (ids s) -> In peerId (ids s) ->
  Permutation (Spec.candidates peerId s) sorted ->
  Spec.table_after peerId (firstn default_count sorted) table ->
  JsMap.size table
  = Nat.min default_count (List.length (peers s) - 1).
Proof.
  intros Hnd Hin Hperm (Hwf & Hkeys & _).
  assert (Hlen : List.length (map id (firstn default_count sorted))
                 = Nat.min default_count (List.length (peers s) - 1)).
  { rewrite length_map, length_firstn, <- (Permutation_length Hperm).
    unfold Spec.candidates. now rewrite candidates_count. }
  rewrite <- Hlen. apply Nat.le_antisymm.
  - apply JsMapFacts.size_le_of_keys; [exact Hwf |].
    intros k Hk. now apply Hkeys.
  - apply JsMapFacts.size_ge_of_keys.
    + exact (RoundTheorems.closest_ids_NoDup peerId s sorted default_count
               Hnd Hperm).
    + intros k Hk. now apply Hkeys.
Qed.

Lemma round_frames_back (peerId : string) (closestPeers : list Peer)
    (ps ps' : list Peer) (p' : Peer) :
  Forall2 (Spec.round_result peerId closestPeers) ps ps' ->
  In p' ps' -> id p' <> peerId -> In p' ps.
Proof.
  intros HR Hin Hne.
  destruct (round_result_In _ _ _ _ _ HR Hin) as (p & Hp & Hid & _ & Hframe & _).
  rewrite (Hframe ltac:(congruence)). exact Hp.
Qed.

(** Rounds for peers that were never served, one after the other, in a
    network of at least two peers with unique ids. *)
Lemma discoverEach_first_rounds (now : nat -> nat -> Q) (todo : list string) :
  forall (k : nat) (s : Network),
    Coordinator.well_formed s -> NoDup (ids s) -> NoDup todo ->
    incl todo (ids s) ->
    (forall p, In p (peers s) -> In (id p) todo -> routingTable p = []) ->
    (2 <= List.length (peers s))%nat ->
    exists s',
      discoverEach now k todo s = Some s'
      /\ ids s' = ids s
      /\ (forall p', In p' (peers s') ->
            (In (id p') todo ->
               status p' = Connected
               /\ JsMap.size (routingTable p')
                  = Nat.min default_count (List.length (peers s) - 1))
            /\ (~ In (id p') todo -> In p' (peers s)))
      /\ discoveryLogs s'
         = discoveryLogs s
           ++ flat_map
                (fun i => [msg_discovering i;
                           msg_found i (Nat.min default_count
                                          (List.length (peers s) - 1))])
                todo.
Proof.
  induction todo as [|i rest IH]; intros k s Hwf Hnd Htodo Hincl Hempty Hlen.
  - exists s. cbn [discoverEach flat_map]. rewrite app_nil_r.
    split; [reflexivity |]. split; [reflexivity |]. split; [| reflexivity].
    intros p' Hp'. split; [intros [] | intros _; exact Hp'].
  - inversion Htodo as [|? ? Hnotin Hrest]; subst.
    assert (Hi : In i (ids s)) by (apply Hincl; now left).
    pose proof Hi as Hi'. unfold ids in Hi'.
    apply in_map_iff in Hi' as (p & Hid & Hp).
    assert (Hvalid : Identity.is_peer_id i = true).
    { unfold Coordinator.well_formed in Hwf. rewrite Forall_forall in Hwf.
      rewrite <- Hid. now apply Hwf. }
    destruct (RoundLogFacts.discover_served (now k) i s p Hvalid Hwf Hnd Hp Hid)
      as (sorted & s1 & p1 & Hperm & _ & Hrun & HR & Hlogs & _).
    assert (Hcl : List.length (firstn default_count sorted)
                  = Nat.min default_count (List.length (peers s) - 1)).
    { rewrite length_firstn, <- (Permutation_length Hperm).
      unfold Spec.candidates. now rewrite candidates_count. }
    assert (Hlines : table_lines i (firstn default_count sorted) (routingTable p)
                     = []).
    { rewrite (Hempty p Hp) by (rewrite Hid; now left).
      destruct (firstn default_count sorted) as [|c cs]; [| reflexivity].
      cbn [List.length] in Hcl. unfold default_count in Hcl. lia. }
    rewrite Hlines, Hcl in Hlogs. cbn [app] in Hlogs.
    pose proof (round_keeps_ids _ _ _ _ HR) as Hids1.
    assert (Hlen1 : List.length (peers s1) = List.length (peers s)).
    { unfold ids in Hids1.
      now rewrite <- (length_map id (peers s1)), Hids1, length_map. }
    destruct (IH (S k) s1) as (s' & Hrun' & Hids' & Hpeers' & Hlogs').
    + exact (round_keeps_well_formed _ _ _ _ Hwf HR).
    + unfold ids. unfold ids in Hids1. now rewrite Hids1.
    + exact Hrest.
    + unfold ids in *. rewrite Hids1. intros j Hj. apply Hincl. now right.
    + intros q Hq Hqrest. apply Hempty; [| now right].
      apply (round_frames_back _ _ _ _ _ HR Hq).
      intros E. apply Hnotin. now rewrite <- E.
    + now rewrite Hlen1.
    + exists s'. cbn [discoverEach]. rewrite Hrun. split; [exact Hrun' |].
      split; [unfold ids in *; congruence |]. rewrite Hlen1 in *. split.
      * intros p' Hp'. destruct (Hpeers' p' Hp') as [Hserved Hkept]. split.
        -- intros [E | Hin']; [| now apply Hserved].
           destruct (in_dec string_dec (id p') rest) as [Hin' | Hout];
             [now apply Hserved |].
           specialize (Hkept Hout).
           pose proof (RoundTheorems.served_peer_table _ _ _ _ _ HR Hkept
                         (eq_sym E)) as Hafter.
           split.
           ++ destruct (round_result_In _ _ _ _ _ HR Hkept)
                as (q & _ & Hidq & _ & _ & Hown).
              apply Hown. congruence.
           ++ exact (served_table_size i s sorted _ Hnd Hi Hperm Hafter).
        -- intros Hout. apply (round_frames_back _ _ _ _ _ HR).
           ++ apply Hkept. intros Hin'. apply Hout. now right.
           ++ intros E. apply Hout. now left.
      * rewrite Hlogs', Hlogs. cbn [flat_map app].
        now rewrite <- !app_assoc.
Qed.

Lemma list_sum_constant {A : Type} (f : A -> nat) (c : nat) (l : list A) :
  Forall (fun x => f x = c) l -> list_sum (map f l) = (c * List.length l)%nat.
Proof.
  induction 1 as [|x l Hx _ IH]; simpl; [lia | rewrite Hx, IH; lia].
Qed.

(** The effect that starts the network, when the five ids that
    [createPeer] derives are unique ids of [generatePeerId] and nothing
    else happens meanwhile: it drops the peers there were, and leaves five
    peers, in the order of their creation, every one [Connected] with 3
    entries in its table, so that the connection count is 15; the log
    gains one "joined" line per peer and then "discovering" and "found 3"
    for each peer in turn. *)
Theorem initEffect_connects_five (create : nat -> string * Q)
    (now : nat -> nat -> Q) (s : Network) :
  started s = false ->
  Forall (fun i => Identity.is_peer_id (fst (create i)) = true) (seq 0 5) ->
  NoDup (map (fun i => fst (create i)) (seq 0 5)) ->
  exists s',
    initEffect create now s = Some s'
    /\ ids s' = map (fun i => fst (create i)) (seq 0 5)
    /\ (forall p', In p' (peers s') ->
          status p' = Connected /\ JsMap.size (routingTable p') = 3%nat)
    /\ connectionCount s' = 15%nat
    /\ discoveryLogs s'
       = discoveryLogs s
         ++ map msg_joined (ids s')
         ++ flat_map (fun i => [msg_discovering i; msg_found i 3]) (ids s').
Proof.
  intros Hstarted Hvalid Hnd.
  unfold initEffect, initNetwork, joinEach. rewrite Hstarted.
  set (s0 := {| peers := []; discoveryLogs := discoveryLogs s;
                networkLatency := networkLatency s; started := true |}).
  destruct (joinEach_from create (seq 0 5) s0) as (Hpeers & Hlogs & _).
  cbn zeta in Hpeers, Hlogs.
  set (joined := fold_left _ (seq 0 5) s0) in *.
  cbn [peers discoveryLogs s0 app] in Hpeers, Hlogs.
  assert (Hids : ids joined = map (fun i => fst (create i)) (seq 0 5)).
  { unfold ids. rewrite Hpeers, map_map. reflexivity. }
  assert (Hlen : List.length (peers joined) = 5%nat)
    by (rewrite Hpeers, length_map; reflexivity).
  destruct (discoverEach_first_rounds now (ids joined) 0 joined)
    as (s' & Hrun & Hids' & Hpeers' & Hlogs').
  - unfold well_formed. rewrite Hpeers. apply Forall_map.
    eapply Forall_impl; [| exact Hvalid]. cbn beta. intros i Hi.
    split; [exact Hi | constructor].
  - now rewrite Hids.
  - now rewrite Hids.
  - apply incl_refl.
  - intros p Hp _. rewrite Hpeers in Hp.
    apply in_map_iff in Hp as (i & <- & _). reflexivity.
  - rewrite Hlen. lia.
  - rewrite Hlen in *. change (Nat.min default_count (5 - 1)) with 3%nat in *.
    assert (Hall : forall p', In p' (peers s') ->
                     status p' = Connected
                     /\ JsMap.size (routingTable p') = 3%nat).
    { intros p' Hp'. apply (Hpeers' p' Hp'). rewrite <- Hids'.
      unfold ids. now apply in_map. }
    exists s'. split; [exact Hrun |]. split; [congruence |].
    split; [exact Hall |]. split.
    + rewrite InvariantFacts.connectionCount_sum.
      rewrite (list_sum_constant _ 3).
      * rewrite <- (length_map id (peers s')).
        fold (ids s'). rewrite Hids', Hids, length_map. reflexivity.
      * apply Forall_forall. intros p' Hp'. now apply Hall.
    + rewrite Hlogs', Hlogs, Hids', Hids, <- app_assoc.
      now rewrite map_map.
Qed.

Lemma initEffect_connects_five_witness :
  exists s',
    initEffect Examples2.create5 Examples2.clocks Examples2.unstarted = Some s'
    /\ ids s' = [Examples.idA; Examples.idB; Examples.idC; Examples.idD;
                 Examples.idE]
    /\ (forall p', In p' (peers s') ->
          status p' = Connected /\ JsMap.size (routingTable p') = 3%nat)
    /\ connectionCount s' = 15%nat
    /\ discoveryLogs s'
       = discoveryLogs Examples2.unstarted
         ++ map msg_joined (ids s')
         ++ flat_map (fun i => [msg_discovering i; msg_found i 3]) (ids s').
Proof.
  apply (initEffect_connects_five Examples2.create5 Examples2.clocks
           Examples2.unstarted).
  - reflexivity.
  - simpl. repeat constructor.
  - simpl. repeat constructor; simpl; intuition discriminate.
Defined.

End BootstrapFacts.

(* ================================================================== *)
(** ** The drawing *)

Module ViewFacts.

Import Net Coordinator View.

Lemma lines_flat (everyone ps : list Peer) :
  flat_map (fun row => flat_map (fun e => match e with
                                          | Some l => [l]
                                          | None => []
                                          end) row)
    (map (fun peer =>
            map (fun targetId =>
                   match findPeer targetId everyone with
                   | None => None
                   | Some targetPeer => Some (id peer, id targetPeer)
                   end)
              (JsMap.keys (routingTable peer)))
       ps)
  = flat_map
      (fun peer =>
         flat_map (fun targetId =>
                     match findPeer targetId everyone with
                     | None => []
                     | Some targetPeer => [(id peer, id targetPeer)]
                     end)
           (JsMap.keys (routingTable peer)))
      ps.
Proof.
  induction ps as [|p ps IH]; [reflexivity |].
  cbn [map flat_map]. rewrite IH. f_equal.
  induction (JsMap.keys (routingTable p)) as [|k ks IHk]; [reflexivity |].
  cbn [map flat_map]. rewrite IHk.
  now destruct (findPeer k everyone).
Qed.

Lemma drawnLines_flat (s : Network) :
  drawnLines s
  = flat_map
      (fun peer =>
         flat_map (fun targetId =>
                     match findPeer targetId (peers s) with
                     | None => []
                     | Some targetPeer => [(id peer, id targetPeer)]
                     end)
           (JsMap.keys (routingTable peer)))
      (peers s).
Proof. apply lines_flat. Qed.

Lemma findPeer_id (targetId : string) (ps : list Peer) (p : Peer) :
  findPeer targetId ps = Some p -> In p ps /\ id p = targetId.
Proof.
  unfold findPeer. intros H. apply find_some in H as [Hin E].
  split; [exact Hin | now apply String.eqb_eq].
Qed.

Lemma findPeer_after_removal (removed targetId : string) (ps : list Peer) :
  findPeer targetId (filter (fun p => negb (id p =? removed)%string) ps)
  = if (targetId =? removed)%string then None else findPeer targetId ps.
Proof.
  unfold findPeer. induction ps as [|p ps IH]; cbn [filter find].
  - now destruct (targetId =? removed)%string.
  - destruct (String.eqb_spec (id p) removed) as [Hr | Hr]; cbn [negb find].
    + rewrite IH.
      destruct (String.eqb_spec targetId removed) as [Ht | Ht].
      * reflexivity.
      * destruct (String.eqb_spec (id p) targetId) as [E | E];
          [congruence | reflexivity].
    + destruct (String.eqb_spec (id p) targetId) as [E | E].
      * destruct (String.eqb_spec targetId removed) as [Ht | Ht];
          [congruence | reflexivity].
      * exact IH.
Qed.

Lemma lines_of_peer_after_removal (removed : string) (everyone : list Peer)
    (p : Peer) (keys : list string) :
  flat_map (fun targetId =>
              match findPeer targetId
                      (filter (fun q => negb (id q =? removed)%string) everyone)
              with
              | None => []
              | Some targetPeer => [(id p, id targetPeer)]
              end) keys
  = filter (fun l => negb (snd l =? removed)%string)
      (flat_map (fun targetId =>
                   match findPeer targetId everyone with
                   | None => []
                   | Some targetPeer => [(id p, id targetPeer)]
                   end) keys).
Proof.
  induction keys as [|k ks IH]; [reflexivity |].
  cbn [flat_map]. rewrite filter_app, <- IH. f_equal.
  rewrite findPeer_after_removal.
  destruct (findPeer k everyone) as [tp|] eqn:E.
  - apply findPeer_id in E as [_ E].
    destruct (k =? removed)%string eqn:Ek; cbn [filter snd];
      rewrite E, Ek; reflexivity.
  - now destruct (k =? removed)%string.
Qed.

Lemma lines_after_removal (removed : string) (everyone ps : list Peer) :
  flat_map
    (fun peer =>
       flat_map (fun targetId =>
                   match findPeer targetId
                           (filter (fun q => negb (id q =? removed)%string)
                              everyone)
                   with
                   | None => []
                   | Some targetPeer => [(id peer, id targetPeer)]
                   end)
         (JsMap.keys (routingTable peer)))
    (filter (fun q => negb (id q =? removed)%string) ps)
  = filter (fun l => negb (fst l =? removed)%string
                     && negb (snd l =? removed)%string)
      (flat_map
         (fun peer =>
            flat_map (fun targetId =>
                        match findPeer targetId everyone with
                        | None => []
                        | Some targetPeer => [(id peer, id targetPeer)]
                        end)
              (JsMap.keys (routingTable peer)))
         ps).
Proof.
  induction ps as [|p ps IH]; [reflexivity |].
  cbn [filter flat_map]. rewrite filter_app, <- IH.
  destruct (String.eqb_spec (id p) removed) as [Hr | Hr]; cbn [negb flat_map].
  - replace (filter _ (flat_map _ (JsMap.keys (routingTable p))))
      with (@nil (string * string)); [reflexivity |].
    symmetry. induction (JsMap.keys (routingTable p)) as [|k ks IHk];
      [reflexivity |].
    cbn [flat_map]. rewrite filter_app, IHk, app_nil_r.
    destruct (findPeer k everyone); [| reflexivity].
    cbn [filter fst]. rewrite Hr, String.eqb_refl. reflexivity.
  - f_equal. rewrite lines_of_peer_after_removal.
    apply filter_ext_in. intros l Hl.
    apply in_flat_map in Hl as (k & _ & Hl).
    destruct (findPeer k everyone); [| contradiction].
    destruct Hl as [<- | []]. cbn [fst].
    apply String.eqb_neq in Hr. now rewrite Hr.
Qed.

(** Every line that is drawn goes from a peer of the network to a peer of
    the network that is a key of its table.  Hence removing a peer removes
    the lines from it and to it at once, and no other line, although the
    tables of the others keep their entries for it. *)
Theorem drawn_lines_join_present_peers (removed : string) (s : Network) :
  (forall l, In l (drawnLines s) ->
     In (snd l) (ids s)
     /\ exists p, In p (peers s) /\ id p = fst l
                  /\ In (snd l) (JsMap.keys (routingTable p)))
  /\ drawnLines (removePeer removed s)
     = filter (fun l => negb (fst l =? removed)%string
                        && negb (snd l =? removed)%string)
         (drawnLines s)
  /\ tables (removePeer removed s)
     = filter (fun t => negb (fst t =? removed)%string) (tables s).
Proof.
  split; [| split; [| apply CoordinatorFacts.removePeer_tables]].
  - intros l Hl. rewrite drawnLines_flat in Hl.
    apply in_flat_map in Hl as (p & Hp & Hl).
    apply in_flat_map in Hl as (k & Hk & Hl).
    destruct (findPeer k (peers s)) as [tp|] eqn:E; [| contradiction].
    destruct Hl as [<- | []]. cbn [fst snd].
    apply findPeer_id in E as [Hin E]. split.
    + unfold ids. now apply in_map.
    + exists p. split; [exact Hp |]. split; [reflexivity | now rewrite E].
  - rewrite !drawnLines_flat. cbn [peers removePeer].
    apply lines_after_removal.
Qed.

(** *** Where a peer is placed *)

Lemma unsigned_app (s1 s2 : string) :
  Spec.unsigned (s1 ++ s2)%string
  = (Spec.unsigned s1 * 16 ^ N.of_nat (String.length s2) + Spec.unsigned s2)%N.
Proof.
  induction s1 as [|c s1 IH]; [cbn; lia |].
  cbn [String.append Spec.unsigned]. rewrite IH.
  rewrite HexFacts.string_length_append, Nat2N.inj_add, N.pow_add_r. lia.
Qed.

Lemma forallb_string_app (f : ascii -> bool) (s1 s2 : string) :
  JsString.forallb_string f (s1 ++ s2)%string
  = JsString.forallb_string f s1 && JsString.forallb_string f s2.
Proof.
  induction s1 as [|c s1 IH]; [reflexivity |].
  cbn [String.append JsString.forallb_string]. rewrite IH.
  now rewrite andb_assoc.
Qed.

(** The place of a peer depends on the last eight characters of its id
    only: the bits for [x] are the number that the last four characters
    denote, the bits for [y] the number that the four characters before
    them denote, and both are at most 65535. *)
Theorem position_bits_of_id (peerId : string) :
  Identity.is_peer_id peerId = true ->
  xBits peerId = Some (Spec.unsigned (JsString.slice 8 12 peerId))
  /\ yBits peerId = Some (Spec.unsigned (JsString.slice 4 8 peerId))
  /\ (Spec.unsigned (JsString.slice 8 12 peerId) <= 65535)%N
  /\ (Spec.unsigned (JsString.slice 4 8 peerId) <= 65535)%N.
Proof.
  intros Hid. unfold xBits, yBits.
  rewrite (HexFacts.parseBigInt_peer_id peerId Hid). cbn [option_map].
  unfold Identity.is_peer_id in Hid. apply andb_true_iff in Hid as [Hlen Hlow].
  do 12 (destruct peerId as [|? peerId]; [discriminate Hlen |]).
  destruct peerId; [| discriminate Hlen]. clear Hlen.
  match goal with
  | Hlow : JsString.forallb_string _
             (String ?c1 (String ?c2 (String ?c3 (String ?c4
               (String ?c5 (String ?c6 (String ?c7 (String ?c8
                 (String ?c9 (String ?c10 (String ?c11 (String ?c12
                   EmptyString)))))))))))) = true |- _ =>
      set (lo := String c9 (String c10 (String c11 (String c12 EmptyString))))
        in *;
      set (mid := String c5 (String c6 (String c7 (String c8 EmptyString))));
      set (hi := String c1 (String c2 (String c3 (String c4 EmptyString))));
      change (String c1 (String c2 (String c3 (String c4
               (String c5 (String c6 (String c7 (String c8 lo))))))))
        with (hi ++ (mid ++ lo))%string in *
  end.
  change (JsString.slice 8 12 (hi ++ (mid ++ lo))%string) with lo.
  change (JsString.slice 4 8 (hi ++ (mid ++ lo))%string) with mid.
  rewrite !forallb_string_app in Hlow.
  apply andb_true_iff in Hlow as [Hhi Hrest].
  apply andb_true_iff in Hrest as [Hmid Hlo].
  pose proof (HexFacts.unsigned_bound mid Hmid) as Bmid.
  pose proof (HexFacts.unsigned_bound lo Hlo) as Blo.
  change (16 ^ N.of_nat (String.length mid))%N with 65536%N in Bmid.
  change (16 ^ N.of_nat (String.length lo))%N with 65536%N in Blo.
  rewrite !unsigned_app.
  change (16 ^ N.of_nat (String.length (mid ++ lo)))%N with (65536 * 65536)%N.
  change (16 ^ N.of_nat (String.length lo))%N with 65536%N.
  change 0xffff%N with (N.ones 16).
  rewrite !N.land_ones, N.shiftr_div_pow2.
  change (2 ^ 16)%N with 65536%N. change (N.ones 16) with 65535%N.
  set (H := Spec.unsigned hi) in *. set (M := Spec.unsigned mid) in *.
  set (L := Spec.unsigned lo) in *.
  assert (E1 : ((H * (65536 * 65536) + (M * 65536 + L)) mod 65536 = L)%N).
  { replace (H * (65536 * 65536) + (M * 65536 + L))%N
      with (L + (H * 65536 + M) * 65536)%N by lia.
    rewrite N.Div0.mod_add. apply N.mod_small. exact Blo. }
  assert (E2 : ((H * (65536 * 65536) + (M * 65536 + L)) / 65536
                = H * 65536 + M)%N).
  { replace (H * (65536 * 65536) + (M * 65536 + L))%N
      with (L + (H * 65536 + M) * 65536)%N by lia.
    rewrite N.div_add by lia. rewrite (N.div_small L) by exact Blo. lia. }
  assert (E3 : ((H * 65536 + M) mod 65536 = M)%N).
  { replace (H * 65536 + M)%N with (M + H * 65536)%N by lia.
    rewrite N.Div0.mod_add. apply N.mod_small. exact Bmid. }
  rewrite E1, E2, E3.
  split; [reflexivity |]. split; [reflexivity |]. split; lia.
Qed.

Lemma position_bits_of_id_witness :
  xBits Examples.idA = Some 0xe5f6%N
  /\ yBits Examples.idA = Some 0xc3d4%N
  /\ (0xe5f6 <= 65535)%N /\ (0xc3d4 <= 65535)%N.
Proof.
  exact (position_bits_of_id Examples.idA eq_refl).
Defined.

End ViewFacts.

(* ================================================================== *)
(** ** Ids and the digests they come from *)

Module IdentityMore.

Import JsString Identity.

Lemma unsigned_nibbles (b : byte) : Spec.unsigned (nibbles b) = Byte.to_N b.
Proof. destruct b; reflexivity. Qed.

Lemma nibbles_inj (b1 b2 : byte) : nibbles b1 = nibbles b2 -> b1 = b2.
Proof.
  intros E. apply (f_equal Spec.unsigned) in E.
  rewrite !unsigned_nibbles in E.
  pose proof (Byte.of_to_N b1) as H1. pose proof (Byte.of_to_N b2) as H2.
  congruence.
Qed.

Lemma lowercase_hex_inj (l1 : list byte) :
  forall l2, lowercase_hex l1 = lowercase_hex l2 -> l1 = l2.
Proof.
  induction l1 as [|b1 l1 IH]; intros [|b2 l2] E; try discriminate;
    [reflexivity |].
  change (lowercase_hex (b1 :: l1)) with (nibbles b1 ++ lowercase_hex l1)%string in E.
  change (lowercase_hex (b2 :: l2)) with (nibbles b2 ++ lowercase_hex l2)%string in E.
  unfold nibbles in E at 1 2. cbn [String.append] in E.
  injection E as E1 E2 E3.
  f_equal; [| now apply IH].
  apply nibbles_inj. unfold nibbles. now rewrite E1, E2.
Qed.

Lemma generatePeerId_prefix (sha256 : list byte -> list byte) (buf : list byte) :
  (forall b, List.length (sha256 b) = 32%nat) ->
  generatePeerId sha256 buf = lowercase_hex (firstn 6 (sha256 buf)).
Proof.
  intros Hlen. unfold generatePeerId. rewrite IdentityFacts.join_hex.
  apply IdentityFacts.slice12_of_hex. rewrite Hlen. lia.
Qed.

(** Two inputs get the same id exactly when their digests agree on the
    first six bytes. *)
Theorem generatePeerId_collides_iff (sha256 : list byte -> list byte)
    (buf1 buf2 : list byte) :
  (forall b, List.length (sha256 b) = 32%nat) ->
  (generatePeerId sha256 buf1 = generatePeerId sha256 buf2
   <-> firstn 6 (sha256 buf1) = firstn 6 (sha256 buf2)).
Proof.
  intros Hlen. rewrite !generatePeerId_prefix by exact Hlen. split.
  - apply lowercase_hex_inj.
  - now intros ->.
Qed.

Lemma generatePeerId_collides_iff_witness :
  generatePeerId Examples.toy_digest [x01; xab; xff]
  = generatePeerId Examples.toy_digest [x01; xab; xff; x00]
  <-> firstn 6 (Examples.toy_digest [x01; xab; xff])
      = firstn 6 (Examples.toy_digest [x01; xab; xff; x00]).
Proof.
  assert (H : forall buf, List.length (Examples.toy_digest buf) = 32%nat).
  { intros buf. unfold Examples.toy_digest.
    rewrite length_firstn, length_app, repeat_length. lia. }
  exact (generatePeerId_collides_iff Examples.toy_digest [x01; xab; xff]
           [x01; xab; xff; x00] H).
Defined.

Lemma unsigned_lowercase_hex (bs : list byte) :
  Spec.unsigned (lowercase_hex bs) = Bytes.big_endian bs.
Proof.
  induction bs as [|b bs IH]; [reflexivity |].
  change (lowercase_hex (b :: bs)) with (nibbles b ++ lowercase_hex bs)%string.
  rewrite ViewFacts.unsigned_app, unsigned_nibbles, IH.
  rewrite IdentityFacts.lowercase_hex_length.
  cbn [Bytes.big_endian]. f_equal. f_equal.
  rewrite Nat2N.inj_mul, N.pow_mul_r. reflexivity.
Qed.

Lemma big_endian_bound (bs : list byte) :
  (Bytes.big_endian bs < 256 ^ N.of_nat (List.length bs))%N.
Proof.
  induction bs as [|b bs IH]; [cbn; lia |].
  cbn [Bytes.big_endian List.length].
  rewrite Nat2N.inj_succ, N.pow_succ_r'.
  pose proof (Byte.to_N_bounded b). nia.
Qed.

(** [BigInt] reads an id of [generatePeerId] back as the first 48 bits of
    the digest, most significant byte first; so the distance between two
    generated ids is the XOR of the 48-bit prefixes of their digests. *)
Theorem generated_ids_parse_to_digest_prefix
    (sha256 : list byte -> list byte) (buf1 buf2 : list byte) :
  (forall b, List.length (sha256 b) = 32%nat) ->
  Hex.parseBigInt (generatePeerId sha256 buf1)
  = Some (Bytes.big_endian (firstn 6 (sha256 buf1)))
  /\ (Bytes.big_endian (firstn 6 (sha256 buf1)) < 2 ^ 48)%N
  /\ Distance.calculateDistance (generatePeerId sha256 buf1)
       (generatePeerId sha256 buf2)
     = Some (N.lxor (Bytes.big_endian (firstn 6 (sha256 buf1)))
               (Bytes.big_endian (firstn 6 (sha256 buf2)))).
Proof.
  intros Hlen.
  assert (Hparse : forall buf,
            Hex.parseBigInt (generatePeerId sha256 buf)
            = Some (Bytes.big_endian (firstn 6 (sha256 buf)))).
  { intros buf.
    rewrite generatePeerId_prefix by exact Hlen.
    rewrite HexFacts.parseBigInt_peer_id; [now rewrite unsigned_lowercase_hex |].
    unfold is_peer_id.
    rewrite IdentityFacts.lowercase_hex_length, length_firstn, Hlen.
    now rewrite IdentityFacts.lowercase_hex_lower. }
  split; [apply Hparse |]. split.
  - pose proof (big_endian_bound (firstn 6 (sha256 buf1))) as B.
    rewrite length_firstn, Hlen in B. exact B.
  - unfold Distance.calculateDistance. now rewrite !Hparse.
Qed.

Lemma generated_ids_parse_to_digest_prefix_witness :
  Hex.parseBigInt (generatePeerId Examples.toy_digest [x01; xab; xff])
  = Some 0x01abff000000%N
  /\ (0x01abff000000 < 2 ^ 48)%N
  /\ Distance.calculateDistance
       (generatePeerId Examples.toy_digest [x01; xab; xff])
       (generatePeerId Examples.toy_digest [x01; xab; x0f])
     = Some 0xf0000000%N.
Proof.
  assert (H : forall buf, List.length (Examples.toy_digest buf) = 32%nat).
  { intros buf. unfold Examples.toy_digest.
    rewrite length_firstn, length_app, repeat_length. lia. }
  exact (generated_ids_parse_to_digest_prefix Examples.toy_digest
           [x01; xab; xff] [x01; xab; x0f] H).
Defined.

End IdentityMore.

(* ================================================================== *)
(** ** A cycle of rounds brings every table up to date *)

Module ConvergenceFacts.

Import Net Discovery DiscoveryFacts Coordinator Bootstrap Convergence.

(** What the table of the served peer holds after a round in a network
    with unique ids. *)
Lemma served_table_holds_closest (now : nat -> Q) (peerId : string)
    (s s' : Network) (p' : Peer) :
  Identity.is_peer_id peerId = true -> well_formed s -> NoDup (ids s) ->
  In peerId (ids s) ->
  discover now peerId s = Some s' -> In p' (peers s') -> id p' = peerId ->
  status p' = Connected
  /\ holds_closest peerId (ids s) (routingTable p').
Proof.
  intros Hp Hwf Hnd Hin Hrun Hp' Hid.
  pose proof (well_formed_valid s Hwf) as Hvalid.
  destruct (discover_total now peerId s Hp Hwf)
    as (sorted0 & s'' & Hperm0 & Hfind0 & Hrun' & HR & _).
  rewrite Hrun in Hrun'. injection Hrun' as <-.
  destruct (ClosestFacts.findClosestPeers_ascending peerId (peers s)
              default_count Hp Hvalid) as (sorted & Hfind & Hperm & Hs).
  assert (Hcl : firstn default_count sorted0 = firstn default_count sorted)
    by congruence.
  rewrite Hcl in HR. clear Hcl Hfind0 Hperm0 sorted0.
  destruct (round_result_In _ _ _ _ _ HR Hp') as (p & _ & Hidp & _ & _ & Hown).
  destruct (Hown ltac:(congruence)) as (Hst & Hafter).
  split; [exact Hst |].
  pose proof (BootstrapFacts.served_table_size peerId s sorted _ Hnd Hin
                Hperm Hafter) as Hsize.
  destruct Hafter as (Hwft & Hkeys & _).
  assert (Hsorted_valid :
            Forall (fun q => Identity.is_peer_id (id q) = true) sorted).
  { apply (Permutation_Forall Hperm).
    unfold valid_peers in Hvalid. rewrite Forall_forall in *.
    intros q Hq. apply filter_In in Hq as [Hq _]. now apply Hvalid. }
  rewrite Forall_forall in Hsorted_valid.
  split; [| split].
  - intros k Hk. apply Hkeys in Hk.
    destruct (closest_are_candidates _ _ _ _ _ Hperm Hk). now split.
  - unfold ids. now rewrite length_map.
  - intros k j Hk Hj Hne Hout.
    apply Hkeys in Hk. apply in_map_iff in Hk as (c & <- & Hc).
    unfold ids in Hj. apply in_map_iff in Hj as (d & <- & Hd).
    assert (Hdcand : In d sorted).
    { apply (Permutation_in _ Hperm). apply filter_In. split; [exact Hd |].
      unfold is_candidate. apply negb_true_iff. now apply String.eqb_neq. }
    rewrite <- (firstn_skipn default_count sorted) in Hdcand.
    apply in_app_or in Hdcand as [Hfirst | Hrest].
    + exfalso. apply Hout, Hkeys. now apply in_map.
    + rewrite <- (firstn_skipn default_count sorted) in Hs.
      pose proof (ClosestFacts.ascending_split _ _ _ Hs c d Hc Hrest) as Hle.
      cbn beta in Hle.
      assert (Hvc : Identity.is_peer_id (id c) = true)
        by (apply Hsorted_valid; now apply (In_firstn default_count)).
      assert (Hvd : Identity.is_peer_id (id d) = true).
      { apply Hsorted_valid. rewrite <- (firstn_skipn default_count sorted).
        apply in_or_app. now right. }
      rewrite (DistanceFacts.calculateDistance_peer_ids _ _ Hvc Hp),
              (DistanceFacts.calculateDistance_peer_ids _ _ Hvd Hp).
      do 2 eexists. split; [reflexivity | split; [reflexivity | exact Hle]].
Qed.

Lemma discoverEach_rounds (now : nat -> nat -> Q) (todo : list string) :
  forall (k : nat) (s : Network),
    well_formed s -> NoDup (ids s) -> NoDup todo -> incl todo (ids s) ->
    exists s',
      discoverEach now k todo s = Some s'
      /\ ids s' = ids s
      /\ (forall p', In p' (peers s') ->
            (In (id p') todo ->
               status p' = Connected
               /\ holds_closest (id p') (ids s) (routingTable p'))
            /\ (~ In (id p') todo -> In p' (peers s))).
Proof.
  induction todo as [|i rest IH]; intros k s Hwf Hnd Htodo Hincl.
  - exists s. cbn [discoverEach].
    split; [reflexivity |]. split; [reflexivity |].
    intros p' Hp'. split; [intros [] | intros _; exact Hp'].
  - inversion Htodo as [|? ? Hnotin Hrest]; subst.
    assert (Hi : In i (ids s)) by (apply Hincl; now left).
    assert (Hvalid : Identity.is_peer_id i = true).
    { pose proof Hi as Hi'. unfold ids in Hi'.
      apply in_map_iff in Hi' as (p & Hid & Hp).
      unfold well_formed in Hwf. rewrite Forall_forall in Hwf.
      rewrite <- Hid. now apply Hwf. }
    destruct (discover_total (now k) i s Hvalid Hwf)
      as (sorted & s1 & _ & _ & Hrun & HR & _).
    pose proof (round_keeps_ids _ _ _ _ HR) as Hids1. fold (ids s1) in Hids1.
    fold (ids s) in Hids1.
    destruct (IH (S k) s1) as (s' & Hrun' & Hids' & Hpeers').
    + exact (round_keeps_well_formed _ _ _ _ Hwf HR).
    + now rewrite Hids1.
    + exact Hrest.
    + rewrite Hids1. intros j Hj. apply Hincl. now right.
    + exists s'. cbn [discoverEach]. rewrite Hrun. split; [exact Hrun' |].
      split; [congruence |]. rewrite Hids1 in Hpeers'.
      intros p' Hp'. destruct (Hpeers' p' Hp') as [Hserved Hkept]. split.
      * intros [E | Hin']; [| now apply Hserved].
        destruct (in_dec string_dec (id p') rest) as [Hin' | Hout];
          [now apply Hserved |].
        rewrite <- E.
        exact (served_table_holds_closest (now k) i s s1 p' Hvalid Hwf Hnd Hi
                 Hrun (Hkept Hout) (eq_sym E)).
      * intros Hout. apply (BootstrapFacts.round_frames_back _ _ _ _ _ HR).
        -- apply Hkept. intros Hin'. apply Hout. now right.
        -- intros E. apply Hout. now left.
Qed.

Lemma tick_keeps_ids (seen : nat -> Q) (s : Network) :
  ids (tick seen s) = ids s.
Proof.
  pose proof (CoordinatorFacts.refresh_tables seen (peers s) 0) as H.
  apply (f_equal (map fst)) in H. rewrite !map_map in H. exact H.
Qed.

(** A tick and the rounds it starts, completing in any order with nothing
    else in between, bring the tables of a network with unique ids up to
    date: every peer is [Connected], and its table names min(3, n - 1)
    peers of the network, none of them absent or its owner, each at most
    as far from the owner as any peer it does not name. *)
Theorem tick_cycle_brings_tables_up_to_date (seen : nat -> Q)
    (now : nat -> nat -> Q) (order : list string) (s : Network) :
  well_formed s -> NoDup (ids s) -> Permutation order (ids s) ->
  exists s',
    discoverEach now 0 order (tick seen s) = Some s'
    /\ ids s' = ids s
    /\ forall p', In p' (peers s') ->
         status p' = Connected
         /\ holds_closest (id p') (ids s) (routingTable p').
Proof.
  intros Hwf Hnd Hperm.
  pose proof (tick_keeps_ids seen s) as Hids.
  destruct (discoverEach_rounds now order 0 (tick seen s))
    as (s' & Hrun & Hids' & Hpeers').
  - unfold well_formed in *. cbn [peers tick].
    now apply (CoordinatorFacts.refresh_keeps
                 (fun i t => Identity.is_peer_id i = true /\ JsMap.wf t)).
  - now rewrite Hids.
  - exact (Permutation_NoDup (Permutation_sym Hperm) Hnd).
  - rewrite Hids. intros j Hj. exact (Permutation_in _ Hperm Hj).
  - exists s'. split; [exact Hrun |]. split; [congruence |].
    rewrite Hids in Hpeers'.
    intros p' Hp'. apply (Hpeers' p' Hp').
    apply (Permutation_in _ (Permutation_sym Hperm)).
    rewrite <- Hids, <- Hids'. unfold ids. now apply in_map.
Qed.

Lemma tick_cycle_brings_tables_up_to_date_witness :
  In Examples.idE
    (JsMap.keys (routingTable Examples.peerA_connected))
  /\ In Examples.peerA_connected (peers Examples2.after_leave)
  /\ exists s',
       discoverEach Examples2.clocks 0 Examples2.completion_order
         (tick Examples.now0 Examples2.after_leave) = Some s'
       /\ ids s' = ids Examples2.after_leave
       /\ forall p', In p' (peers s') ->
            status p' = Connected
            /\ holds_closest (id p') (ids Examples2.after_leave)
                 (routingTable p').
Proof.
  split; [simpl; now left |]. split; [simpl; now left |].
  apply (tick_cycle_brings_tables_up_to_date Examples.now0 Examples2.clocks
           Examples2.completion_order Examples2.after_leave).
  - unfold well_formed. simpl.
    repeat constructor; simpl; intuition discriminate.
  - simpl. repeat constructor; simpl; intuition discriminate.
  - change Examples2.completion_order
      with (rev [Examples.idA; Examples.idB; Examples.idC; Examples.idD]).
    change (ids Examples2.after_leave)
      with [Examples.idA; Examples.idB; Examples.idC; Examples.idD].
    apply Permutation_sym, Permutation_rev.
Defined.

End ConvergenceFacts.

(* ================================================================== *)
(** ** The encryption demo with random padding *)

Module PaddedDemoFacts.

Import PaddedDemo.

Section Platform.

Variables Text PublicKey PrivateKey Seed : Type.
Variable encode : Text -> list byte.
Variable decode : list byte -> Text.
Variable rsa_encrypt : Seed -> PublicKey -> list byte -> Result (list byte).
Variable rsa_decrypt : PrivateKey -> list byte -> Result (list byte).
Variable btoa : string -> Result string.
Variable atob : string -> Result string.
Variable null_message : string -> string.

Local Notation "'encrypting'" :=
  (encryptMessage Text PublicKey PrivateKey Seed encode rsa_encrypt btoa
     null_message) (only parsing).
Local Notation "'decrypting'" :=
  (decryptMessage Text PublicKey PrivateKey decode rsa_decrypt atob
     null_message) (only parsing).

(** If base64 and the cipher undo what they did and the text of the
    message survives encoding, then decrypting what [encryptMessage]
    produced shows the message that was encrypted: the 16 bytes that
    decryption drops are the 16 bytes of padding that encryption put in
    front, and the bytes survive the passage through a binary string. *)
Theorem decrypt_shows_encrypted_message
    (kp : KeyPair PublicKey PrivateKey) (randomPadding : list byte)
    (seed : Seed) (st later : State Text PublicKey PrivateKey) :
  (forall s b, btoa s = Ok b -> atob b = Ok s) ->
  (forall sd data c,
     rsa_encrypt sd (publicKey _ _ kp) data = Ok c ->
     rsa_decrypt (privateKey _ _ kp) c = Ok data) ->
  decode (encode (message _ _ _ st)) = message _ _ _ st ->
  keyPair _ _ _ st = Some kp ->
  List.length randomPadding = 16%nat ->
  error _ _ _ (encrypting randomPadding seed st) = None ->
  keyPair _ _ _ later = Some kp ->
  encryptedMessage _ _ _ later
  = encryptedMessage _ _ _ (encrypting randomPadding seed st) ->
  decryptedMessage _ _ _ (decrypting later) = message _ _ _ st
  /\ error _ _ _ (decrypting later) = None
  /\ loading _ _ _ (decrypting later) = false.
Proof.
  intros Hb64 Hrsa Hutf8 Hkp Hpad Hok Hkp' Henc.
  unfold encryptMessage, encrypt_attempt in Hok, Henc.
  rewrite Hkp in Hok, Henc.
  destruct (rsa_encrypt seed (publicKey _ _ kp)
              (randomPadding ++ encode (message _ _ _ st)))
    as [encrypted | m] eqn:Eenc; [| discriminate Hok].
  destruct (btoa (fromCharCode encrypted)) as [base64 | m] eqn:Eb;
    [| discriminate Hok].
  cbn [encryptedMessage] in Henc.
  unfold decryptMessage, decrypt_attempt. rewrite Henc, Hkp'.
  rewrite (Hb64 _ _ Eb).
  unfold charCodes, fromCharCode. rewrite list_byte_of_string_of_list_byte.
  rewrite (Hrsa _ _ _ Eenc).
  cbn [decryptedMessage error loading].
  rewrite skipn_app, <- Hpad, skipn_all, Nat.sub_diag. cbn [skipn app].
  now rewrite Hutf8.
Qed.

End Platform.

Lemma decrypt_shows_encrypted_message_witness :
  decryptedMessage _ _ _
    (decryptMessage string unit unit ToyPlatform.decode
       ToyPlatform.rsa_decrypt ToyPlatform.atob (fun _ => "null"%string)
       (encryptMessage string unit unit unit ToyPlatform.encode
          ToyPlatform.rsa_encrypt ToyPlatform.btoa (fun _ => "null"%string)
          ToyPlatform.padding16 tt ToyPlatform.ready))
  = "Whats up!"%string.
Proof.
  refine (proj1 (decrypt_shows_encrypted_message string unit unit unit
                   ToyPlatform.encode ToyPlatform.decode
                   ToyPlatform.rsa_encrypt ToyPlatform.rsa_decrypt
                   ToyPlatform.btoa ToyPlatform.atob (fun _ => "null"%string)
                   ToyPlatform.keys ToyPlatform.padding16 tt
                   ToyPlatform.ready
                   (encryptMessage string unit unit unit ToyPlatform.encode
                      ToyPlatform.rsa_encrypt ToyPlatform.btoa (fun _ => "null"%string)
                      ToyPlatform.padding16 tt ToyPlatform.ready)
                   _ _ _ _ _ _ _ _)).
  - intros s b H. injection H as <-. reflexivity.
  - intros sd data c H. injection H as <-. reflexivity.
  - reflexivity.
  - reflexivity.
  - reflexivity.
  - reflexivity.
  - reflexivity.
  - reflexivity.
Defined.

End PaddedDemoFacts.

(* ================================================================== *)
(** ** The demo with signatures *)

Module SignedDemoFacts.

Import PaddedDemo SignedDemo.

Section Platform.

Variables Text EncryptKey DecryptKey SignKey VerifyKey AesKey Seed : Type.
Variable encode : Text -> list byte.
Variable decode : list byte -> Text.
Variable ecdsa_sign : Seed -> SignKey -> list byte -> Result (list byte).
Variable ecdsa_verify : VerifyKey -> list byte -> list byte -> Result bool.
Variable aes_generate : Seed -> Result AesKey.
Variable aes_encrypt : AesKey -> list byte -> list byte -> Result (list byte).
Variable aes_decrypt : AesKey -> list byte -> list byte -> Result (list byte).
Variable aes_export : AesKey -> Result (list byte).
Variable aes_import : list byte -> Result AesKey.
Variable rsa_encrypt : Seed -> EncryptKey -> list byte -> Result (list byte).
Variable rsa_decrypt : DecryptKey -> list byte -> Result (list byte).
Variable stringify_data : Text -> list byte -> Text.
Variable parse_data : Text -> Result (Text * list byte).
Variable stringify_final : list byte -> list byte -> list byte -> string.
Variable parse_final : string -> Result (list byte * list byte * list byte).
Variable btoa : string -> Result string.
Variable atob : string -> Result string.
Variable tampered : Text -> Text.
Variable null_message : string -> string.

Local Notation "'sending'" :=
  (signAndEncryptMessage Text EncryptKey DecryptKey SignKey VerifyKey AesKey
     Seed encode ecdsa_sign aes_generate aes_encrypt aes_export rsa_encrypt
     stringify_data stringify_final btoa null_message) (only parsing).
Local Notation "'receiving'" :=
  (decryptAndVerifyMessage Text EncryptKey DecryptKey SignKey VerifyKey AesKey
     encode decode ecdsa_verify aes_decrypt aes_import rsa_decrypt parse_data
     parse_final atob tampered null_message) (only parsing).

(** If every primitive of the platform undoes its counterpart (base64,
    the two JSON shapes, RSA, export and import of the AES key, AES, the
    text encoding of the package) and a signature verifies against the
    data it signed, then receiving what [signAndEncryptMessage] produced
    shows the message that was sent as "verified"; in tamper mode it
    shows the marked message, with the verdict of checking the signature
    of the original against the marked text. *)
Theorem receive_shows_sent_message
    (ekp : EncryptKeyPair EncryptKey DecryptKey)
    (skp : SignKeyPair SignKey VerifyKey)
    (signSeed keySeed rsaSeed : Seed) (iv : list byte)
    (st later : State Text EncryptKey DecryptKey SignKey VerifyKey) :
  (forall s b, btoa s = Ok b -> atob b = Ok s) ->
  (forall k i d, parse_final (stringify_final k i d) = Ok (k, i, d)) ->
  (forall sd data c,
     rsa_encrypt sd (encryptPublic _ _ ekp) data = Ok c ->
     rsa_decrypt (encryptPrivate _ _ ekp) c = Ok data) ->
  (forall k raw, aes_export k = Ok raw -> aes_import raw = Ok k) ->
  (forall k i d c, aes_encrypt k i d = Ok c -> aes_decrypt k i c = Ok d) ->
  (forall m sig,
     parse_data (decode (encode (stringify_data m sig))) = Ok (m, sig)) ->
  (forall sd data sig,
     ecdsa_sign sd (signPrivate _ _ skp) data = Ok sig ->
     ecdsa_verify (signPublic _ _ skp) sig data = Ok true) ->
  encryptKeyPair _ _ _ _ _ st = Some ekp ->
  signKeyPair _ _ _ _ _ st = Some skp ->
  error _ _ _ _ _ (sending signSeed keySeed rsaSeed iv st) = None ->
  encryptKeyPair _ _ _ _ _ later = Some ekp ->
  signKeyPair _ _ _ _ _ later = Some skp ->
  encryptedData _ _ _ _ _ later
  = encryptedData _ _ _ _ _ (sending signSeed keySeed rsaSeed iv st) ->
  (tamperMode _ _ _ _ _ later = false ->
     decryptedMessage _ _ _ _ _ (receiving later) = message _ _ _ _ _ st
     /\ verificationStatus _ _ _ _ _ (receiving later) = Some Verified
     /\ error _ _ _ _ _ (receiving later) = None)
  /\ (tamperMode _ _ _ _ _ later = true ->
      forall sig verdict,
        ecdsa_sign signSeed (signPrivate _ _ skp)
          (encode (message _ _ _ _ _ st)) = Ok sig ->
        ecdsa_verify (signPublic _ _ skp) sig
          (encode (tampered (message _ _ _ _ _ st))) = Ok verdict ->
        decryptedMessage _ _ _ _ _ (receiving later)
        = tampered (message _ _ _ _ _ st)
        /\ verificationStatus _ _ _ _ _ (receiving later)
           = Some (if verdict then Verified else Invalid)
        /\ error _ _ _ _ _ (receiving later) = None).
Proof.
  intros Hb64 Hfinal Hrsa Hkey Haes Hdata Hsig Hekp Hskp Hok Hekp' Hskp' Henc.
  unfold signAndEncryptMessage, sign_and_encrypt_attempt in Hok, Henc.
  rewrite Hekp, Hskp in Hok, Henc. cbn [read await] in Hok, Henc.
  destruct (ecdsa_sign signSeed (signPrivate _ _ skp)
              (encode (message _ _ _ _ _ st))) as [sig | m] eqn:Esig;
    [| discriminate Hok].
  cbn [await] in Hok, Henc.
  destruct (aes_generate keySeed) as [aesKey | m] eqn:Egen;
    [| discriminate Hok].
  cbn [await] in Hok, Henc.
  destruct (aes_encrypt aesKey iv
              (encode (stringify_data (message _ _ _ _ _ st) sig)))
    as [encryptedPackage | m] eqn:Eaes; [| discriminate Hok].
  cbn [await] in Hok, Henc.
  destruct (aes_export aesKey) as [raw | m] eqn:Eraw; [| discriminate Hok].
  cbn [await] in Hok, Henc.
  destruct (rsa_encrypt rsaSeed (encryptPublic _ _ ekp) raw)
    as [encryptedKey | m] eqn:Ersa; [| discriminate Hok].
  cbn [await] in Hok, Henc.
  destruct (btoa (stringify_final encryptedKey iv encryptedPackage))
    as [base64 | m] eqn:Eb; [| discriminate Hok].
  cbn [encryptedData] in Henc.
  assert (Hrun : forall mode,
            tamperMode _ _ _ _ _ later = mode ->
            decrypt_and_verify_attempt Text EncryptKey DecryptKey SignKey
              VerifyKey AesKey encode decode ecdsa_verify aes_decrypt
              aes_import rsa_decrypt parse_data parse_final atob tampered
              null_message later
            = await
                (ecdsa_verify (signPublic _ _ skp) sig
                   (encode (if mode then tampered (message _ _ _ _ _ st)
                            else message _ _ _ _ _ st)))
                (fun isValid =>
                   Ok (if mode then tampered (message _ _ _ _ _ st)
                       else message _ _ _ _ _ st, isValid))).
  { intros mode Hmode. unfold decrypt_and_verify_attempt.
    rewrite Henc, Hekp', Hskp', Hmode, (Hb64 _ _ Eb). cbn [await read].
    rewrite Hfinal. cbn [await].
    rewrite (Hrsa _ _ _ Ersa). cbn [await].
    rewrite (Hkey _ _ Eraw). cbn [await].
    rewrite (Haes _ _ _ _ Eaes). cbn [await].
    rewrite Hdata. cbn [await fst snd]. reflexivity. }
  split.
  - intros Hmode. unfold decryptAndVerifyMessage.
    rewrite (Hrun false Hmode), (Hsig _ _ _ Esig). cbn. auto.
  - intros Hmode sig' verdict Esig' Hverdict.
    injection Esig' as <-.
    unfold decryptAndVerifyMessage.
    rewrite (Hrun true Hmode), Hverdict. cbn. auto.
Qed.

End Platform.

Lemma unpack_pack (a b : list byte) :
  ToySigned.unpack (ToySigned.pack a b) = (a, b).
Proof.
  unfold ToySigned.unpack, ToySigned.pack.
  assert (Hlead : forall n t,
            ToySigned.leading (repeat x01 n ++ x00 :: t) = n).
  { induction n as [|n IH]; intros t; cbn; [reflexivity | now rewrite IH]. }
  rewrite Hlead.
  assert (Hskip : skipn (S (List.length a))
                    (repeat x01 (List.length a) ++ x00 :: a ++ b) = a ++ b).
  { change (x00 :: a ++ b) with ([x00] ++ (a ++ b)). rewrite app_assoc.
    rewrite skipn_app.
    rewrite skipn_all2 by (rewrite length_app, repeat_length; simpl; lia).
    rewrite length_app, repeat_length. cbn [List.length].
    replace (S (List.length a) - (List.length a + 1))%nat with 0%nat by lia.
    reflexivity. }
  rewrite Hskip. f_equal.
  - rewrite firstn_app, Nat.sub_diag, firstn_all. cbn [firstn].
    apply app_nil_r.
  - rewrite skipn_app, Nat.sub_diag, skipn_all. reflexivity.
Qed.

Lemma same_bytes_refl (a : list byte) : ToySigned.same_bytes a a = true.
Proof.
  induction a as [|x a IH]; [reflexivity |].
  cbn [ToySigned.same_bytes]. rewrite IH, andb_true_r.
  now destruct x.
Qed.

Lemma receive_shows_sent_message_witness :
  decryptedMessage _ _ _ _ _
    (decryptAndVerifyMessage (list byte) unit unit unit unit unit
       ToySigned.encode ToySigned.decode ToySigned.ecdsa_verify
       ToySigned.aes_decrypt ToySigned.aes_import ToySigned.rsa_decrypt
       ToySigned.parse_data ToySigned.parse_final ToySigned.atob
       ToySigned.tampered (fun _ => "null"%string)
       (signAndEncryptMessage (list byte) unit unit unit unit unit unit
          ToySigned.encode ToySigned.ecdsa_sign ToySigned.aes_generate
          ToySigned.aes_encrypt ToySigned.aes_export ToySigned.rsa_encrypt
          ToySigned.stringify_data ToySigned.stringify_final ToySigned.btoa
          (fun _ => "null"%string) tt tt tt ToySigned.iv12 ToySigned.ready))
  = [x48; x69].
Proof.
  refine (proj1 (proj1 (receive_shows_sent_message (list byte) unit unit unit
                          unit unit unit
                          ToySigned.encode ToySigned.decode
                          ToySigned.ecdsa_sign ToySigned.ecdsa_verify
                          ToySigned.aes_generate ToySigned.aes_encrypt
                          ToySigned.aes_decrypt ToySigned.aes_export
                          ToySigned.aes_import ToySigned.rsa_encrypt
                          ToySigned.rsa_decrypt ToySigned.stringify_data
                          ToySigned.parse_data ToySigned.stringify_final
                          ToySigned.parse_final ToySigned.btoa ToySigned.atob
                          ToySigned.tampered (fun _ => "null"%string)
                          ToySigned.encryptKeys ToySigned.signKeys tt tt tt
                          ToySigned.iv12 ToySigned.ready
                          (signAndEncryptMessage (list byte) unit unit unit
                             unit unit unit
                             ToySigned.encode ToySigned.ecdsa_sign
                             ToySigned.aes_generate ToySigned.aes_encrypt
                             ToySigned.aes_export ToySigned.rsa_encrypt
                             ToySigned.stringify_data ToySigned.stringify_final
                             ToySigned.btoa (fun _ => "null"%string) tt tt tt ToySigned.iv12
                             ToySigned.ready)
                          _ _ _ _ _ _ _ _ _ _ _ _ _) _)).
  - intros s b H. injection H as <-. reflexivity.
  - intros k i d. unfold ToySigned.parse_final, ToySigned.stringify_final.
    rewrite list_byte_of_string_of_list_byte, !unpack_pack. reflexivity.
  - intros sd data c H. injection H as <-. reflexivity.
  - intros [] raw _. reflexivity.
  - intros k i d c H. injection H as <-. reflexivity.
  - intros m sig. unfold ToySigned.parse_data, ToySigned.stringify_data,
      ToySigned.decode, ToySigned.encode.
    rewrite unpack_pack. reflexivity.
  - intros sd data sig H. injection H as <-.
    unfold ToySigned.ecdsa_verify. now rewrite same_bytes_refl.
  - reflexivity.
  - reflexivity.
  - reflexivity.
  - reflexivity.
  - reflexivity.
  - reflexivity.
  - reflexivity.
Defined.

End SignedDemoFacts.
